(** * Partykals: particle life cycle, pool and emission scheduling

    A shallow embedding of the simulation core of the partykals particle
    engine (particle.js, emitter.js, particles_system.js, utils.js) and the
    properties of its specification.

    Modelling conventions.
    - A JavaScript number is an exact rational ([Q]); [==] is [Qeq].  There is
      no rounding, no NaN and no infinity.  The time to live of a particle is
      never 0 and the decay threshold is tested for truthiness before it
      divides; the interpolation factor of an animated attribute divides by
      [1 - changeAt], and the properties on it are stated for a threshold
      other than 1.  The narrowing to 32-bit floats that a Float32Array
      applies on a store is not part of the model: an attribute array holds
      the numbers handed to it, and the properties on the arrays (their
      sizes, the slots a write touches) do not depend on the narrowing.
    - [null] is [None]; a configuration value that may be missing, a plain
      value or a randomizer object is a [JsOpt].  The lifetime of the system
      is the exception: there [None] is [undefined] alone, see
      [SystemOptions].
    - [Math.random] is an explicit stream of draws threaded through the
      functions that consume it.
    - A JavaScript exception is [Throw]; the state at the throw is dropped.
    - User callbacks ([onSpawn], [onUpdate] of the particle options) are
      functions on the particle's fields. *)

From Stdlib Require Import QArith Qround Lqa Lia List String.
From stdpp Require Import base list.

Open Scope Q_scope.

(** ** Numbers, truthiness *)

Module Js.

(** [x < y] on numbers. *)
Definition ltb (x y : Q) : bool := negb (Qle_bool y x).

(** JavaScript truthiness, by type of value. *)
Class Truthy (A : Type) := truthy : A -> bool.

(** A number is falsy exactly when it is zero. *)
#[export] Instance truthy_num : Truthy Q := fun q => negb (Qeq_bool q 0).

(** [null] and [undefined] are falsy. *)
#[export] Instance truthy_option {A} `{Truthy A} : Truthy (option A) :=
  fun o => match o with Some a => truthy a | None => false end.

(** [a || b]. *)
Definition or {A} `{Truthy A} (a b : A) : A := if truthy a then a else b.

(** ToNumber of a number-or-null: [null] converts to 0. *)
Definition to_number (o : option Q) : Q := default 0 o.

(** Results of operations that may raise. *)
Inductive result (A : Type) : Type :=
| Ok (a : A)
| Throw (msg : string).
Arguments Ok {A} a.
Arguments Throw {A} msg.

Definition is_ok {A} (r : result A) : bool :=
  match r with Ok _ => true | Throw _ => false end.

(** The stream of values [Math.random()] will return, each in [0,1). *)
Definition Rng : Type := nat -> Q.

(** Computations that draw random numbers and may raise. *)
Definition M (A : Type) : Type := Rng -> result (A * Rng).

Definition ret {A} (a : A) : M A := fun r => Ok (a, r).

Definition bind {A B} (m : M A) (k : A -> M B) : M B :=
  fun r => match m r with
           | Ok (a, r') => k a r'
           | Throw msg => Throw msg
           end.

Definition throw {A} (msg : string) : M A := fun _ => Throw msg.

(** [Math.random()]. *)
Definition random : M Q := fun r => Ok (r 0%nat, fun n => r (S n)).

(** A randomizer's [generate], which cannot fail. *)
Definition Generator (A : Type) : Type := Rng -> A * Rng.

Definition generate {A} (g : Generator A) : M A := fun r => Ok (g r).

End Js.

Import Js.

Notation "'let!' x ':=' m 'in' k" := (bind m (fun x => k))
  (at level 10, x name, m at level 100, k at level 200).

(** ** Vectors and colours (THREE.Vector3, THREE.Color) *)

Record Vector3 : Type := vec3 { vx : Q; vy : Q; vz : Q }.

Record Color : Type := rgb { cr : Q; cg : Q; cb : Q }.

(** Objects are always truthy. *)
#[export] Instance truthy_vec : Truthy Vector3 := fun _ => true.
#[export] Instance truthy_color : Truthy Color := fun _ => true.

Module Vec.

Definition zero : Vector3 := vec3 0 0 0.

Definition add (a b : Vector3) : Vector3 :=
  vec3 (vx a + vx b) (vy a + vy b) (vz a + vz b).

Definition sub (a b : Vector3) : Vector3 :=
  vec3 (vx a - vx b) (vy a - vy b) (vz a - vz b).

(** Component-wise equality of numbers. *)
Definition eqv (a b : Vector3) : Prop :=
  vx a == vx b /\ vy a == vy b /\ vz a == vz b.

End Vec.

Infix "=v=" := Vec.eqv (at level 70, no associativity).

(** ** Configuration values *)

(** An option that is either missing, a plain value, or a randomizer. *)
Inductive JsOpt (A : Type) : Type :=
| Undefined
| Null
| Const (a : A)
| Rand (g : Generator A).
Arguments Undefined {A}.
Arguments Null {A}.
Arguments Const {A} a.
Arguments Rand {A} g.

#[export] Instance truthy_jsopt {A} `{Truthy A} : Truthy (JsOpt A) :=
  fun o => match o with
           | Undefined | Null => false
           | Const a => truthy a
           | Rand _ => true
           end.

(** particles_system.js, [defined]. *)
Definition defined {A} (val : JsOpt A) : bool :=
  match val with Undefined | Null => false | _ => true end.

(** [val !== undefined]. *)
Definition not_undefined {A} (val : JsOpt A) : bool :=
  match val with Undefined => false | _ => true end.

(** ** utils.js *)

Module Utils.

Definition getRandomBetween (min max : Q) : M Q :=
  let! x := random in ret (x * (max - min) + min).

Definition getRandomWithSpread (baseVal : Q) (extraRandom : option Q) : M Q :=
  match extraRandom with
  | Some e => if truthy e then getRandomBetween baseVal (baseVal + e)
              else ret baseVal
  | None => ret baseVal
  end.

Definition lerp (x y alpha : Q) : Q := x * (1 - alpha) + y * alpha.

(** [target.copy(colA).lerp(colB, alpha)]. *)
Definition lerpColors (colA colB : Color) (alpha : Q) : Color :=
  rgb (cr colA + (cr colB - cr colA) * alpha)
      (cg colA + (cg colB - cg colA) * alpha)
      (cb colA + (cb colB - cb colA) * alpha).

(** Reading [.generate] of [undefined] or [null] is a TypeError. *)
Definition randomizerOrValue (val : JsOpt Q) : M Q :=
  match val with
  | Undefined | Null => throw "TypeError: cannot read property 'generate'"
  | Const v => ret (or v 0)
  | Rand g => let! v := generate g in ret (or v 0)
  end.

End Utils.

(** ** particle.js *)

Record Particle : Type := mkParticle {
  age : Q;
  finished : bool;
  gravityX : option Q;
  gravityY : option Q;
  gravityZ : option Q;
  velocity : option Vector3;
  acceleration : option Vector3;
  position : Vector3;
  ttl : Q;
  alpha : option Q;
  startAlpha : option Q;
  endAlpha : option Q;
  startAlphaChangeAt : Q;
  colorize : bool;
  color : option Color;
  startColor : option Color;
  endColor : option Color;
  startColorChangeAt : Q;
  size : option Q;
  startSize : option Q;
  endSize : option Q;
  startSizeChangeAt : Q;
  rotation : option Q;
  rotationSpeed : option Q;
  startWorldPosition : option Vector3
}.

(** The particle-level options, with the fields the constructor of the
    system derives ([globalSize], [globalColor] and the four flags).  The
    particle's own [onUpdate] field is a copy of the option taken at reset;
    the options do not change afterwards, so [update] reads the option. *)
Record ParticleOptions : Type := mkParticleOptions {
  o_ttl : option Q;
  o_ttlExtra : option Q;
  o_alpha : JsOpt Q;
  o_startAlpha : JsOpt Q;
  o_endAlpha : JsOpt Q;
  o_startAlphaChangeAt : option Q;
  o_size : JsOpt Q;
  o_startSize : JsOpt Q;
  o_endSize : JsOpt Q;
  o_startSizeChangeAt : option Q;
  o_color : JsOpt Color;
  o_startColor : JsOpt Color;
  o_endColor : JsOpt Color;
  o_startColorChangeAt : option Q;
  o_acceleration : JsOpt Vector3;
  o_gravity : option Q;
  o_gravityX : option Q;
  o_gravityY : option Q;
  o_gravityZ : option Q;
  o_rotation : JsOpt Q;
  o_rotationSpeed : JsOpt Q;
  o_velocity : JsOpt Vector3;
  o_velocityBonus : option Vector3;
  o_offset : JsOpt Vector3;
  o_worldPosition : bool;
  o_globalSize : option Q;
  o_globalColor : option Color;
  o_onUpdate : option (Particle -> Particle);
  o_onSpawn : option (Particle -> Particle);
  o_fade : bool;
  o_rotating : bool;
  o_colorize : bool;
  o_scaling : bool
}.

(** A call of the attribute-write interface of the system. *)
Inductive Call : Type :=
| SetAlpha (index : nat) (value : option Q)
| SetColor (index : nat) (value : Color)
| SetSize (index : nat) (value : option Q)
| SetRotation (index : nat) (value : Q)
| SetPosition (index : nat) (value : Vector3).

(** Field updates ([this.f = v]). *)
Definition with_age (v : Q) (p : Particle) : Particle :=
  mkParticle v (finished p) (gravityX p) (gravityY p) (gravityZ p)
    (velocity p) (acceleration p) (position p) (ttl p) (alpha p)
    (startAlpha p) (endAlpha p) (startAlphaChangeAt p) (colorize p) (color p)
    (startColor p) (endColor p) (startColorChangeAt p) (size p) (startSize p)
    (endSize p) (startSizeChangeAt p) (rotation p) (rotationSpeed p)
    (startWorldPosition p).

Definition with_finished (v : bool) (p : Particle) : Particle :=
  mkParticle (age p) v (gravityX p) (gravityY p) (gravityZ p)
    (velocity p) (acceleration p) (position p) (ttl p) (alpha p)
    (startAlpha p) (endAlpha p) (startAlphaChangeAt p) (colorize p) (color p)
    (startColor p) (endColor p) (startColorChangeAt p) (size p) (startSize p)
    (endSize p) (startSizeChangeAt p) (rotation p) (rotationSpeed p)
    (startWorldPosition p).

Definition with_velocity (v : option Vector3) (p : Particle) : Particle :=
  mkParticle (age p) (finished p) (gravityX p) (gravityY p) (gravityZ p)
    v (acceleration p) (position p) (ttl p) (alpha p)
    (startAlpha p) (endAlpha p) (startAlphaChangeAt p) (colorize p) (color p)
    (startColor p) (endColor p) (startColorChangeAt p) (size p) (startSize p)
    (endSize p) (startSizeChangeAt p) (rotation p) (rotationSpeed p)
    (startWorldPosition p).

Definition with_acceleration (v : option Vector3) (p : Particle) : Particle :=
  mkParticle (age p) (finished p) (gravityX p) (gravityY p) (gravityZ p)
    (velocity p) v (position p) (ttl p) (alpha p)
    (startAlpha p) (endAlpha p) (startAlphaChangeAt p) (colorize p) (color p)
    (startColor p) (endColor p) (startColorChangeAt p) (size p) (startSize p)
    (endSize p) (startSizeChangeAt p) (rotation p) (rotationSpeed p)
    (startWorldPosition p).

Definition with_position (v : Vector3) (p : Particle) : Particle :=
  mkParticle (age p) (finished p) (gravityX p) (gravityY p) (gravityZ p)
    (velocity p) (acceleration p) v (ttl p) (alpha p)
    (startAlpha p) (endAlpha p) (startAlphaChangeAt p) (colorize p) (color p)
    (startColor p) (endColor p) (startColorChangeAt p) (size p) (startSize p)
    (endSize p) (startSizeChangeAt p) (rotation p) (rotationSpeed p)
    (startWorldPosition p).

Definition with_rotation (v : option Q) (p : Particle) : Particle :=
  mkParticle (age p) (finished p) (gravityX p) (gravityY p) (gravityZ p)
    (velocity p) (acceleration p) (position p) (ttl p) (alpha p)
    (startAlpha p) (endAlpha p) (startAlphaChangeAt p) (colorize p) (color p)
    (startColor p) (endColor p) (startColorChangeAt p) (size p) (startSize p)
    (endSize p) (startSizeChangeAt p) v (rotationSpeed p)
    (startWorldPosition p).

Definition with_startWorldPosition (v : option Vector3) (p : Particle) : Particle :=
  mkParticle (age p) (finished p) (gravityX p) (gravityY p) (gravityZ p)
    (velocity p) (acceleration p) (position p) (ttl p) (alpha p)
    (startAlpha p) (endAlpha p) (startAlphaChangeAt p) (colorize p) (color p)
    (startColor p) (endColor p) (startColorChangeAt p) (size p) (startSize p)
    (endSize p) (startSizeChangeAt p) (rotation p) (rotationSpeed p) v.

Module ParticleM.

(** [getConstOrRandomVector(target, constValOrRandomizer, returnNullIfUndefined)]. *)
Definition getConstOrRandomVector (constValOrRandomizer : JsOpt Vector3)
    (returnNullIfUndefined : bool) : M (option Vector3) :=
  match constValOrRandomizer with
  | Undefined | Null =>
      ret (if returnNullIfUndefined then None else Some Vec.zero)
  | Rand g => let! v := generate g in ret (Some v)
  | Const v => ret (Some v)
  end.

(** [getConstOrRandomColor(target, constValOrRandomizer)]. *)
Definition getConstOrRandomColor (constValOrRandomizer : JsOpt Color) : M Color :=
  match constValOrRandomizer with
  | Undefined | Null => ret (rgb 1 1 1)
  | Rand g => generate g
  | Const c => ret c
  end.

(** The constant or the start/end pair of a numeric attribute
    ([alpha] and [size] in [reset]). *)
Definition resetTriple (enabled : bool) (const start end_ : JsOpt Q)
  : M (option Q * option Q * option Q) :=
  if enabled then
    if not_undefined const then
      let! a := Utils.randomizerOrValue const in ret (Some a, None, None)
    else
      let! s := Utils.randomizerOrValue start in
      let! e := Utils.randomizerOrValue end_ in
      ret (None, Some s, Some e)
  else ret (None, None, None).

(** [Particle.reset]. *)
Definition reset (options : ParticleOptions) : M Particle :=
  let gx := o_gravityX options in
  let gy := or (o_gravityY options) (o_gravity options) in
  let gz := o_gravityZ options in
  let! v := getConstOrRandomVector (o_velocity options) false in
  let v := match o_velocityBonus options with
           | Some b => option_map (fun v => Vec.add v b) v
           | None => v
           end in
  let! a := getConstOrRandomVector (o_acceleration options) true in
  let! pos := getConstOrRandomVector (o_offset options) false in
  let! t := Utils.getRandomWithSpread (or (default 0 (o_ttl options)) 1)
         (o_ttlExtra options) in
  let t := or t 1 in
  let! alphas := resetTriple (o_fade options) (o_alpha options)
              (o_startAlpha options) (o_endAlpha options) in
  let colorize := o_colorize options in
  let! colors := (if colorize then
               if truthy (o_color options) then
                 let! c := getConstOrRandomColor (o_color options) in
                 ret (Some c, None, None)
               else
                 let! s := getConstOrRandomColor (o_startColor options) in
                 let! e := getConstOrRandomColor (o_endColor options) in
                 ret (None, Some s, Some e)
             else ret (None, None, None)) in
  let! sizes := resetTriple (o_scaling options) (o_size options)
             (o_startSize options) (o_endSize options) in
  let! rot := (if o_rotating options then
            let! r := Utils.randomizerOrValue (or (o_rotation options) (Const 0)) in
            let! s := Utils.randomizerOrValue (or (o_rotationSpeed options) (Const 0)) in
            ret (Some r, Some s)
          else ret (None, None)) in
  let p := {|
    age := 0;
    finished := false;
    gravityX := gx;
    gravityY := gy;
    gravityZ := gz;
    velocity := v;
    acceleration := a;
    position := default Vec.zero pos;
    ttl := t;
    alpha := alphas.1.1;
    startAlpha := alphas.1.2;
    endAlpha := alphas.2;
    startAlphaChangeAt := default 0 (o_startAlphaChangeAt options) / t;
    colorize := colorize;
    color := colors.1.1;
    startColor := colors.1.2;
    endColor := colors.2;
    startColorChangeAt := default 0 (o_startColorChangeAt options) / t;
    size := sizes.1.1;
    startSize := sizes.1.2;
    endSize := sizes.2;
    startSizeChangeAt := default 0 (o_startSizeChangeAt options) / t;
    rotation := rot.1;
    rotationSpeed := rot.2;
    startWorldPosition := None
  |} in
  ret (match o_onSpawn options with Some f => f p | None => p end).

(** [v !== null]. *)
Definition not_null {A} (v : option A) : bool :=
  match v with Some _ => true | None => false end.

(** The "first update" block: commit the initial attribute values. *)
Definition firstUpdateCalls (index : nat) (p : Particle) : list Call :=
  (if not_null (alpha p) || not_null (startAlpha p)
   then [SetAlpha index (or (alpha p) (startAlpha p))] else [])
  ++ match color p, startColor p with
     | Some c, _ => [SetColor index c]
     | None, Some c => [SetColor index c]
     | None, None => []
     end
  ++ (if not_null (size p) || not_null (startSize p)
      then [SetSize index (or (size p) (startSize p))] else [])
  ++ match rotation p with
     | Some r => [SetRotation index r]
     | None => []
     end.

(** The interpolation factor of an animated attribute:
    [changeAt ? (age - changeAt) / (1 - changeAt) : age].  At a threshold of
    1 the code divides by 0 and gets NaN or an infinity, which [Q] does not
    have; the properties on the factor exclude that threshold. *)
Definition factor (changeAt age : Q) : Q :=
  if truthy changeAt then (age - changeAt) / (1 - changeAt) else age.

(** A numeric animated attribute ([alpha], [size]) in the "normal update"
    block: [start != null && this.age >= changeAt]. *)
Definition animated (start end_ : option Q) (changeAt age : Q) : option Q :=
  match start with
  | Some s =>
      if Qle_bool changeAt age
      then Some (Utils.lerp s (to_number end_) (factor changeAt age))
      else None
  | None => None
  end.

(** The "normal update" block.  THREE's [lerp] reads the channels of the end
    colour, which raises when that colour is [null]. *)
Definition animatedCalls (index : nat) (p : Particle) : result (list Call) :=
  match
    match startColor p with
    | Some s =>
        if Qle_bool (startColorChangeAt p) (age p) then
          match endColor p with
          | Some e =>
              Ok [SetColor index
                    (Utils.lerpColors s e (factor (startColorChangeAt p) (age p)))]
          | None => Throw "TypeError: cannot read property 'r' of null"
          end
        else Ok []
    | None => Ok []
    end
  with
  | Throw msg => Throw msg
  | Ok colorCalls =>
      Ok (colorCalls
          ++ match animated (startAlpha p) (endAlpha p) (startAlphaChangeAt p) (age p) with
             | Some a => [SetAlpha index (Some a)]
             | None => []
             end
          ++ match animated (startSize p) (endSize p) (startSizeChangeAt p) (age p) with
             | Some a => [SetSize index (Some a)]
             | None => []
             end)
  end.

(** [if (this.rotationSpeed) { this.rotation += ...; setRotation(...) }]. *)
Definition rotate (index : nat) (deltaTime : Q) (p : Particle) : Particle * list Call :=
  match rotationSpeed p with
  | Some s =>
      if truthy s then
        let r := to_number (rotation p) + s * deltaTime in
        (with_rotation (Some r) p, [SetRotation index r])
      else (p, [])
  | None => (p, [])
  end.

(** One axis of [if (this.gravityX) this.velocity.x += this.gravityX * deltaTime]. *)
Definition addGravity (g : option Q) (deltaTime v : Q) : Q :=
  match g with
  | Some g => if truthy g then v + g * deltaTime else v
  | None => v
  end.

(** The "update position" block: gravity, then position. *)
Definition integrate (deltaTime : Q) (p : Particle) : Particle :=
  match velocity p with
  | Some v =>
      let v' := vec3 (addGravity (gravityX p) deltaTime (vx v))
                     (addGravity (gravityY p) deltaTime (vy v))
                     (addGravity (gravityZ p) deltaTime (vz v)) in
      let pos := position p in
      let pos' := vec3 (vx pos + vx v' * deltaTime)
                       (vy pos + vy v' * deltaTime)
                       (vz pos + vz v' * deltaTime) in
      with_position pos' (with_velocity (Some v') p)
  | None => p
  end.

(** The vector handed to [setPosition]: a scratch copy of the position,
    shifted back by the displacement of the system since the anchor. *)
Definition positionToSet (worldPos : Vector3) (p : Particle) : Vector3 :=
  match startWorldPosition p with
  | Some anchor => Vec.sub (position p) (Vec.sub worldPos anchor)
  | None => position p
  end.

(** The "update velocity" block. *)
Definition accelerate (deltaTime : Q) (p : Particle) : Particle :=
  match acceleration p, velocity p with
  | Some a, Some v =>
      with_velocity (Some (vec3 (vx v + vx a * deltaTime)
                                (vy v + vy a * deltaTime)
                                (vz v + vz a * deltaTime))) p
  | _, _ => p
  end.

(** [if (this.age > 1) { this.age = 1; this.finished = true; }]. *)
Definition finish (p : Particle) : Particle :=
  if ltb 1 (age p) then with_finished true (with_age 1 p) else p.

(** "if its first update and use world position, store current world
    position". *)
Definition anchor (options : ParticleOptions) (worldPos : Vector3)
    (p : Particle) : Particle :=
  if Qeq_bool (age p) 0 && o_worldPosition options
  then with_startWorldPosition (Some worldPos) p else p.

(** [this.age += deltaTime / this.ttl]. *)
Definition advanceAge (deltaTime : Q) (p : Particle) : Particle :=
  with_age (age p + deltaTime / ttl p) p.

(** [if (this.onUpdate) this.onUpdate(this)]. *)
Definition callOnUpdate (options : ParticleOptions) (p : Particle) : Particle :=
  match o_onUpdate options with
  | Some f => f p
  | None => p
  end.

(** [Particle.update(index, deltaTime)]; [worldPos] is what
    [this.system.getWorldPosition()] returns during the call.  The result
    holds the particle after the call and the writes it made, in order. *)
Definition update (options : ParticleOptions) (worldPos : Vector3)
    (index : nat) (deltaTime : Q) (p : Particle) : result (Particle * list Call) :=
  if finished p then Ok (p, [])
  else
    let firstUpdate := Qeq_bool (age p) 0 in
    let p1 := anchor options worldPos p in
    match (if firstUpdate then Ok (firstUpdateCalls index p1)
           else animatedCalls index p1) with
    | Throw msg => Throw msg
    | Ok calls1 =>
        let '(p2, calls2) := rotate index deltaTime p1 in
        let p3 := integrate deltaTime p2 in
        let calls3 := [SetPosition index (positionToSet worldPos p3)] in
        let p4 := accelerate deltaTime p3 in
        let p5 := advanceAge deltaTime p4 in
        let p6 := callOnUpdate options p5 in
        Ok (finish p6, calls1 ++ calls2 ++ calls3)
    end.

(** [get worldPosition], with [worldPos] the world position of the system. *)
Definition worldPosition (worldPos : Vector3) (p : Particle) : Vector3 :=
  Vec.add worldPos (position p).

(** Successive calls of [update] on one particle, one per frame; a frame
    gives the world position of the system and the delta time.  The result
    lists the particle and its writes after each call. *)
Fixpoint run (options : ParticleOptions) (index : nat)
    (frames : list (Vector3 * Q)) (p : Particle)
  : result (list (Particle * list Call)) :=
  match frames with
  | [] => Ok []
  | (worldPos, deltaTime) :: frames' =>
      match update options worldPos index deltaTime p with
      | Throw msg => Throw msg
      | Ok (p', calls) =>
          match run options index frames' p' with
          | Throw msg => Throw msg
          | Ok trace => Ok ((p', calls) :: trace)
          end
      end
  end.

End ParticleM.

(** ** emitter.js *)

Record EmitterOptions : Type := mkEmitterOptions {
  onSpawnBurst : JsOpt Q;
  onInterval : JsOpt Q;
  interval : JsOpt Q;
  detoretingMinTtl : option Q
}.

Record Emitter : Type := mkEmitter {
  e_options : EmitterOptions;
  e_age : Q;
  timeToSpawn : Q
}.

Module EmitterM.

(** [new Emitter(options)]. *)
Definition new (options : EmitterOptions) : M Emitter :=
  let options := mkEmitterOptions (onSpawnBurst options) (onInterval options)
                   (or (interval options) (Const 1)) (detoretingMinTtl options) in
  let! r := random in
  let! i := Utils.randomizerOrValue (interval options) in
  ret (mkEmitter options 0 (r * i)).

(** The "do detoration" block; [system_ttl] is [system.ttl], [None] when
    the system has no lifetime ([undefined < x] is false). *)
Definition detorate (options : EmitterOptions) (system_ttl : option Q) (ret_ : Q) : Q :=
  match detoretingMinTtl options, system_ttl with
  | Some minTtl, Some t =>
      if truthy minTtl && ltb t minTtl then ret_ * (t / minTtl) else ret_
  | _, _ => ret_
  end.

(** [Emitter.update(deltaTime, system)]: the number of particles to
    generate this frame and the emitter after the call. *)
Definition update (deltaTime : Q) (system_ttl : option Q) (e : Emitter)
  : M (Q * Emitter) :=
  let options := e_options e in
  let! ret0 := (if Qeq_bool (e_age e) 0 && truthy (onSpawnBurst options)
                then let! b := Utils.randomizerOrValue (onSpawnBurst options) in
                     ret (0 + b)
                else ret 0) in
  let age' := e_age e + deltaTime in
  if negb (truthy (onInterval options)) then
    ret (ret0, mkEmitter options age' (timeToSpawn e))
  else
    let tts := timeToSpawn e - deltaTime in
    let! fired := (if Qle_bool tts 0
                   then let! tts' := Utils.randomizerOrValue (interval options) in
                        let! q := Utils.randomizerOrValue (onInterval options) in
                        ret (tts', ret0 + q)
                   else ret (tts, ret0)) in
    ret (detorate options system_ttl fired.2, mkEmitter options age' fired.1).

(** Successive calls of [update] on one emitter; a frame gives the delta
    time and the lifetime of the system at the call.  The result lists the
    counts returned, in order, and the emitter after the last call. *)
Fixpoint run (frames : list (Q * option Q)) (e : Emitter) : M (list Q * Emitter) :=
  match frames with
  | [] => ret ([], e)
  | (deltaTime, system_ttl) :: frames' =>
      let! r := update deltaTime system_ttl e in
      let! rest := run frames' r.2 in
      ret (r.1 :: rest.1, rest.2)
  end.

End EmitterM.

(** ** particles_system.js *)

(** [options.system.emitters]: absent, one emitter, or an array. *)
Inductive EmittersOpt : Type :=
| NoEmitters
| OneEmitter (e : Emitter)
| EmitterArray (es : list Emitter).

(** The system-level options the simulation reads.  [particlesCount] is a
    count of particles.  [so_ttl] is [None] for a lifetime that is
    [undefined].  A lifetime of [null] is the value [Some 0]: the code reads
    the lifetime in [ttl > 0], [ttl <= 0], [ttl < detoretingMinTtl] and
    [ttl / detoretingMinTtl] only, each of which converts [null] to 0, and
    it never decrements a lifetime that is not above 0. *)
Record SystemOptions : Type := mkSystemOptions {
  particlesCount : option nat;
  so_ttl : option Q;
  so_speed : option Q;
  emitters : EmittersOpt
}.

Record Options : Type := mkOptions {
  particles : option ParticleOptions;
  system : option SystemOptions
}.

(** The attribute arrays of the geometry (Float32Array), the draw range and
    the [needsUpdate] marks of the attributes.  An optional attribute that
    was not created is [None].  A slot holds the number handed to the
    array; the array itself keeps that number narrowed to a 32-bit float. *)
Record Geometry : Type := mkGeometry {
  position_array : list Q;
  color_array : option (list Q);
  alpha_array : option (list Q);
  size_array : option (list Q);
  rotation_array : option (list Q);
  drawRange : nat;
  position_needsUpdate : bool;
  color_needsUpdate : bool;
  alpha_needsUpdate : bool;
  size_needsUpdate : bool;
  rotation_needsUpdate : bool
}.

Record Dirty : Type := mkDirty {
  _positionDirty : bool;
  _colorsDirty : bool;
  _alphaDirty : bool;
  _sizeDirty : bool;
  _rotateDirty : bool
}.

(** Which of the system-level hooks the last [update] invoked. *)
Inductive Notification : Type := OnFinish | OnUpdate.

(** The particles system.  [worldPosition] is the position
    [getWorldPosition] reports (the system hangs directly in the scene, so
    its world position is its own position); [boundObject] is the position
    of the object bound with [bindObject], if any. *)
Record ParticlesSystem : Type := mkSystem {
  p_options : ParticleOptions;
  s_options : SystemOptions;
  s_ttl : option Q;
  s_age : Q;
  s_dt : option Q;
  speed : Q;
  _timeToUpdateBS : Q;
  _needBoundingSphereUpdate : bool;
  _emitters : list Emitter;
  _aliveParticles : list Particle;
  _deadParticles : list Particle;
  geometry : Geometry;
  dirty : Dirty;
  worldPosition : Vector3;
  boundObject : option Vector3;
  notified : option Notification
}.

Definition with_pools (alive dead : list Particle) (s : ParticlesSystem)
  : ParticlesSystem :=
  mkSystem (p_options s) (s_options s) (s_ttl s) (s_age s) (s_dt s) (speed s)
    (_timeToUpdateBS s) (_needBoundingSphereUpdate s) (_emitters s)
    alive dead (geometry s) (dirty s) (worldPosition s) (boundObject s)
    (notified s).

Definition with_geometry (g : Geometry) (d : Dirty) (s : ParticlesSystem)
  : ParticlesSystem :=
  mkSystem (p_options s) (s_options s) (s_ttl s) (s_age s) (s_dt s) (speed s)
    (_timeToUpdateBS s) (_needBoundingSphereUpdate s) (_emitters s)
    (_aliveParticles s) (_deadParticles s) g d (worldPosition s)
    (boundObject s) (notified s).

Definition with_emitters (es : list Emitter) (s : ParticlesSystem)
  : ParticlesSystem :=
  mkSystem (p_options s) (s_options s) (s_ttl s) (s_age s) (s_dt s) (speed s)
    (_timeToUpdateBS s) (_needBoundingSphereUpdate s) es
    (_aliveParticles s) (_deadParticles s) (geometry s) (dirty s)
    (worldPosition s) (boundObject s) (notified s).

Definition with_ttl (t : option Q) (s : ParticlesSystem) : ParticlesSystem :=
  mkSystem (p_options s) (s_options s) t (s_age s) (s_dt s) (speed s)
    (_timeToUpdateBS s) (_needBoundingSphereUpdate s) (_emitters s)
    (_aliveParticles s) (_deadParticles s) (geometry s) (dirty s)
    (worldPosition s) (boundObject s) (notified s).

Definition with_worldPosition (w : Vector3) (s : ParticlesSystem)
  : ParticlesSystem :=
  mkSystem (p_options s) (s_options s) (s_ttl s) (s_age s) (s_dt s) (speed s)
    (_timeToUpdateBS s) (_needBoundingSphereUpdate s) (_emitters s)
    (_aliveParticles s) (_deadParticles s) (geometry s) (dirty s) w
    (boundObject s) (notified s).

Definition with_boundObject (b : option Vector3) (s : ParticlesSystem)
  : ParticlesSystem :=
  mkSystem (p_options s) (s_options s) (s_ttl s) (s_age s) (s_dt s) (speed s)
    (_timeToUpdateBS s) (_needBoundingSphereUpdate s) (_emitters s)
    (_aliveParticles s) (_deadParticles s) (geometry s) (dirty s)
    (worldPosition s) b (notified s).

(** [Array.prototype.pop]: the last element and the shortened array. *)
Definition pop {A} (l : list A) : option (A * list A) :=
  match last l with
  | Some x => Some (x, take (length l - 1) l)
  | None => None
  end.

Module System.

(** The options object [{ worldPosition: true }] used when none is given. *)
Definition defaultParticleOptions : ParticleOptions :=
  mkParticleOptions None None Undefined Undefined Undefined None
    Undefined Undefined Undefined None Undefined Undefined Undefined None
    Undefined None None None None Undefined Undefined Undefined None
    Undefined true None None None None false false false false.

(** The options object [{}]. *)
Definition defaultSystemOptions : SystemOptions :=
  mkSystemOptions None None None NoEmitters.

(** "replace const size with global size": a plain number given as [size]
    moves to [globalSize] and [size] is deleted. *)
Definition replaceSize (o : ParticleOptions) : ParticleOptions :=
  match o_size o with
  | Const n =>
      mkParticleOptions (o_ttl o) (o_ttlExtra o) (o_alpha o) (o_startAlpha o)
        (o_endAlpha o) (o_startAlphaChangeAt o) Undefined (o_startSize o)
        (o_endSize o) (o_startSizeChangeAt o) (o_color o) (o_startColor o)
        (o_endColor o) (o_startColorChangeAt o) (o_acceleration o)
        (o_gravity o) (o_gravityX o) (o_gravityY o) (o_gravityZ o)
        (o_rotation o) (o_rotationSpeed o) (o_velocity o) (o_velocityBonus o)
        (o_offset o) (o_worldPosition o) (Some n) (o_globalColor o)
        (o_onUpdate o) (o_onSpawn o) (o_fade o) (o_rotating o) (o_colorize o)
        (o_scaling o)
  | _ => o
  end.

(** "replace const color with global color": a THREE.Color given as
    [color] moves to [globalColor] and [color] is deleted. *)
Definition replaceColor (o : ParticleOptions) : ParticleOptions :=
  match o_color o with
  | Const c =>
      mkParticleOptions (o_ttl o) (o_ttlExtra o) (o_alpha o) (o_startAlpha o)
        (o_endAlpha o) (o_startAlphaChangeAt o) (o_size o) (o_startSize o)
        (o_endSize o) (o_startSizeChangeAt o) Undefined (o_startColor o)
        (o_endColor o) (o_startColorChangeAt o) (o_acceleration o)
        (o_gravity o) (o_gravityX o) (o_gravityY o) (o_gravityZ o)
        (o_rotation o) (o_rotationSpeed o) (o_velocity o) (o_velocityBonus o)
        (o_offset o) (o_worldPosition o) (o_globalSize o) (Some c)
        (o_onUpdate o) (o_onSpawn o) (o_fade o) (o_rotating o) (o_colorize o)
        (o_scaling o)
  | _ => o
  end.

(** "set some internal flags". *)
Definition setFlags (o : ParticleOptions) : ParticleOptions :=
  mkParticleOptions (o_ttl o) (o_ttlExtra o) (o_alpha o) (o_startAlpha o)
    (o_endAlpha o) (o_startAlphaChangeAt o) (o_size o) (o_startSize o)
    (o_endSize o) (o_startSizeChangeAt o) (o_color o) (o_startColor o)
    (o_endColor o) (o_startColorChangeAt o) (o_acceleration o)
    (o_gravity o) (o_gravityX o) (o_gravityY o) (o_gravityZ o)
    (o_rotation o) (o_rotationSpeed o) (o_velocity o) (o_velocityBonus o)
    (o_offset o) (o_worldPosition o) (o_globalSize o) (o_globalColor o)
    (o_onUpdate o) (o_onSpawn o)
    (defined (o_startAlpha o) || defined (o_alpha o))
    (defined (o_rotationSpeed o) || defined (o_rotation o))
    (defined (o_color o) || defined (o_startColor o))
    (defined (o_size o) || defined (o_startSize o)).

(** The six validation tests, in the order of the constructor; the first
    that fires gives the message of the Error. *)
Definition validate (pOptions : ParticleOptions) : option string :=
  if defined (o_startAlpha pOptions) && negb (defined (o_endAlpha pOptions)) then
    Some "When providing 'startAlpha' you must also provide 'endAlpha'!"%string
  else if defined (o_startAlpha pOptions) && defined (o_alpha pOptions) then
    Some "When providing 'alpha' you can't also provide 'startAlpha'!"%string
  else if defined (o_startColor pOptions) && negb (defined (o_endColor pOptions)) then
    Some "When providing 'startColor' you must also provide 'endColor'!"%string
  else if defined (o_startColor pOptions) && defined (o_color pOptions) then
    Some "When providing 'color' you can't also provide 'startColor'!"%string
  else if defined (o_startSize pOptions) && negb (defined (o_endSize pOptions)) then
    Some "When providing 'startSize' you must also provide 'endSize'!"%string
  else if defined (o_startSize pOptions) && defined (o_size pOptions) then
    Some "When providing 'size' you can't also provide 'startSize'!"%string
  else None.

(** The particle options as the constructor leaves them before validating. *)
Definition normalize (o : ParticleOptions) : ParticleOptions :=
  setFlags (replaceColor (replaceSize o)).

(** [options.system.particlesCount || 10]. *)
Definition particleCount (so : SystemOptions) : nat :=
  match particlesCount so with
  | Some (S n) => S n
  | _ => 10%nat
  end.

(** The emitters attached by the constructor. *)
Definition initialEmitters (so : SystemOptions) : list Emitter :=
  match emitters so with
  | NoEmitters => []
  | OneEmitter e => [e]
  | EmitterArray es => es
  end.

(** The geometry the constructor allocates for [n] particles. *)
Definition newGeometry (o : ParticleOptions) (n : nat) : Geometry :=
  mkGeometry
    (replicate (n * 3) 0)
    (if o_colorize o then Some (replicate (n * 3) 1) else None)
    (if o_fade o then Some (replicate n 1) else None)
    (if o_scaling o then Some (replicate n 1) else None)
    (if o_rotating o then Some (replicate n 0) else None)
    0 false false false false false.

(** The loop that fills the dead pool: [n] times [new Particle(this)],
    whose constructor calls [reset]. *)
Fixpoint newParticles (o : ParticleOptions) (n : nat) (dead : list Particle)
  : M (list Particle) :=
  match n with
  | O => ret dead
  | S n' => let! p := ParticleM.reset o in newParticles o n' (dead ++ [p])
  end.

(** [new ParticlesSystem(options)]. *)
Definition new (options : Options) : M ParticlesSystem :=
  let po := default defaultParticleOptions (particles options) in
  let so := default defaultSystemOptions (system options) in
  let pOptions := normalize po in
  match validate pOptions with
  | Some msg => throw msg
  | None =>
      let count := particleCount so in
      let! dead := newParticles pOptions count [] in
      ret (mkSystem pOptions so
             (so_ttl so) 0 None
             (or (default 0 (so_speed so)) 1)
             0 false
             (initialEmitters so)
             [] dead
             (newGeometry pOptions count)
             (mkDirty true (o_colorize pOptions) (o_fade pOptions) false
                (o_rotating pOptions))
             Vec.zero None None)
  end.

(** [reset()]. *)
Definition reset (s : ParticlesSystem) : ParticlesSystem :=
  mkSystem (p_options s) (s_options s) (so_ttl (s_options s)) 0 (s_dt s)
    (speed s) 0 (_needBoundingSphereUpdate s) (_emitters s)
    (_aliveParticles s) (_deadParticles s) (geometry s) (dirty s)
    (worldPosition s) (boundObject s) (notified s).

(** [gracefulStop()]. *)
Definition gracefulStop (s : ParticlesSystem) : ParticlesSystem :=
  with_ttl (Some 0) s.

(** [addEmitter(emitter)]. *)
Definition addEmitter (e : Emitter) (s : ParticlesSystem) : ParticlesSystem :=
  with_emitters (_emitters s ++ [e]) s.

(** [bindObject(object)], and the bound object moving. *)
Definition bindObject (pos : Vector3) (s : ParticlesSystem) : ParticlesSystem :=
  with_boundObject (Some pos) s.

(** A missing attribute: reading [.array] of [undefined]. *)
Definition noAttribute {A} : result A :=
  Throw "TypeError: cannot read property 'array' of undefined".

(** [setColor(index, color)]. *)
Definition setColor (index : nat) (c : Color) (s : ParticlesSystem)
  : result ParticlesSystem :=
  let g := geometry s in
  let d := dirty s in
  match color_array g with
  | None => noAttribute
  | Some colors =>
      let index := (index * 3)%nat in
      let colors := <[(index + 2)%nat := cb c]>
                      (<[(index + 1)%nat := cg c]> (<[index := cr c]> colors)) in
      Ok (with_geometry
            (mkGeometry (position_array g) (Some colors) (alpha_array g)
               (size_array g) (rotation_array g) (drawRange g)
               (position_needsUpdate g) (color_needsUpdate g)
               (alpha_needsUpdate g) (size_needsUpdate g)
               (rotation_needsUpdate g))
            (mkDirty (_positionDirty d) true (_alphaDirty d) (_sizeDirty d)
               (_rotateDirty d)) s)
  end.

(** [setPosition(index, position)]. *)
Definition setPosition (index : nat) (v : Vector3) (s : ParticlesSystem)
  : result ParticlesSystem :=
  let g := geometry s in
  let d := dirty s in
  let index := (index * 3)%nat in
  let vertices := <[(index + 2)%nat := vz v]>
                    (<[(index + 1)%nat := vy v]>
                       (<[index := vx v]> (position_array g))) in
  Ok (with_geometry
        (mkGeometry vertices (color_array g) (alpha_array g)
           (size_array g) (rotation_array g) (drawRange g)
           (position_needsUpdate g) (color_needsUpdate g)
           (alpha_needsUpdate g) (size_needsUpdate g)
           (rotation_needsUpdate g))
        (mkDirty true (_colorsDirty d) (_alphaDirty d) (_sizeDirty d)
           (_rotateDirty d)) s).

(** [setAlpha(index, value)]; storing [null] in a Float32Array stores 0. *)
Definition setAlpha (index : nat) (value : option Q) (s : ParticlesSystem)
  : result ParticlesSystem :=
  let g := geometry s in
  let d := dirty s in
  match alpha_array g with
  | None => noAttribute
  | Some alphas =>
      Ok (with_geometry
            (mkGeometry (position_array g) (color_array g)
               (Some (<[index := to_number value]> alphas))
               (size_array g) (rotation_array g) (drawRange g)
               (position_needsUpdate g) (color_needsUpdate g)
               (alpha_needsUpdate g) (size_needsUpdate g)
               (rotation_needsUpdate g))
            (mkDirty (_positionDirty d) (_colorsDirty d) true (_sizeDirty d)
               (_rotateDirty d)) s)
  end.

(** [setRotation(index, value)]. *)
Definition setRotation (index : nat) (value : Q) (s : ParticlesSystem)
  : result ParticlesSystem :=
  let g := geometry s in
  let d := dirty s in
  match rotation_array g with
  | None => noAttribute
  | Some rotations =>
      Ok (with_geometry
            (mkGeometry (position_array g) (color_array g) (alpha_array g)
               (size_array g) (Some (<[index := value]> rotations))
               (drawRange g)
               (position_needsUpdate g) (color_needsUpdate g)
               (alpha_needsUpdate g) (size_needsUpdate g)
               (rotation_needsUpdate g))
            (mkDirty (_positionDirty d) (_colorsDirty d) (_alphaDirty d)
               (_sizeDirty d) true) s)
  end.

(** [setSize(index, value)]. *)
Definition setSize (index : nat) (value : option Q) (s : ParticlesSystem)
  : result ParticlesSystem :=
  let g := geometry s in
  let d := dirty s in
  match size_array g with
  | None => noAttribute
  | Some sizes =>
      Ok (with_geometry
            (mkGeometry (position_array g) (color_array g) (alpha_array g)
               (Some (<[index := to_number value]> sizes)) (rotation_array g)
               (drawRange g)
               (position_needsUpdate g) (color_needsUpdate g)
               (alpha_needsUpdate g) (size_needsUpdate g)
               (rotation_needsUpdate g))
            (mkDirty (_positionDirty d) (_colorsDirty d) (_alphaDirty d) true
               (_rotateDirty d)) s)
  end.

(** One write of a particle, dispatched to the method it calls. *)
Definition applyCall (c : Call) (s : ParticlesSystem) : result ParticlesSystem :=
  match c with
  | SetAlpha i v => setAlpha i v s
  | SetColor i v => setColor i v s
  | SetSize i v => setSize i v s
  | SetRotation i v => setRotation i v s
  | SetPosition i v => setPosition i v s
  end.

(** The writes of one particle update, in order. *)
Fixpoint applyCalls (cs : list Call) (s : ParticlesSystem) : result ParticlesSystem :=
  match cs with
  | [] => Ok s
  | c :: cs' =>
      match applyCall c s with
      | Ok s' => applyCalls cs' s'
      | Throw msg => Throw msg
      end
  end.

(** The loop of [spawnParticles], from counter [i]; each iteration pops a
    dead particle, so [fuel] above the size of the dead pool is never
    exhausted. *)
Fixpoint spawnLoop (fuel : nat) (i quantity : Q) (s : ParticlesSystem)
  : M ParticlesSystem :=
  match fuel with
  | O => ret s
  | S fuel' =>
      if ltb i quantity then
        match pop (_deadParticles s) with
        | None => ret s
        | Some (_, dead') =>
            let! particle := ParticleM.reset (p_options s) in
            spawnLoop fuel' (i + 1) quantity
              (with_pools (_aliveParticles s ++ [particle]) dead' s)
        end
      else ret s
  end.

(** [spawnParticles(quantity)]. *)
Definition spawnParticles (quantity : Q) (s : ParticlesSystem) : M ParticlesSystem :=
  spawnLoop (S (length (_deadParticles s))) 0 quantity s.

(** The loop over the emitters in [update]: each emitter is updated and the
    count it returns, when truthy, is spawned at once. *)
Fixpoint emit (deltaTime : Q) (es : list Emitter) (s : ParticlesSystem)
  : M (list Emitter * ParticlesSystem) :=
  match es with
  | [] => ret ([], s)
  | e :: es' =>
      let! r := EmitterM.update deltaTime (s_ttl s) e in
      let! s1 := (if truthy r.1 then spawnParticles r.1 s else ret s) in
      let! rest := emit deltaTime es' s1 in
      ret (r.2 :: rest.1, rest.2)
  end.

(** The loop over the alive particles in [update], for the indices below
    [n], from the highest down. *)
Fixpoint updateParticles (n : nat) (deltaTime : Q) (s : ParticlesSystem)
  : result ParticlesSystem :=
  match n with
  | O => Ok s
  | S i =>
      match _aliveParticles s !! i with
      | None => Throw "TypeError: cannot read property 'update' of undefined"
      | Some particle =>
          match ParticleM.update (p_options s) (worldPosition s) i deltaTime particle with
          | Throw msg => Throw msg
          | Ok (particle', calls) =>
              match applyCalls calls s with
              | Throw msg => Throw msg
              | Ok s1 =>
                  let s2 :=
                    if finished particle' then
                      with_pools (delete i (_aliveParticles s1))
                        (_deadParticles s1 ++ [particle']) s1
                    else
                      with_pools (<[i := particle']> (_aliveParticles s1))
                        (_deadParticles s1) s1 in
                  updateParticles i deltaTime s2
              end
          end
      end
  end.

(** [get ttlExpired]. *)
Definition ttlExpired (s : ParticlesSystem) : bool :=
  match s_ttl s with
  | Some t => Qle_bool t 0
  | None => false
  end.

(** [get particlesCount]. *)
Definition particlesCount (s : ParticlesSystem) : nat :=
  length (_aliveParticles s).

(** [get maxParticlesCount]. *)
Definition maxParticlesCount (s : ParticlesSystem) : nat :=
  (length (_aliveParticles s) + length (_deadParticles s))%nat.

(** [get finished]. *)
Definition finished (s : ParticlesSystem) : bool :=
  ttlExpired s && (particlesCount s =? 0)%nat.

(** The end of [update]: draw range, dirty flags, bounding sphere timer and
    the system-level hooks. *)
Definition endOfFrame (prevParticlesCount : nat) (deltaTime : Q)
    (s : ParticlesSystem) : ParticlesSystem :=
  let g := geometry s in
  let d := dirty s in
  let alive := length (_aliveParticles s) in
  let range := if (prevParticlesCount =? alive)%nat then drawRange g else alive in
  let needBS := _needBoundingSphereUpdate s || _positionDirty d in
  let g' := mkGeometry (position_array g) (color_array g) (alpha_array g)
              (size_array g) (rotation_array g) range
              (_positionDirty d)
              (_colorsDirty d || color_needsUpdate g)
              (_alphaDirty d || alpha_needsUpdate g)
              (_sizeDirty d || size_needsUpdate g)
              (_rotateDirty d || rotation_needsUpdate g) in
  let bs := if needBS then
              let t := _timeToUpdateBS s - deltaTime in
              if Qle_bool t 0 then 2 # 10 else t
            else _timeToUpdateBS s in
  mkSystem (p_options s) (s_options s) (s_ttl s) (s_age s) (s_dt s) (speed s)
    bs needBS (_emitters s) (_aliveParticles s) (_deadParticles s) g'
    (mkDirty false false false false false) (worldPosition s) (boundObject s)
    (Some (if finished s then OnFinish else OnUpdate)).

(** [update(deltaTime)], for a given [deltaTime]. *)
Definition update (deltaTime : Q) (s : ParticlesSystem) : M ParticlesSystem :=
  if Qeq_bool deltaTime 0 then ret s
  else
    let ttl' := match s_ttl s with
                | Some t => if ltb 0 t then Some (t - deltaTime) else Some t
                | None => None
                end in
    let deltaTime := deltaTime * speed s in
    let world := match boundObject s with
                 | Some pos => pos
                 | None => worldPosition s
                 end in
    let s0 := mkSystem (p_options s) (s_options s) ttl' (s_age s + deltaTime)
                (Some deltaTime) (speed s) (_timeToUpdateBS s)
                (_needBoundingSphereUpdate s) (_emitters s) (_aliveParticles s)
                (_deadParticles s) (geometry s) (dirty s) world (boundObject s)
                (notified s) in
    let prevParticlesCount := length (_aliveParticles s0) in
    let! s1 := (if negb (ttlExpired s0)
                then let! r := emit deltaTime (_emitters s0) s0 in
                     ret (with_emitters r.1 r.2)
                else ret s0) in
    match updateParticles (length (_aliveParticles s1)) deltaTime s1 with
    | Throw msg => throw msg
    | Ok s2 => ret (endOfFrame prevParticlesCount deltaTime s2)
    end.

(** The operations a client performs on a constructed system; [MoveTo] is
    the scene moving the system. *)
Inductive Op : Type :=
| Update (deltaTime : Q)
| SpawnParticles (quantity : Q)
| Reset
| GracefulStop
| AddEmitter (e : Emitter)
| BindObject (pos : Vector3)
| MoveTo (pos : Vector3).

Definition step (op : Op) (s : ParticlesSystem) : M ParticlesSystem :=
  match op with
  | Update deltaTime => update deltaTime s
  | SpawnParticles quantity => spawnParticles quantity s
  | Reset => ret (reset s)
  | GracefulStop => ret (gracefulStop s)
  | AddEmitter e => ret (addEmitter e s)
  | BindObject pos => ret (bindObject pos s)
  | MoveTo pos => ret (with_worldPosition pos s)
  end.

Fixpoint run (ops : list Op) (s : ParticlesSystem) : M ParticlesSystem :=
  match ops with
  | [] => ret s
  | op :: ops' => let! s' := step op s in run ops' s'
  end.

End System.

(** ** sort.js *)

(** The two element swaps of the depth sort, on a Float32Array.  Reading
    outside the array gives [undefined], which such an array stores as NaN;
    there the model gives no result. *)
Module Sort.

Definition swapVectorArray (array : list Q) (leftIndex rightIndex : nat)
  : option (list Q) :=
  let vecIndexLeft := (leftIndex * 3)%nat in
  let vecIndexRight := (rightIndex * 3)%nat in
  match array !! vecIndexLeft, array !! (vecIndexLeft + 1)%nat,
        array !! (vecIndexLeft + 2)%nat with
  | Some tmp1, Some tmp2, Some tmp3 =>
      match array !! vecIndexRight with
      | Some r0 =>
          let array := <[vecIndexLeft := r0]> array in
          match array !! (vecIndexRight + 1)%nat with
          | Some r1 =>
              let array := <[(vecIndexLeft + 1)%nat := r1]> array in
              match array !! (vecIndexRight + 2)%nat with
              | Some r2 =>
                  let array := <[(vecIndexLeft + 2)%nat := r2]> array in
                  let array := <[vecIndexRight := tmp1]> array in
                  let array := <[(vecIndexRight + 2)%nat := tmp2]> array in
                  let array := <[(vecIndexRight + 3)%nat := tmp3]> array in
                  Some array
              | None => None
              end
          | None => None
          end
      | None => None
      end
  | _, _, _ => None
  end.

Definition swapArray (array : list Q) (leftIndex rightIndex : nat)
  : option (list Q) :=
  match array !! leftIndex with
  | Some tmp =>
      match array !! rightIndex with
      | Some r => Some (<[rightIndex := tmp]> (<[leftIndex := r]> array))
      | None => None
      end
  | None => None
  end.

End Sort.

(** ** Vocabulary of the properties *)

Module Spec.

(** The constant, or the start/end pair, that [reset] resolves for a numeric
    attribute is present. *)
Definition tripleDefined (enabled : bool) (const start end_ : JsOpt Q) : bool :=
  if enabled then
    if not_undefined const then defined const
    else defined start && defined end_
  else true.

(** The options on which [reset] does not raise. *)
Definition resettable (o : ParticleOptions) : bool :=
  tripleDefined (o_fade o) (o_alpha o) (o_startAlpha o) (o_endAlpha o)
  && tripleDefined (o_scaling o) (o_size o) (o_startSize o) (o_endSize o).

(** A particle writes only attributes the options enable, and an animated
    colour has its end colour. *)
Definition admissible (o : ParticleOptions) (p : Particle) : bool :=
  implb (ParticleM.not_null (alpha p) || ParticleM.not_null (startAlpha p)) (o_fade o)
  && implb (ParticleM.not_null (color p) || ParticleM.not_null (startColor p)) (o_colorize o)
  && implb (ParticleM.not_null (size p) || ParticleM.not_null (startSize p)) (o_scaling o)
  && implb (ParticleM.not_null (rotation p) || truthy (rotationSpeed p)) (o_rotating o)
  && implb (ParticleM.not_null (startColor p)) (ParticleM.not_null (endColor p)).

(** A hook keeps particles admissible. *)
Definition hookAdmissible (o : ParticleOptions)
    (hook : option (Particle -> Particle)) : Prop :=
  forall f, hook = Some f ->
  forall p, admissible o p = true -> admissible o (f p) = true.


(** The gravity of a particle as a vector; a missing axis is 0. *)
Definition gravity (p : Particle) : Vector3 :=
  vec3 (to_number (gravityX p)) (to_number (gravityY p)) (to_number (gravityZ p)).

(** [v * s]. *)
Definition scale (v : Vector3) (s : Q) : Vector3 :=
  vec3 (vx v * s) (vy v * s) (vz v * s).


(** The positions handed to [setPosition] among the writes of an update. *)
Definition pushedPositions (cs : list Call) : list Vector3 :=
  omap (fun c => match c with SetPosition _ v => Some v | _ => None end) cs.

(** The values handed to [setAlpha], and to [setSize]. *)
Definition pushedAlphas (cs : list Call) : list (option Q) :=
  omap (fun c => match c with SetAlpha _ v => Some v | _ => None end) cs.

Definition pushedSizes (cs : list Call) : list (option Q) :=
  omap (fun c => match c with SetSize _ v => Some v | _ => None end) cs.

(** The options give an attribute both as a constant and as a start value. *)
Definition constantAndStart (o : ParticleOptions) : bool :=
  (defined (o_alpha o) && defined (o_startAlpha o))
  || (defined (o_color o) && defined (o_startColor o))
  || (defined (o_size o) && defined (o_startSize o)).

(** The options give a start value without its end value. *)
Definition startWithoutEnd (o : ParticleOptions) : bool :=
  (defined (o_startAlpha o) && negb (defined (o_endAlpha o)))
  || (defined (o_startColor o) && negb (defined (o_endColor o)))
  || (defined (o_startSize o) && negb (defined (o_endSize o))).

(** The constant size is a plain number, or the constant colour a
    THREE.Color: the values the constructor moves to the global settings. *)
Definition plainConstant (o : ParticleOptions) : bool :=
  match o_size o, o_color o with
  | Const _, _ | _, Const _ => true
  | _, _ => false
  end.

(** The same emitter with no decay configured. *)
Definition withoutDecay (e : Emitter) : Emitter :=
  mkEmitter
    (mkEmitterOptions (onSpawnBurst (e_options e)) (onInterval (e_options e))
       (interval (e_options e)) None)
    (e_age e) (timeToSpawn e).

(** An emitter as its constructor leaves it: the interval is present. *)
Definition emitterOk (e : Emitter) : bool := defined (interval (e_options e)).

(** The attribute arrays the options enable are there. *)
Definition geometryOk (o : ParticleOptions) (g : Geometry) : bool :=
  implb (o_fade o) (ParticleM.not_null (alpha_array g))
  && implb (o_colorize o) (ParticleM.not_null (color_array g))
  && implb (o_scaling o) (ParticleM.not_null (size_array g))
  && implb (o_rotating o) (ParticleM.not_null (rotation_array g)).

(** A write goes to an attribute array the options enable. *)
Definition callOk (o : ParticleOptions) (c : Call) : bool :=
  match c with
  | SetAlpha _ _ => o_fade o
  | SetColor _ _ => o_colorize o
  | SetSize _ _ => o_scaling o
  | SetRotation _ _ => o_rotating o
  | SetPosition _ _ => true
  end.

(** An [AddEmitter] operation brings an emitter built by its constructor. *)
Definition opOk (op : System.Op) : bool :=
  match op with
  | System.AddEmitter e => emitterOk e
  | _ => true
  end.

(** What holds of a system between two operations: [reset] does not raise
    on its options, the attribute arrays of the enabled attributes exist,
    the alive particles write only to those, the emitters have an interval,
    and the two pools hold the configured number of particles. *)
Definition invariant (s : ParticlesSystem) : Prop :=
  resettable (p_options s) = true
  /\ geometryOk (p_options s) (geometry s) = true
  /\ Forall (fun p => admissible (p_options s) p = true) (_aliveParticles s)
  /\ Forall (fun e => emitterOk e = true) (_emitters s)
  /\ System.maxParticlesCount s = System.particleCount (s_options s).

(** The attribute modes of a particle. *)
Definition modes (p : Particle) :=
  (alpha p, startAlpha p, color p, startColor p, endColor p, size p,
   startSize p, rotationSpeed p).

(** The value is a randomizer object. *)
Definition randomized {A} (v : JsOpt A) : bool :=
  match v with Rand _ => true | _ => false end.

(** The options give alpha both as a constant and as a start value, or give
    a randomizer as the constant size or colour together with a start
    value. *)
Definition randomizedConstantAndStart (o : ParticleOptions) : bool :=
  (defined (o_alpha o) && defined (o_startAlpha o))
  || (randomized (o_color o) && defined (o_startColor o))
  || (randomized (o_size o) && defined (o_startSize o)).

(** The three modes of an animated attribute: unset, constant, or animated
    from a start to an end value. *)
Definition oneMode {A} (const start end_ : option A) : Prop :=
  (const = None /\ start = None /\ end_ = None)
  \/ (const <> None /\ start = None /\ end_ = None)
  \/ (const = None /\ start <> None /\ end_ <> None).

(** The operation is a call of [update]. *)
Definition isUpdate (op : System.Op) : bool :=
  match op with System.Update _ => true | _ => false end.

(** The size of the position array and, for each optional attribute that
    is present, the size of its array. *)
Definition arraySizes (g : Geometry)
  : nat * option nat * option nat * option nat * option nat :=
  (length (position_array g), length <$> color_array g,
   length <$> alpha_array g, length <$> size_array g,
   length <$> rotation_array g).

(** Every value of [Math.random()] lies in [0, 1). *)
Definition unitDraws (rng : Rng) : Prop := forall n, 0 <= rng n /\ rng n < 1.

(** The rotations handed to [setRotation] among the writes of an update. *)
Definition pushedRotations (cs : list Call) : list Q :=
  omap (fun c => match c with SetRotation _ v => Some v | _ => None end) cs.


End Spec.

(** ** Concrete configurations *)

Module Examples.

(** [Math.random()] returning 0.5 at every call. *)
Definition draws : Rng := fun _ => 1 # 2.

(** The particle options [{ ttl: t }]. *)
Definition withTtl (t : Q) : ParticleOptions :=
  mkParticleOptions (Some t) None Undefined Undefined Undefined None
    Undefined Undefined Undefined None Undefined Undefined Undefined None
    Undefined None None None None Undefined Undefined Undefined None
    Undefined false None None None None false false false false.

(** The particle [reset] builds from [{ ttl: 2 }]. *)
Definition ttl2Particle : Particle :=
  mkParticle 0 false None None None (Some Vec.zero) None Vec.zero 2
    None None None (0 / 2) false None None None (0 / 2)
    None None None (0 / 2) None None None.


(** A particle at rest at (1, 2, 3), as [reset] leaves it. *)
Definition resting : Particle :=
  mkParticle 0 false None None None (Some Vec.zero) None (vec3 1 2 3) 10
    None None None 0 false None None None 0 None None None 0 None None None.

(** A particle moving along x under a gravity of -10 along y and an
    acceleration of 1 along z. *)
Definition moving : Particle :=
  mkParticle 0 false None (Some (-10)) None (Some (vec3 1 0 0))
    (Some (vec3 0 0 1)) Vec.zero 10
    None None None 0 false None None None 0 None None None 0 None None None.

(** The result of an update that does not raise. *)
Definition updated (options : ParticleOptions) (worldPos : Vector3)
    (deltaTime : Q) (p : Particle) : Particle * list Call :=
  match ParticleM.update options worldPos 0 deltaTime p with
  | Ok x => x
  | Throw _ => (p, [])
  end.

(** The particle options [{ alpha: a }] and [{ size: randomizer }], as the
    constructor of the system normalizes them. *)
Definition constantAlpha (a : Q) : ParticleOptions :=
  System.normalize
    (mkParticleOptions None None (Const a) Undefined Undefined None
       Undefined Undefined Undefined None Undefined Undefined Undefined None
       Undefined None None None None Undefined Undefined Undefined None
       Undefined false None None None None false false false false).

Definition randomSize (g : Generator Q) : ParticleOptions :=
  System.normalize
    (mkParticleOptions None None Undefined Undefined Undefined None
       (Rand g) Undefined Undefined None Undefined Undefined Undefined None
       Undefined None None None None Undefined Undefined Undefined None
       Undefined false None None None None false false false false).

(** The particle options [{ size: 5, startSize: 1, endSize: 2 }]. *)
Definition sizeAndStartSize : ParticleOptions :=
  mkParticleOptions None None Undefined Undefined Undefined None
    (Const 5) (Const 1) (Const 2) None Undefined Undefined Undefined None
    Undefined None None None None Undefined Undefined Undefined None
    Undefined false None None None None false false false false.

(** The particle options [{ color: new THREE.Color(1, 0, 0), startColor,
    endColor }]. *)
Definition colorAndStartColor : ParticleOptions :=
  mkParticleOptions None None Undefined Undefined Undefined None
    Undefined Undefined Undefined None
    (Const (rgb 1 0 0)) (Const (rgb 0 0 0)) (Const (rgb 1 1 1)) None
    Undefined None None None None Undefined Undefined Undefined None
    Undefined false None None None None false false false false.

(** The particle options [{ alpha: 1, startAlpha: 0, endAlpha: 1 }]. *)
Definition alphaAndStartAlpha : ParticleOptions :=
  mkParticleOptions None None (Const 1) (Const 0) (Const 1) None
    Undefined Undefined Undefined None Undefined Undefined Undefined None
    Undefined None None None None Undefined Undefined Undefined None
    Undefined false None None None None false false false false.

(** The particle, and the writes of its first update, that [reset] and
    [update] produce on [options]. *)
Definition firstUpdate (options : ParticleOptions) : option (Particle * list Call) :=
  match ParticleM.reset options draws with
  | Ok (p, _) => Some (p, (updated options Vec.zero (1 # 2) p).2)
  | Throw _ => None
  end.

(** An emitter [{ onSpawnBurst: 10, detoretingMinTtl: 4 }], not yet
    updated. *)
Definition burstOnly : Emitter :=
  mkEmitter (mkEmitterOptions (Const 10) Undefined (Const 1) (Some 4)) 0 (1 # 2).

(** An emitter [{ onInterval: 10, interval: 1, detoretingMinTtl: 4 }] whose
    countdown has run out. *)
Definition intervalOnly : Emitter :=
  mkEmitter (mkEmitterOptions Undefined (Const 10) (Const 1) (Some 4)) 1 0.

(** The count an emitter returns, when it does not raise. *)
Definition spawnCount (deltaTime : Q) (system_ttl : option Q) (e : Emitter)
  : option Q :=
  match EmitterM.update deltaTime system_ttl e draws with
  | Ok (r, _) => Some (Qred r.1)
  | Throw _ => None
  end.

(** A particle of age 0.25 whose alpha is animated from 0 to 1 with no
    threshold, and one whose alpha is the constant 0.7. *)
Definition fading : Particle :=
  mkParticle (1 # 4) false None None None (Some Vec.zero) None
    Vec.zero 2 None (Some 0) (Some 1) 0 false None None None 0
    None None None 0 None None None.

Definition opaque : Particle :=
  mkParticle (1 # 4) false None None None (Some Vec.zero) None
    Vec.zero 2 (Some (7 # 10)) None None 0 false None None None 0
    None None None 0 None None None.

(** A particle of age 0.25 turning at 2 radians per second from the angle
    1. *)
Definition spinning : Particle :=
  mkParticle (1 # 4) false None None None (Some Vec.zero) None
    Vec.zero 2 None None None 0 false None None None 0
    None None None 0 (Some 1) (Some 2) None.

(** A system with no particle, standing for a construction that raised. *)
Definition noSystem : ParticlesSystem :=
  mkSystem System.defaultParticleOptions System.defaultSystemOptions None 0
    None 1 0 false [] [] []
    (System.newGeometry System.defaultParticleOptions 0)
    (mkDirty false false false false false) Vec.zero None None.

(** The system [new ParticlesSystem(options)] builds. *)
Definition systemOf (options : Options) : ParticlesSystem :=
  match System.new options draws with
  | Ok (s, _) => s
  | Throw _ => noSystem
  end.

(** The system a sequence of operations leaves. *)
Definition after (ops : list System.Op) (s : ParticlesSystem) : ParticlesSystem :=
  match System.run ops s draws with
  | Ok (s', _) => s'
  | Throw _ => noSystem
  end.

(** The trace of a run that does not raise. *)
Definition trace (options : ParticleOptions) (frames : list (Vector3 * Q))
    (p : Particle) : list (Particle * list Call) :=
  match ParticleM.run options 0 frames p with
  | Ok t => t
  | Throw _ => []
  end.

(** The finished flag and the age after each update of a freshly reset
    particle. *)
Definition life (options : ParticleOptions) (frames : list (Vector3 * Q))
  : list (bool * Q) :=
  match ParticleM.reset options draws with
  | Ok (p, _) =>
      match ParticleM.run options 0 frames p with
      | Ok trace => map (fun x => (finished x.1, Qred (age x.1))) trace
      | Throw _ => []
      end
  | Throw _ => []
  end.

End Examples.

(** * Properties *)

(** ** Comparisons and truthiness of numbers *)

Lemma ltb_true x y : ltb x y = true <-> x < y.
Proof.
  unfold ltb. rewrite negb_true_iff. split.
  - intros H. apply Qnot_le_lt. intros Hle. apply Qle_bool_iff in Hle. congruence.
  - intros H. destruct (Qle_bool y x) eqn:E; [|done].
    apply Qle_bool_iff in E. lra.
Qed.

Lemma ltb_false x y : ltb x y = false <-> y <= x.
Proof.
  unfold ltb. rewrite negb_false_iff. apply Qle_bool_iff.
Qed.

Lemma truthy_num_true (q : Q) : truthy q = true <-> ~ q == 0.
Proof.
  unfold truthy, truthy_num. rewrite negb_true_iff. split.
  - intros H E. apply Qeq_bool_iff in E. congruence.
  - intros H. destruct (Qeq_bool q 0) eqn:E; [|done]. apply Qeq_bool_iff in E. done.
Qed.

Lemma truthy_num_false (q : Q) : truthy q = false <-> q == 0.
Proof.
  unfold truthy, truthy_num. rewrite negb_false_iff. apply Qeq_bool_iff.
Qed.

Lemma Qeq_bool_false x y : Qeq_bool x y = false <-> ~ x == y.
Proof.
  split.
  - intros H E. apply Qeq_bool_iff in E. congruence.
  - intros H. destruct (Qeq_bool x y) eqn:E; [|done]. apply Qeq_bool_iff in E. done.
Qed.

Lemma Qle_bool_false x y : Qle_bool x y = false <-> y < x.
Proof.
  split.
  - intros H. apply Qnot_le_lt. intros E. apply Qle_bool_iff in E. congruence.
  - intros H. destruct (Qle_bool x y) eqn:E; [|done]. apply Qle_bool_iff in E. lra.
Qed.

(** ** The monad *)

Lemma bind_ok {A B} (m : M A) (k : A -> M B) r x :
  bind m k r = Ok x -> exists a r', m r = Ok (a, r') /\ k a r' = Ok x.
Proof.
  unfold bind. destruct (m r) as [[a r']|]; [|done]. eauto.
Qed.

Lemma bind_ok_intro {A B} (m : M A) (k : A -> M B) r a r' :
  m r = Ok (a, r') -> bind m k r = k a r'.
Proof. unfold bind. by intros ->. Qed.

Lemma ret_ok {A} (a b : A) (r r' : Rng) : ret a r = Ok (b, r') -> a = b /\ r = r'.
Proof. unfold ret. by intros [= -> ->]. Qed.

(** ** One update of a particle *)

Lemma update_finished options w index dt p :
  finished p = true -> ParticleM.update options w index dt p = Ok (p, []).
Proof. intros H. unfold ParticleM.update. by rewrite H. Qed.

(** The particle an update leaves, stage by stage. *)
Lemma update_inv options w index dt p p' cs :
  finished p = false ->
  ParticleM.update options w index dt p = Ok (p', cs) ->
  p' = ParticleM.finish (ParticleM.callOnUpdate options
         (ParticleM.advanceAge dt (ParticleM.accelerate dt
            (ParticleM.integrate dt
               (ParticleM.rotate index dt (ParticleM.anchor options w p)).1)))).
Proof.
  intros Hf. unfold ParticleM.update. rewrite Hf.
  destruct (if Qeq_bool (age p) 0 then _ else _); [|done].
  destruct (ParticleM.rotate _ _ _) as [p2 c2]. simpl.
  by intros [= <- _].
Qed.

(** The last write of an update is the position. *)
Lemma update_calls options w index dt p p' cs :
  finished p = false ->
  ParticleM.update options w index dt p = Ok (p', cs) ->
  exists cs0,
    cs = cs0 ++ [SetPosition index
                   (ParticleM.positionToSet w
                      (ParticleM.integrate dt
                         (ParticleM.rotate index dt (ParticleM.anchor options w p)).1))]
    /\ Spec.pushedPositions cs0 = [].
Proof.
  intros Hf. unfold ParticleM.update. rewrite Hf.
  destruct (if Qeq_bool (age p) 0 then _ else _) as [c1|] eqn:E1; [|done].
  destruct (ParticleM.rotate _ _ _) as [p2 c2] eqn:E2. simpl.
  intros [= _ <-]. exists (c1 ++ c2). split; [by rewrite app_assoc|].
  unfold Spec.pushedPositions. rewrite omap_app.
  assert (Hc2 : omap (fun c => match c with SetPosition _ v => Some v | _ => None end) c2 = []).
  { revert E2. unfold ParticleM.rotate. repeat case_match; by intros [= <- <-]. }
  rewrite Hc2, app_nil_r.
  destruct (Qeq_bool (age p) 0).
  - injection E1 as <-. unfold ParticleM.firstUpdateCalls.
    rewrite !omap_app. repeat case_match; done.
  - revert E1. unfold ParticleM.animatedCalls.
    repeat case_match; intros; simplify_eq; rewrite ?omap_app; done.
Qed.

Ltac stages :=
  unfold ParticleM.finish, ParticleM.callOnUpdate, ParticleM.advanceAge,
    ParticleM.accelerate, ParticleM.integrate, ParticleM.rotate,
    ParticleM.anchor;
  repeat case_match; simpl in *; try done.

(** An update raises only on an animated colour without end colour. *)
Lemma update_ok options w index dt p :
  implb (ParticleM.not_null (startColor p)) (ParticleM.not_null (endColor p)) = true ->
  exists p' cs, ParticleM.update options w index dt p = Ok (p', cs).
Proof.
  intros Hc. unfold ParticleM.update.
  destruct (finished p); [eauto|].
  assert (Ha : exists c1, ParticleM.animatedCalls index (ParticleM.anchor options w p) = Ok c1).
  { unfold ParticleM.animatedCalls.
    replace (startColor (ParticleM.anchor options w p)) with (startColor p) by stages.
    replace (endColor (ParticleM.anchor options w p)) with (endColor p) by stages.
    destruct (startColor p), (endColor p); simpl in *; try done;
      repeat case_match; eauto. }
  destruct Ha as [c1 Ha]. rewrite Ha.
  destruct (Qeq_bool (age p) 0); destruct (ParticleM.rotate _ _ _); eauto.
Qed.

(** ** Reset *)

Lemma randomizerOrValue_ok val r :
  defined val = true -> exists v r', Utils.randomizerOrValue val r = Ok (v, r').
Proof.
  destruct val; simpl; try done; intros _.
  - unfold ret. eauto.
  - unfold bind, generate, ret. destruct (g r). eauto.
Qed.

Lemma randomizerOrValue_throw val r :
  defined val = false -> exists msg, Utils.randomizerOrValue val r = Throw msg.
Proof. destruct val; simpl; try done; intros _; unfold throw; eauto. Qed.

Lemma resetTriple_inv enabled c s e r t r' :
  ParticleM.resetTriple enabled c s e r = Ok (t, r') ->
  Spec.tripleDefined enabled c s e = true
  /\ ((enabled = false /\ t = (None, None, None))
      \/ (enabled = true /\ exists a, t = (Some a, None, None))
      \/ (enabled = true /\ exists a b, t = (None, Some a, Some b))).
Proof.
  unfold ParticleM.resetTriple, Spec.tripleDefined.
  destruct enabled.
  - destruct (not_undefined c) eqn:Hc.
    + intros H. apply bind_ok in H as (a & r1 & Ha & H). apply ret_ok in H as [<- <-].
      split; [|eauto 6].
      destruct (defined c) eqn:Hd; [done|].
      destruct (randomizerOrValue_throw c r Hd). congruence.
    + intros H. apply bind_ok in H as (a & r1 & Ha & H).
      apply bind_ok in H as (b & r2 & Hb & H). apply ret_ok in H as [<- <-].
      split; [|eauto 8].
      destruct (defined s) eqn:Hs.
      * destruct (defined e) eqn:He; [done|].
        destruct (randomizerOrValue_throw e r1 He). congruence.
      * destruct (randomizerOrValue_throw s r Hs). congruence.
  - intros H. apply ret_ok in H as [<- <-]. eauto.
Qed.

Lemma resetTriple_ok enabled c s e r :
  Spec.tripleDefined enabled c s e = true ->
  exists t r', ParticleM.resetTriple enabled c s e r = Ok (t, r').
Proof.
  unfold ParticleM.resetTriple, Spec.tripleDefined.
  destruct enabled; [|unfold ret; eauto].
  destruct (not_undefined c).
  - intros Hc. destruct (randomizerOrValue_ok c r Hc) as (v & r' & Hv).
    rewrite (bind_ok_intro _ _ _ _ _ Hv). unfold ret. eauto.
  - intros [Hs He]%andb_true_iff.
    destruct (randomizerOrValue_ok s r Hs) as (v & r1 & Hv).
    rewrite (bind_ok_intro _ _ _ _ _ Hv).
    destruct (randomizerOrValue_ok e r1 He) as (v' & r2 & Hv').
    rewrite (bind_ok_intro _ _ _ _ _ Hv'). unfold ret. eauto.
Qed.

Lemma resetTriple_throw enabled c s e r :
  Spec.tripleDefined enabled c s e = false ->
  exists msg, ParticleM.resetTriple enabled c s e r = Throw msg.
Proof.
  intros Hd. destruct (ParticleM.resetTriple enabled c s e r) as [[t r']|msg] eqn:E; [|eauto].
  apply resetTriple_inv in E as [E _]. congruence.
Qed.

Lemma reset_inv options r p r' :
  ParticleM.reset options r = Ok (p, r') ->
  Spec.resettable options = true
  /\ exists p0,
      p = match o_onSpawn options with Some f => f p0 | None => p0 end
      /\ age p0 = 0 /\ finished p0 = false /\ startWorldPosition p0 = None
      /\ (exists v, velocity p0 = Some v)
      /\ Spec.admissible options p0 = true.
Proof.
  unfold ParticleM.reset. intros H.
  apply bind_ok in H as (v & r1 & Hv & H).
  apply bind_ok in H as (a & r2 & Ha & H).
  apply bind_ok in H as (pos & r3 & Hpos & H).
  apply bind_ok in H as (t & r4 & Ht & H).
  apply bind_ok in H as (alphas & r5 & Halphas & H).
  apply bind_ok in H as (colors & r6 & Hcolors & H).
  apply bind_ok in H as (sizes & r7 & Hsizes & H).
  apply bind_ok in H as (rot & r8 & Hrot & H).
  apply ret_ok in H as [<- <-].
  apply resetTriple_inv in Halphas as [Hda Halphas].
  apply resetTriple_inv in Hsizes as [Hds Hsizes].
  split; [unfold Spec.resettable; by rewrite Hda, Hds|].
  eexists. split; [reflexivity|]. simpl.
  split; [done|]. split; [done|]. split; [done|].
  split.
  { revert Hv. unfold ParticleM.getConstOrRandomVector.
    destruct (o_velocity options); unfold ret, bind, generate; simpl;
      try (destruct (g r)); intros [= <- <-]; destruct (o_velocityBonus options); simpl; eauto. }
  unfold Spec.admissible. simpl.
  assert (Hc : implb (ParticleM.not_null colors.1.1 || ParticleM.not_null colors.1.2)
                 (o_colorize options)
               && implb (ParticleM.not_null colors.1.2) (ParticleM.not_null colors.2) = true).
  { revert Hcolors. destruct (o_colorize options).
    - destruct (truthy (o_color options)).
      + intros H. apply bind_ok in H as (c & rc & _ & H). by apply ret_ok in H as [<- _].
      + intros H. apply bind_ok in H as (c & rc & _ & H).
        apply bind_ok in H as (c' & rc' & _ & H). by apply ret_ok in H as [<- _].
    - intros H. by apply ret_ok in H as [<- _]. }
  apply andb_true_iff in Hc as [Hc1 Hc2].
  assert (Hr : implb (ParticleM.not_null rot.1 || truthy rot.2) (o_rotating options) = true).
  { revert Hrot. destruct (o_rotating options).
    - intros _. apply Bool.implb_true_r.
    - intros H. by apply ret_ok in H as [<- _]. }
  rewrite Hc1, Hc2, Hr.
  destruct Halphas as [[-> ->]|[[-> [x ->]]|[-> (x & y & ->)]]];
  destruct Hsizes as [[-> ->]|[[-> [x' ->]]|[-> (x' & y' & ->)]]]; done.
Qed.

Lemma bind_total {A B} (m : M A) (k : A -> M B) :
  (forall r, exists a r', m r = Ok (a, r')) ->
  (forall a r, exists b r', k a r = Ok (b, r')) ->
  forall r, exists b r', bind m k r = Ok (b, r').
Proof.
  intros Hm Hk r. destruct (Hm r) as (a & r1 & Ha).
  rewrite (bind_ok_intro _ _ _ _ _ Ha). apply Hk.
Qed.

Lemma ret_total {A} (a : A) r : exists b r', ret a r = Ok (b, r').
Proof. unfold ret. eauto. Qed.

Lemma generate_total {A} (g : Generator A) r :
  exists b r', generate g r = Ok (b, r').
Proof. unfold generate. destruct (g r). eauto. Qed.

Lemma getConstOrRandomVector_total o b r :
  exists v r', ParticleM.getConstOrRandomVector o b r = Ok (v, r').
Proof.
  destruct o; simpl; try apply ret_total.
  apply bind_total; [apply generate_total|intros; apply ret_total].
Qed.

Lemma getConstOrRandomColor_total o r :
  exists v r', ParticleM.getConstOrRandomColor o r = Ok (v, r').
Proof. destruct o; simpl; try apply ret_total. apply generate_total. Qed.

Lemma getRandomWithSpread_total b e r :
  exists v r', Utils.getRandomWithSpread b e r = Ok (v, r').
Proof.
  unfold Utils.getRandomWithSpread, Utils.getRandomBetween.
  repeat case_match; apply ret_total.
Qed.

(** On resettable options [reset] returns, whatever the random draws. *)
Lemma reset_ok options r :
  Spec.resettable options = true ->
  exists p r', ParticleM.reset options r = Ok (p, r').
Proof.
  intros [Ha Hs]%andb_true_iff. revert r. unfold ParticleM.reset.
  apply bind_total; [apply getConstOrRandomVector_total|intros v].
  apply bind_total; [apply getConstOrRandomVector_total|intros a].
  apply bind_total; [apply getConstOrRandomVector_total|intros pos].
  apply bind_total; [apply getRandomWithSpread_total|intros t].
  apply bind_total; [intros r; by apply resetTriple_ok|intros alphas].
  apply bind_total.
  { destruct (o_colorize options); [|apply ret_total].
    destruct (truthy (o_color options)).
    - apply bind_total; [apply getConstOrRandomColor_total|intros; apply ret_total].
    - apply bind_total; [apply getConstOrRandomColor_total|intros c].
      apply bind_total; [apply getConstOrRandomColor_total|intros; apply ret_total]. }
  intros colors.
  apply bind_total; [intros r; by apply resetTriple_ok|intros sizes].
  apply bind_total.
  { destruct (o_rotating options); [|apply ret_total].
    assert (Hd : forall x : JsOpt Q, defined (or x (Const 0)) = true).
    { intros x. unfold or. destruct x; try done. by case_match. }
    apply bind_total; [intros r; apply randomizerOrValue_ok, Hd|intros x].
    apply bind_total; [intros r; apply randomizerOrValue_ok, Hd|intros; apply ret_total]. }
  intros rot. apply ret_total.
Qed.

(** Whether [reset] raises depends on the options alone. *)
Lemma reset_resettable options r p r' :
  ParticleM.reset options r = Ok (p, r') -> Spec.resettable options = true.
Proof. intros H. by apply reset_inv in H as [H _]. Qed.

(** ** Age *)

(** The final test of [update]. *)
Lemma finish_spec q :
  (age q <= 1 /\ ParticleM.finish q = q)
  \/ (1 < age q /\ age (ParticleM.finish q) = 1
      /\ finished (ParticleM.finish q) = true).
Proof.
  unfold ParticleM.finish. destruct (ltb 1 (age q)) eqn:E.
  - apply ltb_true in E. right. done.
  - apply ltb_false in E. left. done.
Qed.


(** Age and time to live just before the hook. *)
Lemma advanced_age options w index dt p :
  age (ParticleM.advanceAge dt (ParticleM.accelerate dt
        (ParticleM.integrate dt
           (ParticleM.rotate index dt (ParticleM.anchor options w p)).1)))
  = age p + dt / ttl p.
Proof. stages. Qed.

Lemma advanced_ttl options w index dt p :
  ttl (ParticleM.advanceAge dt (ParticleM.accelerate dt
        (ParticleM.integrate dt
           (ParticleM.rotate index dt (ParticleM.anchor options w p)).1)))
  = ttl p.
Proof. stages. Qed.

Lemma advanced_finished options w index dt p :
  finished (ParticleM.advanceAge dt (ParticleM.accelerate dt
        (ParticleM.integrate dt
           (ParticleM.rotate index dt (ParticleM.anchor options w p)).1)))
  = finished p.
Proof. stages. Qed.

Lemma advanced_colors options w index dt p :
  let q := ParticleM.advanceAge dt (ParticleM.accelerate dt
        (ParticleM.integrate dt
           (ParticleM.rotate index dt (ParticleM.anchor options w p)).1)) in
  startColor q = startColor p /\ endColor q = endColor p.
Proof. stages. Qed.




(** Without a hook, an update that stays within the life keeps the
    particle alive and adds [dt / ttl] to its age. *)
Lemma update_alive options w index dt p :
  o_onUpdate options = None -> finished p = false ->
  implb (ParticleM.not_null (startColor p)) (ParticleM.not_null (endColor p)) = true ->
  age p + dt / ttl p <= 1 ->
  exists p' cs, ParticleM.update options w index dt p = Ok (p', cs)
    /\ age p' = age p + dt / ttl p /\ finished p' = false /\ ttl p' = ttl p
    /\ startColor p' = startColor p /\ endColor p' = endColor p.
Proof.
  intros Hh Hf Hc Hle.
  destruct (update_ok options w index dt p Hc) as (p' & cs & Hu).
  exists p', cs. split; [done|].
  apply update_inv in Hu; [|done]. subst p'.
  unfold ParticleM.callOnUpdate. rewrite Hh.
  set (q := ParticleM.advanceAge _ _).
  pose proof (advanced_age options w index dt p) as Ha.
  pose proof (advanced_ttl options w index dt p) as Ht.
  pose proof (advanced_finished options w index dt p) as Hfi.
  pose proof (advanced_colors options w index dt p) as [Hc1 Hc2].
  fold q in Ha, Ht, Hfi, Hc1, Hc2.
  destruct (finish_spec q) as [[_ ->]|[Hlt _]].
  - by rewrite Ha, Ht, Hfi, Hc1, Hc2.
  - rewrite Ha in Hlt. lra.
Qed.

(** Without a hook, an update that takes the age above 1 clamps it to 1 and
    finishes the particle. *)
Lemma update_dies options w index dt p :
  o_onUpdate options = None -> finished p = false ->
  implb (ParticleM.not_null (startColor p)) (ParticleM.not_null (endColor p)) = true ->
  1 < age p + dt / ttl p ->
  exists p' cs, ParticleM.update options w index dt p = Ok (p', cs)
    /\ age p' = 1 /\ finished p' = true.
Proof.
  intros Hh Hf Hc Hlt.
  destruct (update_ok options w index dt p Hc) as (p' & cs & Hu).
  exists p', cs. split; [done|].
  apply update_inv in Hu; [|done]. subst p'.
  unfold ParticleM.callOnUpdate. rewrite Hh.
  set (q := ParticleM.advanceAge _ _).
  pose proof (advanced_age options w index dt p) as Ha. fold q in Ha.
  destruct (finish_spec q) as [[Hle _]|(_ & H1 & H2)]; [|done].
  rewrite Ha in Hle. lra.
Qed.

Lemma admissible_colors options p :
  Spec.admissible options p = true ->
  implb (ParticleM.not_null (startColor p)) (ParticleM.not_null (endColor p)) = true.
Proof. unfold Spec.admissible. rewrite !andb_true_iff. tauto. Qed.

(** C2, amended. A particle reset with a time to live of 2 and updated with
    a delta time of 0.5, with no hook, is still unfinished after its fourth
    update, when its age is exactly 1; the fifth update finishes it and
    leaves the age at 1. *)
Theorem ttl2_finishes_on_fifth_update options rng p rng' index w1 w2 w3 w4 w5 :
  o_onSpawn options = None -> o_onUpdate options = None ->
  ParticleM.reset options rng = Ok (p, rng') ->
  ttl p == 2 ->
  exists t1 t2 t3 t4 t5,
    ParticleM.run options index
      [(w1, 1 # 2); (w2, 1 # 2); (w3, 1 # 2); (w4, 1 # 2); (w5, 1 # 2)] p
    = Ok [t1; t2; t3; t4; t5]
    /\ finished t1.1 = false /\ finished t2.1 = false /\ finished t3.1 = false
    /\ finished t4.1 = false /\ age t4.1 == 1
    /\ finished t5.1 = true /\ age t5.1 == 1.
Proof.
  intros Hs Hu Hr Httl.
  apply reset_inv in Hr as (_ & p0 & -> & Ha & Hf & _ & _ & Hadm).
  rewrite Hs in *. clear Hs. apply admissible_colors in Hadm.
  assert (Hd : forall q, ttl q = ttl p0 -> (1 # 2) / ttl q == 1 # 4).
  { intros q ->. rewrite Httl. reflexivity. }
  destruct (update_alive options w1 index (1 # 2) p0 Hu Hf Hadm)
    as (p1 & c1 & E1 & A1 & F1 & T1 & S1 & N1).
  { rewrite Ha, (Hd p0 eq_refl). lra. }
  rewrite <- S1, <- N1 in Hadm.
  destruct (update_alive options w2 index (1 # 2) p1 Hu F1 Hadm)
    as (p2 & c2 & E2 & A2 & F2 & T2 & S2 & N2).
  { rewrite A1, Ha, (Hd p0 eq_refl), (Hd p1 T1). lra. }
  rewrite <- S2, <- N2 in Hadm.
  destruct (update_alive options w3 index (1 # 2) p2 Hu F2 Hadm)
    as (p3 & c3 & E3 & A3 & F3 & T3 & S3 & N3).
  { rewrite A2, A1, Ha, (Hd p0 eq_refl), (Hd p1 T1), (Hd p2 ltac:(congruence)). lra. }
  rewrite <- S3, <- N3 in Hadm.
  destruct (update_alive options w4 index (1 # 2) p3 Hu F3 Hadm)
    as (p4 & c4 & E4 & A4 & F4 & T4 & S4 & N4).
  { rewrite A3, A2, A1, Ha, (Hd p0 eq_refl), (Hd p1 T1), (Hd p2 ltac:(congruence)),
      (Hd p3 ltac:(congruence)). lra. }
  rewrite <- S4, <- N4 in Hadm.
  assert (A4' : age p4 == 1).
  { rewrite A4, A3, A2, A1, Ha, (Hd p0 eq_refl), (Hd p1 T1), (Hd p2 ltac:(congruence)),
      (Hd p3 ltac:(congruence)). lra. }
  destruct (update_dies options w5 index (1 # 2) p4 Hu F4 Hadm)
    as (p5 & c5 & E5 & A5 & F5).
  { rewrite A4', (Hd p4 ltac:(congruence)). lra. }
  exists (p1, c1), (p2, c2), (p3, c3), (p4, c4), (p5, c5). simpl.
  rewrite E1, E2, E3, E4, E5. rewrite A5. done.
Qed.

(** ** Kinematics *)

Ltac vec :=
  unfold Vec.eqv, Vec.add, Vec.sub, Vec.zero, Spec.scale, Spec.gravity,
    ParticleM.worldPosition in *;
  simpl in *.

Lemma addGravity_spec g dt v :
  ParticleM.addGravity g dt v == v + to_number g * dt.
Proof.
  unfold ParticleM.addGravity, to_number. destruct g as [g|]; simpl.
  - destruct (truthy g) eqn:E; [reflexivity|].
    apply truthy_num_false in E. rewrite E. lra.
  - lra.
Qed.

(** The "update position" block: gravity enters the velocity first, the
    position then moves by the new velocity. *)
Lemma integrate_spec dt p v :
  velocity p = Some v ->
  exists v', velocity (ParticleM.integrate dt p) = Some v'
    /\ v' =v= Vec.add v (Spec.scale (Spec.gravity p) dt)
    /\ position (ParticleM.integrate dt p)
       =v= Vec.add (position p) (Spec.scale v' dt)
    /\ acceleration (ParticleM.integrate dt p) = acceleration p
    /\ startWorldPosition (ParticleM.integrate dt p) = startWorldPosition p.
Proof.
  intros Hv. unfold ParticleM.integrate. rewrite Hv. simpl.
  eexists. split; [reflexivity|]. vec.
  pose proof (addGravity_spec (gravityX p) dt (vx v)).
  pose proof (addGravity_spec (gravityY p) dt (vy v)).
  pose proof (addGravity_spec (gravityZ p) dt (vz v)).
  repeat split; (done || lra).
Qed.

(** The "update velocity" block leaves the position alone. *)
Lemma accelerate_spec dt p v :
  velocity p = Some v ->
  exists v', velocity (ParticleM.accelerate dt p) = Some v'
    /\ v' =v= Vec.add v (Spec.scale (default Vec.zero (acceleration p)) dt)
    /\ position (ParticleM.accelerate dt p) = position p.
Proof.
  intros Hv. unfold ParticleM.accelerate. rewrite Hv.
  destruct (acceleration p) as [a|]; simpl.
  - eexists. split; [reflexivity|]. vec. repeat split; (done || lra).
  - exists v. split; [done|]. vec. repeat split; (done || lra).
Qed.

(** What the first stages keep. *)
Lemma rotate_anchor_kinematics options w index dt p :
  let q := (ParticleM.rotate index dt (ParticleM.anchor options w p)).1 in
  velocity q = velocity p /\ position q = position p
  /\ acceleration q = acceleration p /\ Spec.gravity q = Spec.gravity p
  /\ startWorldPosition q = startWorldPosition (ParticleM.anchor options w p).
Proof. unfold Spec.gravity. stages. Qed.

Lemma advanceAge_kinematics dt p :
  velocity (ParticleM.advanceAge dt p) = velocity p
  /\ position (ParticleM.advanceAge dt p) = position p
  /\ acceleration (ParticleM.advanceAge dt p) = acceleration p
  /\ Spec.gravity (ParticleM.advanceAge dt p) = Spec.gravity p
  /\ startWorldPosition (ParticleM.advanceAge dt p) = startWorldPosition p.
Proof. done. Qed.

Lemma finish_kinematics p :
  velocity (ParticleM.finish p) = velocity p
  /\ position (ParticleM.finish p) = position p
  /\ acceleration (ParticleM.finish p) = acceleration p
  /\ Spec.gravity (ParticleM.finish p) = Spec.gravity p
  /\ startWorldPosition (ParticleM.finish p) = startWorldPosition p.
Proof. unfold Spec.gravity. stages. Qed.

Lemma integrate_gravity dt p :
  Spec.gravity (ParticleM.integrate dt p) = Spec.gravity p.
Proof. unfold Spec.gravity. stages. Qed.

Lemma accelerate_rest dt p :
  Spec.gravity (ParticleM.accelerate dt p) = Spec.gravity p
  /\ acceleration (ParticleM.accelerate dt p) = acceleration p
  /\ startWorldPosition (ParticleM.accelerate dt p) = startWorldPosition p.
Proof. unfold Spec.gravity. stages. Qed.

(** The kinematic state an update without hook leaves, and the position it
    writes. *)
Lemma update_kinematics options w index dt p p' cs v :
  o_onUpdate options = None -> finished p = false ->
  velocity p = Some v ->
  ParticleM.update options w index dt p = Ok (p', cs) ->
  let v1 := Vec.add v (Spec.scale (Spec.gravity p) dt) in
  position p' =v= Vec.add (position p) (Spec.scale v1 dt)
  /\ (exists v', velocity p' = Some v'
        /\ v' =v= Vec.add v1 (Spec.scale (default Vec.zero (acceleration p)) dt))
  /\ acceleration p' = acceleration p
  /\ Spec.gravity p' = Spec.gravity p
  /\ startWorldPosition p' = startWorldPosition (ParticleM.anchor options w p)
  /\ exists pushed, Spec.pushedPositions cs = [pushed]
       /\ match startWorldPosition p' with
          | Some a => Vec.add pushed w =v= Vec.add a (position p')
          | None => pushed =v= position p'
          end.
Proof.
  intros Hh Hf Hv Hu v1.
  pose proof (update_calls _ _ _ _ _ _ _ Hf Hu) as (cs0 & -> & Hcs0).
  apply update_inv in Hu; [|done]. subst p'.
  unfold ParticleM.callOnUpdate. rewrite Hh.
  destruct (rotate_anchor_kinematics options w index dt p) as (Rv & Rp & Ra & Rg & Rw).
  set (q := (ParticleM.rotate index dt (ParticleM.anchor options w p)).1) in *.
  rewrite Hv in Rv.
  destruct (integrate_spec dt q v Rv) as (v' & Iv & Iv' & Ip & Ia & Iw).
  destruct (accelerate_spec dt (ParticleM.integrate dt q) v' Iv) as (v'' & Av & Av' & Ap).
  destruct (accelerate_rest dt (ParticleM.integrate dt q)) as (Ag & Aa & Aw).
  destruct (advanceAge_kinematics dt (ParticleM.accelerate dt (ParticleM.integrate dt q)))
    as (Gv & Gp & Ga & Gg & Gw).
  destruct (finish_kinematics
              (ParticleM.advanceAge dt (ParticleM.accelerate dt (ParticleM.integrate dt q))))
    as (Fv & Fp & Fa & Fg & Fw).
  pose proof (integrate_gravity dt q) as Ig.
  set (final := ParticleM.finish _) in *.
  assert (Pv : velocity final = Some v'') by congruence.
  assert (Pp : position final = position (ParticleM.integrate dt q)) by congruence.
  assert (Pa : acceleration final = acceleration p) by congruence.
  assert (Pg : Spec.gravity final = Spec.gravity p) by congruence.
  assert (Pw : startWorldPosition final
               = startWorldPosition (ParticleM.anchor options w p)) by congruence.
  rewrite Pv, Pp, Pa, Pg, Pw.
  rewrite Rg, Rp in *. rewrite Ia, Ra in Av'.
  split; [|split; [|split; [done|split; [done|split; [done|]]]]].
  - subst v1. vec. destruct Iv' as (?&?&?), Ip as (?&?&?).
    repeat split; nra.
  - exists v''. split; [done|]. subst v1. vec.
    destruct Iv' as (?&?&?), Av' as (?&?&?). repeat split; nra.
  - eexists. split.
    { unfold Spec.pushedPositions in *. rewrite omap_app, Hcs0. reflexivity. }
    unfold ParticleM.positionToSet. rewrite Iw, Rw.
    destruct (startWorldPosition (ParticleM.anchor options w p)); vec;
      repeat split; lra.
Qed.

(** ** World position lock *)





Lemma anchor_later options w q :
  ~ age q == 0 -> ParticleM.anchor options w q = q.
Proof.
  intros H. unfold ParticleM.anchor.
  apply Qeq_bool_false in H. by rewrite H.
Qed.



(** ** The claims on the particle *)

(** C2, as the specification states it, fails on the particle of
    [{ ttl: 2 }] updated with a delta time of 0.5: after the fourth update
    its age is 1 and it is not finished. *)
Lemma ttl2_unfinished_after_four_updates :
  Examples.life (Examples.withTtl 2) (replicate 4 (Vec.zero, 1 # 2))
  = [(false, 1 # 4); (false, 1 # 2); (false, 3 # 4); (false, 1)].
Proof. vm_compute. reflexivity. Qed.

Lemma ttl2_finishes_on_fifth_update_witness :
  o_onSpawn (Examples.withTtl 2) = None
  /\ o_onUpdate (Examples.withTtl 2) = None
  /\ ParticleM.reset (Examples.withTtl 2) Examples.draws
     = Ok (Examples.ttl2Particle, Examples.draws)
  /\ ttl Examples.ttl2Particle == 2
  /\ exists t1 t2 t3 t4 t5,
    ParticleM.run (Examples.withTtl 2) 0
      [(Vec.zero, 1 # 2); (Vec.zero, 1 # 2); (Vec.zero, 1 # 2);
       (Vec.zero, 1 # 2); (Vec.zero, 1 # 2)] Examples.ttl2Particle
    = Ok [t1; t2; t3; t4; t5]
    /\ finished t1.1 = false /\ finished t2.1 = false /\ finished t3.1 = false
    /\ finished t4.1 = false /\ age t4.1 == 1
    /\ finished t5.1 = true /\ age t5.1 == 1.
Proof.
  split; [reflexivity|]. split; [reflexivity|].
  split; [reflexivity|]. split; [reflexivity|].
  apply (ttl2_finishes_on_fifth_update (Examples.withTtl 2) Examples.draws
           Examples.ttl2Particle Examples.draws 0); reflexivity.
Defined.




(** C6. In an update of a particle with a velocity, gravity times the delta
    time enters the velocity before the position moves by the velocity times
    the delta time; the acceleration enters the velocity after that, so the
    position the update leaves and the position it writes do not depend on
    the acceleration. *)
Theorem gravity_position_then_acceleration options w index dt p p' cs v :
  o_onUpdate options = None ->
  finished p = false ->
  velocity p = Some v ->
  ParticleM.update options w index dt p = Ok (p', cs) ->
  let v1 := Vec.add v (Spec.scale (Spec.gravity p) dt) in
  position p' =v= Vec.add (position p) (Spec.scale v1 dt)
  /\ (exists v', velocity p' = Some v'
        /\ v' =v= Vec.add v1 (Spec.scale (default Vec.zero (acceleration p)) dt))
  /\ forall a q' cs',
       ParticleM.update options w index dt (with_acceleration a p) = Ok (q', cs') ->
       position q' =v= position p'
       /\ exists pushed pushed',
            Spec.pushedPositions cs = [pushed]
            /\ Spec.pushedPositions cs' = [pushed']
            /\ pushed' =v= pushed.
Proof.
  intros Hh Hf Hv Hu v1.
  destruct (update_kinematics _ _ _ _ _ _ _ v Hh Hf Hv Hu)
    as (Hp & Hv' & _ & _ & Hw & pushed & Hpushed & Hrel).
  split; [done|]. split; [done|].
  intros a q' cs' Hu'.
  destruct (update_kinematics options w index dt (with_acceleration a p) q' cs' v
              Hh Hf Hv Hu')
    as (Hp' & _ & _ & _ & Hw' & pushed' & Hpushed' & Hrel').
  change (Spec.gravity (with_acceleration a p)) with (Spec.gravity p) in Hp'.
  change (position (with_acceleration a p)) with (position p) in Hp'.
  assert (Hpp : position q' =v= position p').
  { vec. destruct Hp as (?&?&?), Hp' as (?&?&?). repeat split; lra. }
  split; [done|]. exists pushed, pushed'. split; [done|]. split; [done|].
  assert (Hsame : startWorldPosition q' = startWorldPosition p').
  { rewrite Hw, Hw'. unfold ParticleM.anchor.
    change (age (with_acceleration a p)) with (age p).
    destruct (Qeq_bool (age p) 0 && o_worldPosition options); reflexivity. }
  rewrite Hsame in Hrel'.
  destruct (startWorldPosition p'); vec;
    destruct Hpp as (?&?&?), Hrel as (?&?&?), Hrel' as (?&?&?);
    repeat split; lra.
Qed.

Lemma gravity_position_then_acceleration_witness :
  let r := Examples.updated (Examples.withTtl 10) Vec.zero (1 # 2) Examples.moving in
  position r.1 =v= vec3 (1 # 2) (- (5 # 2)) 0
  /\ exists v', velocity r.1 = Some v' /\ v' =v= vec3 1 (-5) (1 # 2).
Proof.
  destruct (gravity_position_then_acceleration (Examples.withTtl 10) Vec.zero 0
              (1 # 2) Examples.moving
              (Examples.updated (Examples.withTtl 10) Vec.zero (1 # 2) Examples.moving).1
              (Examples.updated (Examples.withTtl 10) Vec.zero (1 # 2) Examples.moving).2
              (vec3 1 0 0) eq_refl eq_refl eq_refl eq_refl)
    as (Hp & (v' & Hv & Hv') & _).
  split.
  - vec. destruct Hp as (?&?&?). repeat split; lra.
  - exists v'. split; [exact Hv|]. vec. destruct Hv' as (?&?&?). repeat split; lra.
Defined.



(** ** Emitters *)

(** The burst and interval contributions of an update, before any decay:
    the update neither raises nor, apart from the count, depends on the
    decay setting. *)
Lemma emitter_update_inv dt sys_ttl e rng r e' rng' :
  EmitterM.update dt sys_ttl e rng = Ok ((r, e'), rng') ->
  exists q,
    EmitterM.update dt sys_ttl (Spec.withoutDecay e) rng
    = Ok ((q, mkEmitter (e_options (Spec.withoutDecay e)) (e_age e') (timeToSpawn e')), rng')
    /\ e_options e' = e_options e
    /\ r = if truthy (onInterval (e_options e))
           then EmitterM.detorate (e_options e) sys_ttl q else q.
Proof.
  unfold EmitterM.update. intros H.
  apply bind_ok in H as (ret0 & r1 & H0 & H).
  change (onSpawnBurst (e_options (Spec.withoutDecay e))) with (onSpawnBurst (e_options e)).
  change (onInterval (e_options (Spec.withoutDecay e))) with (onInterval (e_options e)).
  change (interval (e_options (Spec.withoutDecay e))) with (interval (e_options e)).
  change (e_age (Spec.withoutDecay e)) with (e_age e).
  change (timeToSpawn (Spec.withoutDecay e)) with (timeToSpawn e).
  rewrite (bind_ok_intro _ _ _ _ _ H0).
  destruct (truthy (onInterval (e_options e))); simpl in *.
  - apply bind_ok in H as (fired & r2 & H1 & H).
    apply ret_ok in H as [H <-]. injection H as <- <-.
    rewrite (bind_ok_intro _ _ _ _ _ H1). simpl.
    exists fired.2. split; [|done].
    unfold ret, EmitterM.detorate. simpl. done.
  - apply ret_ok in H as [H <-]. injection H as <- <-.
    exists ret0. done.
Qed.

(** C9. An emitter with a burst and no interval policy returns, at its
    first update, the resolved burst quantity as it is: neither the decay
    threshold nor the remaining lifetime of the system enters the count. *)
Theorem burst_without_interval_is_not_decayed dt sys_ttl e rng :
  e_age e == 0 ->
  truthy (onSpawnBurst (e_options e)) = true ->
  truthy (onInterval (e_options e)) = false ->
  exists b r e' rng',
    Utils.randomizerOrValue (onSpawnBurst (e_options e)) rng = Ok (b, rng')
    /\ EmitterM.update dt sys_ttl e rng = Ok ((r, e'), rng')
    /\ r == b.
Proof.
  intros Ha Hb Hi.
  destruct (randomizerOrValue_ok (onSpawnBurst (e_options e)) rng) as (b & rng' & Hr).
  { by destruct (onSpawnBurst (e_options e)). }
  exists b, (0 + b), (mkEmitter (e_options e) (e_age e + dt) (timeToSpawn e)), rng'.
  split; [done|]. split; [|lra].
  unfold EmitterM.update. apply Qeq_bool_iff in Ha. rewrite Ha, Hb. simpl.
  rewrite (bind_ok_intro _ _ _ _ _
             (bind_ok_intro _ (fun b => ret (0 + b)) _ _ _ Hr)).
  unfold ret at 1. rewrite Hi. reflexivity.
Qed.

Lemma burst_without_interval_is_not_decayed_witness :
  exists b r e' rng',
    Utils.randomizerOrValue (Const 10) Examples.draws = Ok (b, rng')
    /\ EmitterM.update (1 # 10) (Some 2) Examples.burstOnly Examples.draws
       = Ok ((r, e'), rng')
    /\ r == b.
Proof.
  apply (burst_without_interval_is_not_decayed (1 # 10) (Some 2) Examples.burstOnly
           Examples.draws); reflexivity.
Defined.

(** C5, as the specification states it, fails on a burst-only emitter: with
    a decay threshold of 4, a remaining lifetime of 2 and a burst quantity
    of 10, the first update returns 10, not 5. *)
Lemma burst_only_emitter_is_not_decayed :
  Examples.spawnCount (1 # 10) (Some 2) Examples.burstOnly = Some 10.
Proof. vm_compute. reflexivity. Qed.

(** C5, amended. For an emitter with an interval policy and a decay
    threshold [T], when the remaining lifetime [t] of the system is below
    [T] the count returned is the burst and interval contributions of the
    call times [t / T]; at [t = T / 2] it is half of them. *)
Theorem decay_scales_interval_emitters dt t T e rng r e' rng' :
  truthy (onInterval (e_options e)) = true ->
  detoretingMinTtl (e_options e) = Some T ->
  ~ T == 0 ->
  t < T ->
  EmitterM.update dt (Some t) e rng = Ok ((r, e'), rng') ->
  exists q e0,
    EmitterM.update dt (Some t) (Spec.withoutDecay e) rng = Ok ((q, e0), rng')
    /\ r == q * (t / T)
    /\ (t == T / 2 -> r == q / 2).
Proof.
  intros Hi HT HT0 Hlt Hu.
  apply emitter_update_inv in Hu as (q & Hq & _ & ->).
  eexists q, _. split; [exact Hq|].
  rewrite Hi. unfold EmitterM.detorate. rewrite HT.
  rewrite (proj2 (truthy_num_true T) HT0), (proj2 (ltb_true t T) Hlt). simpl.
  split; [reflexivity|].
  intros Ht. rewrite Ht. field. exact HT0.
Qed.

Lemma decay_scales_interval_emitters_witness :
  exists q e0,
    EmitterM.update (1 # 10) (Some 2) (Spec.withoutDecay Examples.intervalOnly)
      Examples.draws
    = Ok ((q, e0), Examples.draws)
    /\ (0 + 10) * (2 / 4) == q * (2 / 4)
    /\ (2 == 4 / 2 -> (0 + 10) * (2 / 4) == q / 2).
Proof.
  assert (H0 : ~ 4 == 0) by discriminate.
  assert (Hu : EmitterM.update (1 # 10) (Some 2) Examples.intervalOnly Examples.draws
               = Ok (((0 + 10) * (2 / 4),
                      mkEmitter (e_options Examples.intervalOnly) (1 + (1 # 10)) 1),
                     Examples.draws)) by (vm_compute; reflexivity).
  exact (decay_scales_interval_emitters (1 # 10) 2 4 Examples.intervalOnly
           Examples.draws _ _ _ eq_refl eq_refl H0 eq_refl Hu).
Defined.

(** ** The first update *)

(** The alpha and the size the first update of a particle writes. *)
Lemma first_update_pushes options w index dt p p' cs :
  finished p = false -> age p == 0 ->
  ParticleM.update options w index dt p = Ok (p', cs) ->
  Spec.pushedAlphas cs
  = (if ParticleM.not_null (alpha p) || ParticleM.not_null (startAlpha p)
     then [or (alpha p) (startAlpha p)] else [])
  /\ Spec.pushedSizes cs
     = (if ParticleM.not_null (size p) || ParticleM.not_null (startSize p)
        then [or (size p) (startSize p)] else []).
Proof.
  intros Hf Ha. unfold ParticleM.update. rewrite Hf.
  apply Qeq_bool_iff in Ha. rewrite Ha.
  destruct (ParticleM.rotate _ _ _) as [p2 c2] eqn:E2. simpl.
  intros [= _ <-].
  assert (Hc2 : Spec.pushedAlphas c2 = [] /\ Spec.pushedSizes c2 = []).
  { revert E2. unfold ParticleM.rotate. repeat case_match; by intros [= <- <-]. }
  destruct Hc2 as [Hc2 Hc2'].
  unfold Spec.pushedAlphas, Spec.pushedSizes in *.
  rewrite !omap_app, Hc2, Hc2'. simpl. rewrite !app_nil_r.
  unfold ParticleM.firstUpdateCalls. rewrite !omap_app.
  replace (alpha (ParticleM.anchor options w p)) with (alpha p) by stages.
  replace (startAlpha (ParticleM.anchor options w p)) with (startAlpha p) by stages.
  replace (size (ParticleM.anchor options w p)) with (size p) by stages.
  replace (startSize (ParticleM.anchor options w p)) with (startSize p) by stages.
  split; repeat case_match; done.
Qed.

(** [constant || start] with no start value. *)
Lemma or_constant_null (a : Q) :
  (~ a == 0 -> or (Some a) None = Some a)
  /\ (a == 0 -> or (Some a) (None : option Q) = None)
  /\ to_number (or (Some a) None) == a.
Proof.
  unfold or, truthy, truthy_option. destruct (truthy a) eqn:E.
  - apply truthy_num_true in E. repeat split; try done.
  - apply truthy_num_false in E. repeat split; try done.
Qed.

(** C10, as stated, fails at the constant 0: the particle of
    [{ alpha: 0 }] holds the resolved constant 0, and its first update hands
    [null] to [setAlpha]. *)
Lemma constant_alpha_zero_pushes_null :
  option_map (fun x => (alpha x.1, startAlpha x.1, Spec.pushedAlphas x.2))
    (Examples.firstUpdate (Examples.constantAlpha 0))
  = Some (Some 0, None, [None]).
Proof. vm_compute. reflexivity. Qed.

(** C10, amended. At the first update of a particle whose alpha
    (respectively size) is in constant mode, exactly one value is handed to
    [setAlpha] ([setSize]): the resolved constant when it is not 0, and
    [null], the unset start value, when it is 0. *)
Theorem first_update_pushes_constant options w index dt p p' cs :
  finished p = false -> age p == 0 ->
  ParticleM.update options w index dt p = Ok (p', cs) ->
  (forall a, alpha p = Some a -> startAlpha p = None ->
     exists v, Spec.pushedAlphas cs = [v]
       /\ (~ a == 0 -> v = Some a) /\ (a == 0 -> v = None))
  /\ (forall a, size p = Some a -> startSize p = None ->
        exists v, Spec.pushedSizes cs = [v]
          /\ (~ a == 0 -> v = Some a) /\ (a == 0 -> v = None)).
Proof.
  intros Hf Ha Hu.
  destruct (first_update_pushes _ _ _ _ _ _ _ Hf Ha Hu) as [H1 H2].
  split; intros a Hc Hs.
  - rewrite Hc, Hs in H1. simpl in H1.
    exists (or (Some a) None). split; [done|].
    destruct (or_constant_null a) as (N1 & N2 & _). done.
  - rewrite Hc, Hs in H2. simpl in H2.
    exists (or (Some a) None). split; [done|].
    destruct (or_constant_null a) as (N1 & N2 & _). done.
Qed.

Lemma first_update_pushes_constant_witness :
  exists p cs,
    Examples.firstUpdate (Examples.constantAlpha (7 # 10)) = Some (p, cs)
    /\ alpha p = Some (7 # 10)
    /\ Spec.pushedAlphas cs = [Some (7 # 10)].
Proof.
  set (r := default (Examples.resting, []) (Examples.firstUpdate (Examples.constantAlpha (7 # 10)))).
  assert (Hu : ParticleM.update (Examples.constantAlpha (7 # 10)) Vec.zero 0 (1 # 2) r.1
               = Ok ((Examples.updated (Examples.constantAlpha (7 # 10)) Vec.zero (1 # 2) r.1).1,
                     r.2)) by (vm_compute; reflexivity).
  destruct (first_update_pushes_constant _ _ _ _ _ _ _
              (eq_refl : finished r.1 = false) (eq_refl : age r.1 == 0) Hu) as [H _].
  destruct (H (7 # 10) eq_refl eq_refl) as (v & Hv & Hn & _).
  exists r.1, r.2. split; [reflexivity|]. split; [reflexivity|].
  rewrite Hv. f_equal. apply Hn. discriminate.
Defined.

(** ** Validation in the constructor *)

(** C1, at a plain number given as the constant size together with a
    start and end size: the constructor returns a system, with the number
    moved to [globalSize], and raises nothing. *)
Theorem number_size_with_start_size_is_accepted :
  Spec.constantAndStart Examples.sizeAndStartSize = true
  /\ match System.new (mkOptions (Some Examples.sizeAndStartSize) None) Examples.draws with
     | Ok (s, _) =>
         o_globalSize (p_options s) = Some 5
         /\ o_scaling (p_options s) = true
         /\ length (_deadParticles s) = 10%nat
     | Throw _ => False
     end.
Proof. vm_compute. repeat split. Qed.

(** ** The pool *)

Lemma pop_nil {A} (l : list A) : pop l = None <-> l = [].
Proof.
  unfold pop. split.
  - destruct (last l) eqn:E; [done|]. intros _. by apply last_None.
  - intros ->. done.
Qed.

Lemma pop_Some {A} (l l' : list A) x :
  pop l = Some (x, l') <-> l = l' ++ [x].
Proof.
  unfold pop. split.
  - destruct (last l) as [y|] eqn:E; [|done]. intros [= <- <-].
    apply last_Some in E as [l0 ->].
    rewrite length_app. simpl.
    replace (length l0 + 1 - 1)%nat with (length l0) by lia.
    by rewrite take_app_length.
  - intros ->. rewrite last_snoc, length_app. simpl.
    replace (length l' + 1 - 1)%nat with (length l') by lia.
    by rewrite take_app_length.
Qed.

Lemma inject_S (n : nat) : inject_Z (Z.of_nat (S n)) == inject_Z (Z.of_nat n) + 1.
Proof. rewrite Nat2Z.inj_succ. unfold Z.succ. rewrite inject_Z_plus. reflexivity. Qed.

(** The loop of [spawnParticles] with fuel above the size of the dead pool:
    it returns, moves particles from the end of the dead pool to the end of
    the alive list, each one reset, and empties the dead pool when more
    particles are asked for than the pool holds. *)
Lemma spawnLoop_spec fuel : forall i quantity s rng,
  Spec.resettable (p_options s) = true ->
  (length (_deadParticles s) < fuel)%nat ->
  exists s' rng' news,
    System.spawnLoop fuel i quantity s rng = Ok (s', rng')
    /\ s' = with_pools (_aliveParticles s ++ news)
              (take (length (_deadParticles s) - length news) (_deadParticles s)) s
    /\ (length news <= length (_deadParticles s))%nat
    /\ Forall (fun p => exists r r', ParticleM.reset (p_options s) r = Ok (p, r')) news
    /\ (i + inject_Z (Z.of_nat (length (_deadParticles s))) < quantity ->
        length news = length (_deadParticles s))
    /\ (quantity <= i -> news = []).
Proof.
  induction fuel as [|fuel IH]; intros i quantity s rng Hres Hfuel; [lia|].
  simpl. destruct (ltb i quantity) eqn:Hlt.
  - apply ltb_true in Hlt.
    destruct (pop (_deadParticles s)) as [[x dead']|] eqn:Hpop.
    + apply pop_Some in Hpop.
      destruct (reset_ok (p_options s) rng Hres) as (p & r1 & Hp).
      rewrite (bind_ok_intro _ _ _ _ _ Hp).
      set (s1 := with_pools (_aliveParticles s ++ [p]) dead' s).
      assert (Hlen : length (_deadParticles s) = S (length dead')).
      { rewrite Hpop, length_app. simpl. lia. }
      destruct (IH (i + 1) quantity s1 r1 Hres ltac:(simpl; lia))
        as (s' & rng' & news & Hrun & Hs' & Hle & Hall & Hfull & Hnone).
      simpl in *.
      exists s', rng', (p :: news). split; [done|].
      split.
      { rewrite Hs'. unfold with_pools. simpl. rewrite <- app_assoc. simpl.
        rewrite Hlen. simpl. f_equal.
        rewrite Hpop. rewrite take_app_le by lia. done. }
      split; [simpl; lia|].
      split; [constructor; eauto|].
      split.
      * intros Hq. simpl. rewrite Hlen. f_equal. apply Hfull.
        rewrite Hlen, inject_S in Hq. lra.
      * intros Hq. lra.
    + apply pop_nil in Hpop. exists s, rng, []. unfold ret.
      split; [done|]. simpl. rewrite app_nil_r, Nat.sub_0_r, firstn_all.
      split; [by destruct s|]. split; [lia|]. split; [done|].
      rewrite Hpop. done.
  - apply ltb_false in Hlt. exists s, rng, []. unfold ret.
    split; [done|]. simpl. rewrite app_nil_r, Nat.sub_0_r, firstn_all.
    split; [by destruct s|]. split; [lia|]. split; [done|].
    split; [|done]. intros Hq.
    assert (0 <= inject_Z (Z.of_nat (length (_deadParticles s)))).
    { change 0 with (inject_Z 0). rewrite <- Zle_Qle. lia. }
    lra.
Qed.

(** ** Writes and attribute arrays *)

Lemma geometryOk_iff o g :
  Spec.geometryOk o g = true <->
  (o_fade o = true -> ParticleM.not_null (alpha_array g) = true)
  /\ (o_colorize o = true -> ParticleM.not_null (color_array g) = true)
  /\ (o_scaling o = true -> ParticleM.not_null (size_array g) = true)
  /\ (o_rotating o = true -> ParticleM.not_null (rotation_array g) = true).
Proof.
  unfold Spec.geometryOk. rewrite !andb_true_iff.
  destruct (o_fade o), (o_colorize o), (o_scaling o), (o_rotating o);
    simpl; intuition congruence.
Qed.

(** A write to an enabled attribute succeeds and changes only the geometry
    and the dirty flags; the arrays that exist keep existing. *)
Lemma applyCall_ok o c s :
  Spec.geometryOk o (geometry s) = true -> Spec.callOk o c = true ->
  exists s', System.applyCall c s = Ok s'
    /\ s' = with_geometry (geometry s') (dirty s') s
    /\ Spec.geometryOk o (geometry s') = true.
Proof.
  intros Hg Hc. apply geometryOk_iff in Hg as (H1 & H2 & H3 & H4).
  destruct c; simpl in Hc; unfold System.applyCall, System.setAlpha,
    System.setColor, System.setSize, System.setRotation, System.setPosition.
  - specialize (H1 Hc). destruct (alpha_array (geometry s)); [|done].
    eexists. split; [reflexivity|]. split; [done|]. by apply geometryOk_iff.
  - specialize (H2 Hc). destruct (color_array (geometry s)); [|done].
    eexists. split; [reflexivity|]. split; [done|]. by apply geometryOk_iff.
  - specialize (H3 Hc). destruct (size_array (geometry s)); [|done].
    eexists. split; [reflexivity|]. split; [done|]. by apply geometryOk_iff.
  - specialize (H4 Hc). destruct (rotation_array (geometry s)); [|done].
    eexists. split; [reflexivity|]. split; [done|]. by apply geometryOk_iff.
  - eexists. split; [reflexivity|]. split; [done|]. by apply geometryOk_iff.
Qed.

Lemma applyCalls_ok o cs : forall s,
  Spec.geometryOk o (geometry s) = true ->
  Forall (fun c => Spec.callOk o c = true) cs ->
  exists s', System.applyCalls cs s = Ok s'
    /\ s' = with_geometry (geometry s') (dirty s') s
    /\ Spec.geometryOk o (geometry s') = true.
Proof.
  induction cs as [|c cs IH]; intros s Hg Hcs; simpl.
  - exists s. split; [done|]. split; [by destruct s|done].
  - apply Forall_cons in Hcs as [Hc Hcs].
    destruct (applyCall_ok o c s Hg Hc) as (s1 & -> & Hs1 & Hg1).
    destruct (IH s1 Hg1 Hcs) as (s2 & -> & Hs2 & Hg2).
    exists s2. split; [done|]. split; [|done].
    rewrite Hs2 at 1. rewrite Hs1. done.
Qed.

(** ** Admissible particles *)

Lemma admissible_iff o p :
  Spec.admissible o p = true <->
  (ParticleM.not_null (alpha p) || ParticleM.not_null (startAlpha p) = true -> o_fade o = true)
  /\ (ParticleM.not_null (color p) || ParticleM.not_null (startColor p) = true -> o_colorize o = true)
  /\ (ParticleM.not_null (size p) || ParticleM.not_null (startSize p) = true -> o_scaling o = true)
  /\ (ParticleM.not_null (rotation p) || truthy (rotationSpeed p) = true -> o_rotating o = true)
  /\ (ParticleM.not_null (startColor p) = true -> ParticleM.not_null (endColor p) = true).
Proof.
  unfold Spec.admissible. rewrite !andb_true_iff, !Bool.implb_true_iff. tauto.
Qed.

Lemma rotate_modes index dt p :
  Spec.modes (ParticleM.rotate index dt p).1 = Spec.modes p
  /\ (rotation (ParticleM.rotate index dt p).1 = rotation p
      \/ truthy (rotationSpeed p) = true).
Proof.
  unfold ParticleM.rotate.
  destruct (rotationSpeed p) as [sp|] eqn:E; [|auto].
  destruct (truthy sp) eqn:Et; [|auto].
  split; [unfold Spec.modes; simpl; by rewrite E|right; exact Et].
Qed.

Lemma anchor_modes o w p :
  Spec.modes (ParticleM.anchor o w p) = Spec.modes p
  /\ rotation (ParticleM.anchor o w p) = rotation p.
Proof. unfold ParticleM.anchor. by case_match. Qed.

Lemma integrate_modes dt p :
  Spec.modes (ParticleM.integrate dt p) = Spec.modes p
  /\ rotation (ParticleM.integrate dt p) = rotation p.
Proof. unfold ParticleM.integrate. by case_match. Qed.

Lemma accelerate_modes dt p :
  Spec.modes (ParticleM.accelerate dt p) = Spec.modes p
  /\ rotation (ParticleM.accelerate dt p) = rotation p.
Proof. unfold ParticleM.accelerate. by repeat case_match. Qed.

Lemma advanced_modes o w index dt p :
  let q := ParticleM.advanceAge dt (ParticleM.accelerate dt
             (ParticleM.integrate dt
                (ParticleM.rotate index dt (ParticleM.anchor o w p)).1)) in
  Spec.modes q = Spec.modes p
  /\ (rotation q = rotation p \/ truthy (rotationSpeed p) = true).
Proof.
  intros q. subst q.
  destruct (anchor_modes o w p) as [A1 A2].
  destruct (rotate_modes index dt (ParticleM.anchor o w p)) as [R1 R2].
  set (p2 := (ParticleM.rotate index dt (ParticleM.anchor o w p)).1) in *.
  destruct (integrate_modes dt p2) as [I1 I2].
  destruct (accelerate_modes dt (ParticleM.integrate dt p2)) as [C1 C2].
  change (Spec.modes (ParticleM.advanceAge dt (ParticleM.accelerate dt (ParticleM.integrate dt p2))))
    with (Spec.modes (ParticleM.accelerate dt (ParticleM.integrate dt p2))).
  change (rotation (ParticleM.advanceAge dt (ParticleM.accelerate dt (ParticleM.integrate dt p2))))
    with (rotation (ParticleM.accelerate dt (ParticleM.integrate dt p2))).
  split; [congruence|].
  assert (Hs : rotationSpeed (ParticleM.anchor o w p) = rotationSpeed p).
  { unfold Spec.modes in A1. congruence. }
  rewrite Hs in R2. destruct R2 as [R2|R2]; [left; congruence|by right].
Qed.

(** The stages of an update before the hook keep a particle admissible. *)
Lemma advanced_admissible o w index dt p :
  Spec.admissible o p = true ->
  Spec.admissible o
    (ParticleM.advanceAge dt (ParticleM.accelerate dt
       (ParticleM.integrate dt
          (ParticleM.rotate index dt (ParticleM.anchor o w p)).1))) = true.
Proof.
  intros H. apply admissible_iff in H as (H1 & H2 & H3 & H4 & H5).
  apply admissible_iff.
  destruct (advanced_modes o w index dt p) as [Hm Hr].
  set (q := ParticleM.advanceAge _ _) in *.
  assert (E : alpha q = alpha p /\ startAlpha q = startAlpha p
              /\ color q = color p /\ startColor q = startColor p
              /\ endColor q = endColor p /\ size q = size p
              /\ startSize q = startSize p /\ rotationSpeed q = rotationSpeed p).
  { revert Hm. generalize q. intros q0. unfold Spec.modes.
    intros Hm. injection Hm as E1 E2 E3 E4 E5 E6 E7 E8. by repeat split. }
  destruct E as (-> & -> & -> & -> & -> & -> & -> & ->).
  repeat split; try done.
  intros Hrot. apply H4. destruct Hr as [ <- | -> ]; [done|]. apply orb_true_r.
Qed.

Lemma finish_admissible o p :
  Spec.admissible o (ParticleM.finish p) = Spec.admissible o p.
Proof. unfold Spec.admissible. stages. Qed.

(** The writes of an update of an admissible particle go to enabled
    attributes. *)
Lemma update_calls_ok o w index dt p p' cs :
  Spec.admissible o p = true ->
  ParticleM.update o w index dt p = Ok (p', cs) ->
  Forall (fun c => Spec.callOk o c = true) cs.
Proof.
  intros H Hu. apply admissible_iff in H as (H1 & H2 & H3 & H4 & H5).
  revert Hu. unfold ParticleM.update.
  destruct (finished p); [by intros [= _ <-]|].
  set (p1 := ParticleM.anchor o w p).
  destruct (anchor_modes o w p) as [Hm Q9]. fold p1 in Hm, Q9.
  unfold Spec.modes in Hm. injection Hm as Q1 Q2 Q3 Q4 Q5 Q6 Q7 Q8.
  destruct (if Qeq_bool (age p) 0 then _ else _) as [c1|] eqn:E1; [|done].
  destruct (ParticleM.rotate index dt p1) as [p2 c2] eqn:E2.
  intros [= _ <-].
  rewrite !Forall_app. split; [|split].
  - destruct (Qeq_bool (age p) 0).
    + injection E1 as <-. unfold ParticleM.firstUpdateCalls.
      rewrite Q1, Q2, Q3, Q4, Q6, Q7, Q9.
      rewrite !Forall_app. repeat split.
      * destruct (ParticleM.not_null (alpha p) || _) eqn:E; [|constructor].
        repeat constructor. simpl. auto.
      * destruct (color p) eqn:Ec, (startColor p) eqn:Es;
          repeat constructor; simpl; apply H2; done.
      * destruct (ParticleM.not_null (size p) || _) eqn:E; [|constructor].
        repeat constructor. simpl. auto.
      * destruct (rotation p) eqn:Er; [|constructor]. repeat constructor. simpl.
        by apply H4.
    + revert E1. unfold ParticleM.animatedCalls, ParticleM.animated.
      rewrite Q2, Q4, Q5, Q7.
      intros E1.
      assert (Hc : (startColor p <> None -> o_colorize o = true)
                   /\ (startAlpha p <> None -> o_fade o = true)
                   /\ (startSize p <> None -> o_scaling o = true)).
      { repeat split; intros Hn.
        - apply H2. destruct (startColor p); [apply orb_true_r|done].
        - apply H1. destruct (startAlpha p); [apply orb_true_r|done].
        - apply H3. destruct (startSize p); [apply orb_true_r|done]. }
      destruct Hc as (C1 & C2 & C3).
      repeat case_match; simplify_eq; rewrite ?Forall_app;
        repeat split; repeat constructor; simpl; auto.
  - revert E2. unfold ParticleM.rotate. rewrite Q8, Q9.
    destruct (rotationSpeed p) as [sp|] eqn:Es; [|by intros [= _ <-]].
    destruct (truthy sp) eqn:Et; [|by intros [= _ <-]].
    intros [= _ <-]. repeat constructor. simpl. apply H4.
    unfold truthy at 1, truthy_option. rewrite Et. apply orb_true_r.
  - repeat constructor.
Qed.

(** An update keeps a particle admissible when the hook does. *)
Lemma update_admissible o w index dt p p' cs :
  Spec.hookAdmissible o (o_onUpdate o) ->
  Spec.admissible o p = true ->
  ParticleM.update o w index dt p = Ok (p', cs) ->
  Spec.admissible o p' = true.
Proof.
  intros Hh H Hu. destruct (finished p) eqn:Hf.
  - rewrite update_finished in Hu by done. by injection Hu as <- _.
  - apply update_inv in Hu; [|done]. subst p'.
    rewrite finish_admissible. unfold ParticleM.callOnUpdate.
    pose proof (advanced_admissible o w index dt p H) as Ha.
    destruct (o_onUpdate o) as [f|] eqn:Ef; [|done].
    by apply (Hh f).
Qed.

(** ** Operations keep the options and the size of the pool *)

(** Whatever an operation does, it leaves the options alone and moves
    particles only between the two pools. *)
Lemma spawnLoop_frame fuel : forall i quantity s rng s' rng',
  System.spawnLoop fuel i quantity s rng = Ok (s', rng') ->
  p_options s' = p_options s /\ s_options s' = s_options s
  /\ System.maxParticlesCount s' = System.maxParticlesCount s.
Proof.
  induction fuel as [|fuel IH]; intros i quantity s rng s' rng'; simpl.
  - by intros [= <- <-].
  - destruct (ltb i quantity); [|by intros [= <- <-]].
    destruct (pop (_deadParticles s)) as [[x dead']|] eqn:Hpop; [|by intros [= <- <-]].
    apply pop_Some in Hpop. intros H.
    apply bind_ok in H as (p & r1 & _ & H).
    apply IH in H as (-> & -> & ->).
    unfold System.maxParticlesCount. simpl.
    rewrite Hpop, !length_app. simpl. split; [done|]. split; [done|]. lia.
Qed.

Lemma spawnParticles_frame quantity s rng s' rng' :
  System.spawnParticles quantity s rng = Ok (s', rng') ->
  p_options s' = p_options s /\ s_options s' = s_options s
  /\ System.maxParticlesCount s' = System.maxParticlesCount s.
Proof. apply spawnLoop_frame. Qed.

Lemma emit_frame dt es : forall s rng es' s' rng',
  System.emit dt es s rng = Ok ((es', s'), rng') ->
  p_options s' = p_options s /\ s_options s' = s_options s
  /\ System.maxParticlesCount s' = System.maxParticlesCount s.
Proof.
  induction es as [|e es IH]; intros s rng es' s' rng'; simpl.
  - by intros [= _ <- _].
  - intros H. apply bind_ok in H as (r & r1 & _ & H).
    apply bind_ok in H as (s1 & r2 & Hs1 & H).
    apply bind_ok in H as ([es2 s2] & r3 & Hrest & H).
    apply ret_ok in H as [H _]. injection H as _ <-. simpl in *.
    apply IH in Hrest as (-> & -> & ->).
    destruct (truthy r.1).
    + by apply spawnParticles_frame in Hs1.
    + by apply ret_ok in Hs1 as [<- _].
Qed.

Lemma applyCall_frame c s s' :
  System.applyCall c s = Ok s' ->
  s' = with_geometry (geometry s') (dirty s') s.
Proof.
  destruct c; simpl; unfold System.setAlpha, System.setColor, System.setSize,
    System.setRotation, System.setPosition; repeat case_match; try done;
    by intros [= <-].
Qed.

Lemma applyCalls_frame cs : forall s s',
  System.applyCalls cs s = Ok s' ->
  s' = with_geometry (geometry s') (dirty s') s.
Proof.
  induction cs as [|c cs IH]; intros s s'; simpl.
  - intros [= <-]. by destruct s.
  - destruct (System.applyCall c s) as [s1|] eqn:E; [|done].
    intros H. apply IH in H. apply applyCall_frame in E.
    rewrite H at 1. rewrite E. done.
Qed.

Lemma updateParticles_frame n : forall dt s s',
  (n <= length (_aliveParticles s))%nat ->
  System.updateParticles n dt s = Ok s' ->
  p_options s' = p_options s /\ s_options s' = s_options s
  /\ _emitters s' = _emitters s
  /\ System.maxParticlesCount s' = System.maxParticlesCount s.
Proof.
  induction n as [|i IH]; intros dt s s' Hn; simpl.
  - by intros [= <-].
  - destruct (_aliveParticles s !! i) as [p|] eqn:Hp; [|done].
    destruct (ParticleM.update _ _ _ _ _) as [[p' cs]|]; [|done].
    destruct (System.applyCalls cs s) as [s1|] eqn:Hs1; [|done].
    apply applyCalls_frame in Hs1.
    assert (Ha : _aliveParticles s1 = _aliveParticles s) by (by rewrite Hs1).
    assert (Hd : _deadParticles s1 = _deadParticles s) by (by rewrite Hs1).
    assert (Ho : p_options s1 = p_options s /\ s_options s1 = s_options s
                 /\ _emitters s1 = _emitters s) by (by rewrite Hs1).
    destruct Ho as (Ho1 & Ho2 & Ho3).
    intros H. apply IH in H.
    + destruct H as (-> & -> & -> & ->).
      unfold System.maxParticlesCount.
      destruct (finished p'); simpl; rewrite ?Ha, ?Hd.
      * rewrite length_delete by (by rewrite Hp). rewrite length_app. simpl.
        repeat split; try done. lia.
      * rewrite length_insert. done.
    + destruct (finished p'); simpl; rewrite Ha.
      * rewrite length_delete by (by rewrite Hp). lia.
      * rewrite length_insert. lia.
Qed.

Lemma update_frame dt s rng s' rng' :
  System.update dt s rng = Ok (s', rng') ->
  p_options s' = p_options s /\ s_options s' = s_options s
  /\ System.maxParticlesCount s' = System.maxParticlesCount s.
Proof.
  unfold System.update. destruct (Qeq_bool dt 0); [by intros [= <- <-]|].
  intros H. apply bind_ok in H as (s1 & r1 & Hs1 & H).
  destruct (System.updateParticles _ _ s1) as [s2|] eqn:Hs2; [|done].
  apply ret_ok in H as [<- _].
  apply updateParticles_frame in Hs2 as (H1 & H2 & _ & H3); [|done].
  change (p_options (System.endOfFrame _ _ s2)) with (p_options s2).
  change (s_options (System.endOfFrame _ _ s2)) with (s_options s2).
  change (System.maxParticlesCount (System.endOfFrame _ _ s2))
    with (System.maxParticlesCount s2).
  rewrite H1, H2, H3. clear H1 H2 H3.
  destruct (negb (System.ttlExpired _)).
  - apply bind_ok in Hs1 as ([es' s3] & r2 & He & Hs1).
    apply ret_ok in Hs1 as [<- _]. apply emit_frame in He. simpl in *. done.
  - apply ret_ok in Hs1 as [<- _]. done.
Qed.

Lemma step_frame op s rng s' rng' :
  System.step op s rng = Ok (s', rng') ->
  p_options s' = p_options s /\ s_options s' = s_options s
  /\ System.maxParticlesCount s' = System.maxParticlesCount s.
Proof.
  destruct op; simpl.
  - apply update_frame.
  - apply spawnParticles_frame.
  - by intros [= <- _].
  - by intros [= <- _].
  - by intros [= <- _].
  - by intros [= <- _].
  - by intros [= <- _].
Qed.

Lemma run_frame ops : forall s rng s' rng',
  System.run ops s rng = Ok (s', rng') ->
  p_options s' = p_options s /\ s_options s' = s_options s
  /\ System.maxParticlesCount s' = System.maxParticlesCount s.
Proof.
  induction ops as [|op ops IH]; intros s rng s' rng'; simpl.
  - by intros [= <- _].
  - intros H. apply bind_ok in H as (s1 & r1 & Hs1 & H).
    apply IH in H as (-> & -> & ->). by apply step_frame in Hs1.
Qed.

(** ** Operations return *)

Lemma reset_admissible o r p r' :
  Spec.hookAdmissible o (o_onSpawn o) ->
  ParticleM.reset o r = Ok (p, r') -> Spec.admissible o p = true.
Proof.
  intros Hh H. apply reset_inv in H as (_ & p0 & -> & _ & _ & _ & _ & Ha).
  destruct (o_onSpawn o) as [f|] eqn:E; [|done]. by apply (Hh f).
Qed.

Lemma truthy_defined (x : JsOpt Q) : truthy x = true -> defined x = true.
Proof. by destruct x. Qed.

(** [spawnParticles] returns and keeps the invariant. *)
Lemma spawnParticles_ok quantity s rng :
  Spec.hookAdmissible (p_options s) (o_onSpawn (p_options s)) ->
  Spec.invariant s ->
  exists s' rng', System.spawnParticles quantity s rng = Ok (s', rng')
    /\ Spec.invariant s' /\ _emitters s' = _emitters s /\ s_ttl s' = s_ttl s
    /\ worldPosition s' = worldPosition s.
Proof.
  intros Hh (I1 & I2 & I3 & I4 & I5).
  destruct (spawnLoop_spec (S (length (_deadParticles s))) 0 quantity s rng I1 ltac:(lia))
    as (s' & rng' & news & Hrun & Hs' & Hle & Hall & _ & _).
  exists s', rng'. split; [done|].
  destruct (spawnLoop_frame _ _ _ _ _ _ _ Hrun) as (F1 & F2 & F3).
  split; [|by rewrite Hs'].
  unfold Spec.invariant. rewrite F1, F2, F3.
  split; [done|]. split; [by rewrite Hs'|]. split; [|split; [by rewrite Hs'|done]].
  rewrite Hs'. simpl. apply Forall_app. split; [done|].
  eapply Forall_impl; [exact Hall|]. simpl.
  intros p (r & r' & Hp). by apply reset_admissible in Hp.
Qed.

(** An emitter built by its constructor never raises in [update]. *)
Lemma emitter_update_ok dt t e rng :
  Spec.emitterOk e = true ->
  exists r e' rng', EmitterM.update dt t e rng = Ok ((r, e'), rng')
    /\ Spec.emitterOk e' = true.
Proof.
  unfold Spec.emitterOk. intros He. unfold EmitterM.update.
  assert (H0 : exists ret0 r1,
            (if Qeq_bool (e_age e) 0 && truthy (onSpawnBurst (e_options e))
             then bind (Utils.randomizerOrValue (onSpawnBurst (e_options e)))
                    (fun b => ret (0 + b))
             else ret 0) rng = Ok (ret0, r1)).
  { destruct (Qeq_bool (e_age e) 0); simpl; [|unfold ret; eauto].
    destruct (truthy (onSpawnBurst (e_options e))) eqn:Eb; [|unfold ret; eauto].
    destruct (randomizerOrValue_ok _ rng (truthy_defined _ Eb)) as (b & r1 & Hb).
    rewrite (bind_ok_intro _ _ _ _ _ Hb). unfold ret. eauto. }
  destruct H0 as (ret0 & r1 & H0). rewrite (bind_ok_intro _ _ _ _ _ H0).
  destruct (truthy (onInterval (e_options e))) eqn:Ei; simpl.
  - destruct (Qle_bool (timeToSpawn e - dt) 0).
    + destruct (randomizerOrValue_ok _ r1 He) as (tts & r2 & Ht).
      destruct (randomizerOrValue_ok _ r2 (truthy_defined _ Ei)) as (q & r3 & Hq).
      assert (Hm : bind (Utils.randomizerOrValue (interval (e_options e)))
                     (fun tts' => bind (Utils.randomizerOrValue (onInterval (e_options e)))
                                    (fun q => ret (tts', ret0 + q))) r1
                   = Ok ((tts, ret0 + q), r3)).
      { rewrite (bind_ok_intro _ _ _ _ _ Ht). by rewrite (bind_ok_intro _ _ _ _ _ Hq). }
      rewrite (bind_ok_intro _ _ _ _ _ Hm). unfold ret. simpl. eauto 6.
    + unfold ret, bind. simpl. eauto 6.
  - unfold ret. eauto 6.
Qed.

Lemma emit_ok dt es : forall s rng,
  Spec.hookAdmissible (p_options s) (o_onSpawn (p_options s)) ->
  Spec.invariant s ->
  Forall (fun e => Spec.emitterOk e = true) es ->
  exists es' s' rng', System.emit dt es s rng = Ok ((es', s'), rng')
    /\ Spec.invariant s' /\ _emitters s' = _emitters s
    /\ worldPosition s' = worldPosition s
    /\ Forall (fun e => Spec.emitterOk e = true) es'.
Proof.
  induction es as [|e es IH]; intros s rng Hh Hi Hes; simpl.
  - unfold ret. eauto 10.
  - apply Forall_cons in Hes as [He Hes].
    destruct (emitter_update_ok dt (s_ttl s) e rng He) as (r & e' & r1 & Hu & He').
    rewrite (bind_ok_intro _ _ _ _ _ Hu). simpl.
    assert (Hs1 : exists s1 r2,
              (if truthy r then System.spawnParticles r s else ret s) r1 = Ok (s1, r2)
              /\ Spec.invariant s1 /\ _emitters s1 = _emitters s
              /\ p_options s1 = p_options s
              /\ worldPosition s1 = worldPosition s).
    { destruct (truthy r).
      - destruct (spawnParticles_ok r s r1 Hh Hi) as (s1 & r2 & H1 & H2 & H3 & H4 & H5).
        pose proof (spawnParticles_frame _ _ _ _ _ H1) as (F1 & _).
        exists s1, r2. done.
      - exists s, r1. unfold ret. done. }
    destruct Hs1 as (s1 & r2 & H1 & H2 & H3 & H4 & H5).
    rewrite (bind_ok_intro _ _ _ _ _ H1).
    rewrite <- H4 in Hh.
    destruct (IH s1 r2 Hh H2 Hes) as (es' & s' & r3 & Hr & J1 & J2 & J3 & J4).
    rewrite (bind_ok_intro _ _ _ _ _ Hr). unfold ret. simpl.
    exists (e' :: es'), s', r3.
    split; [done|]. split; [exact J1|]. split; [congruence|].
    split; [congruence|]. by constructor.
Qed.

Lemma with_geometry_invariant_parts s s1 :
  s1 = with_geometry (geometry s1) (dirty s1) s ->
  p_options s1 = p_options s /\ s_options s1 = s_options s
  /\ _aliveParticles s1 = _aliveParticles s
  /\ _deadParticles s1 = _deadParticles s
  /\ _emitters s1 = _emitters s /\ worldPosition s1 = worldPosition s.
Proof. intros ->. done. Qed.

(** The loop over the alive particles returns and keeps the invariant. *)
Lemma updateParticles_ok n : forall dt s,
  (n <= length (_aliveParticles s))%nat ->
  Spec.hookAdmissible (p_options s) (o_onUpdate (p_options s)) ->
  Spec.invariant s ->
  exists s', System.updateParticles n dt s = Ok s' /\ Spec.invariant s'.
Proof.
  induction n as [|i IH]; intros dt s Hn Hh Hi; simpl; [eauto|].
  destruct (lookup_lt_is_Some_2 (_aliveParticles s) i ltac:(lia)) as [p Hp].
  rewrite Hp.
  destruct Hi as (I1 & I2 & I3 & I4 & I5).
  pose proof (proj1 (Forall_lookup _ _) I3 i p Hp) as Hadm. simpl in Hadm.
  destruct (update_ok (p_options s) (worldPosition s) i dt p
              (admissible_colors _ _ Hadm)) as (p' & cs & Hu).
  rewrite Hu.
  pose proof (update_calls_ok _ _ _ _ _ _ _ Hadm Hu) as Hcs.
  pose proof (update_admissible _ _ _ _ _ _ _ Hh Hadm Hu) as Hadm'.
  destruct (applyCalls_ok _ cs s I2 Hcs) as (s1 & Hs1 & Hf & Hg).
  rewrite Hs1.
  destruct (with_geometry_invariant_parts s s1 Hf) as (F1 & F2 & F3 & F4 & F5 & F6).
  apply IH.
  - destruct (finished p'); simpl; rewrite F3.
    + rewrite length_delete by (by rewrite Hp). lia.
    + rewrite length_insert. lia.
  - by destruct (finished p'); simpl; rewrite F1.
  - unfold Spec.invariant, System.maxParticlesCount.
    destruct (finished p'); simpl; rewrite F1, F2, F3, F4, F5.
    + split; [done|]. split; [exact Hg|].
      split; [by apply Forall_delete|]. split; [done|].
      rewrite length_delete by (by rewrite Hp). rewrite length_app. simpl.
      unfold System.maxParticlesCount in I5. lia.
    + split; [done|]. split; [exact Hg|].
      split; [by apply Forall_insert|]. split; [done|].
      rewrite length_insert. done.
Qed.

(** [update] returns and keeps the invariant. *)
Lemma system_update_ok dt s rng :
  Spec.hookAdmissible (p_options s) (o_onSpawn (p_options s)) ->
  Spec.hookAdmissible (p_options s) (o_onUpdate (p_options s)) ->
  Spec.invariant s ->
  exists s' rng', System.update dt s rng = Ok (s', rng') /\ Spec.invariant s'.
Proof.
  intros Hs Hu Hi. unfold System.update.
  destruct (Qeq_bool dt 0); [unfold ret; eauto|].
  set (s0 := mkSystem _ _ _ _ _ _ _ _ _ _ _ _ _ _ _ _).
  assert (Hi0 : Spec.invariant s0) by exact Hi.
  assert (H1 : exists s1 r1,
            (if negb (System.ttlExpired s0)
             then bind (System.emit (dt * speed s) (_emitters s0) s0)
                    (fun r => ret (with_emitters r.1 r.2))
             else ret s0) rng = Ok (s1, r1)
            /\ Spec.invariant s1 /\ p_options s1 = p_options s).
  { destruct (negb (System.ttlExpired s0)).
    - destruct Hi0 as (I1 & I2 & I3 & I4 & I5).
      destruct (emit_ok (dt * speed s) (_emitters s0) s0 rng Hs
                  (conj I1 (conj I2 (conj I3 (conj I4 I5)))) I4)
        as (es' & s1 & r1 & He & J & _ & _ & Hes').
      rewrite (bind_ok_intro _ _ _ _ _ He). unfold ret. simpl.
      exists (with_emitters es' s1), r1. split; [done|].
      apply emit_frame in He as (F1 & F2 & F3).
      destruct J as (J1 & J2 & J3 & J4 & J5). split; [|done].
      unfold Spec.invariant. simpl. done.
    - exists s0, rng. unfold ret. done. }
  destruct H1 as (s1 & r1 & H1 & Hi1 & Ho1).
  rewrite (bind_ok_intro _ _ _ _ _ H1).
  rewrite <- Ho1 in Hu.
  destruct (updateParticles_ok (length (_aliveParticles s1)) (dt * speed s) s1
              ltac:(lia) Hu Hi1) as (s2 & H2 & Hi2).
  rewrite H2. unfold ret. eexists _, _. split; [reflexivity|].
  destruct Hi2 as (K1 & K2 & K3 & K4 & K5).
  unfold Spec.invariant. simpl. done.
Qed.

Lemma step_ok op s rng :
  Spec.hookAdmissible (p_options s) (o_onSpawn (p_options s)) ->
  Spec.hookAdmissible (p_options s) (o_onUpdate (p_options s)) ->
  Spec.opOk op = true ->
  Spec.invariant s ->
  exists s' rng', System.step op s rng = Ok (s', rng') /\ Spec.invariant s'.
Proof.
  intros Hs Hu Hop Hi. destruct op; simpl.
  - by apply system_update_ok.
  - destruct (spawnParticles_ok quantity s rng Hs Hi) as (s' & rng' & H & Hi' & _).
    eauto.
  - unfold ret. eauto.
  - unfold ret. eauto.
  - unfold ret. eexists _, _. split; [reflexivity|].
    destruct Hi as (I1 & I2 & I3 & I4 & I5).
    unfold Spec.invariant. simpl. repeat split; try done.
    apply Forall_app. split; [done|]. by constructor.
  - unfold ret. eauto.
  - unfold ret. eauto.
Qed.

Lemma run_ok ops : forall s rng,
  Spec.hookAdmissible (p_options s) (o_onSpawn (p_options s)) ->
  Spec.hookAdmissible (p_options s) (o_onUpdate (p_options s)) ->
  Forall (fun op => Spec.opOk op = true) ops ->
  Spec.invariant s ->
  exists s' rng', System.run ops s rng = Ok (s', rng') /\ Spec.invariant s'.
Proof.
  induction ops as [|op ops IH]; intros s rng Hs Hu Hops Hi; simpl.
  - unfold ret. eauto.
  - apply Forall_cons in Hops as [Hop Hops].
    destruct (step_ok op s rng Hs Hu Hop Hi) as (s1 & r1 & H1 & Hi1).
    rewrite (bind_ok_intro _ _ _ _ _ H1).
    apply step_frame in H1 as (F1 & _).
    apply IH; try done; by rewrite F1.
Qed.

(** ** The constructor *)

Lemma newParticles_spec o n : forall dead rng dead' rng',
  System.newParticles o n dead rng = Ok (dead', rng') ->
  length dead' = (length dead + n)%nat
  /\ ((0 < n)%nat -> Spec.resettable o = true).
Proof.
  induction n as [|n IH]; intros dead rng dead' rng'; simpl.
  - intros [= <- _]. split; lia.
  - intros H. apply bind_ok in H as (p & r1 & Hp & H).
    apply IH in H as [-> _]. rewrite length_app. simpl.
    split; [lia|]. intros _. by apply reset_resettable in Hp.
Qed.

Lemma particleCount_positive so : (0 < System.particleCount so)%nat.
Proof. unfold System.particleCount. repeat case_match; lia. Qed.

Lemma newGeometry_ok o n : Spec.geometryOk o (System.newGeometry o n) = true.
Proof.
  unfold Spec.geometryOk, System.newGeometry. simpl.
  by destruct (o_fade o), (o_colorize o), (o_scaling o), (o_rotating o).
Qed.

(** What a constructed system starts from. *)
Lemma new_spec options rng s rng' :
  System.new options rng = Ok (s, rng') ->
  p_options s
  = System.normalize (default System.defaultParticleOptions (particles options))
  /\ s_options s = default System.defaultSystemOptions (system options)
  /\ System.validate (p_options s) = None
  /\ Spec.resettable (p_options s) = true
  /\ _aliveParticles s = []
  /\ length (_deadParticles s) = System.particleCount (s_options s)
  /\ geometry s = System.newGeometry (p_options s) (System.particleCount (s_options s))
  /\ _emitters s = System.initialEmitters (s_options s)
  /\ s_ttl s = so_ttl (s_options s).
Proof.
  unfold System.new.
  destruct (System.validate _) eqn:Ev; [done|].
  intros H. apply bind_ok in H as (dead & r1 & Hd & H).
  apply ret_ok in H as [<- _]. simpl.
  apply newParticles_spec in Hd as [Hlen Hres].
  repeat split; try done. apply Hres, particleCount_positive.
Qed.

Lemma new_invariant options rng s rng' :
  System.new options rng = Ok (s, rng') ->
  Forall (fun e => Spec.emitterOk e = true) (_emitters s) ->
  Spec.invariant s.
Proof.
  intros H He.
  apply new_spec in H as (_ & _ & _ & H4 & H5 & H6 & H7 & _).
  unfold Spec.invariant, System.maxParticlesCount.
  rewrite H5, H6, H7. repeat split; try done. apply newGeometry_ok.
Qed.

(** C3. From its construction on, through any operations, the alive and the
    dead particles of a system together number the configured capacity: every
    state an operation sequence returns has that size, and with hooks that
    keep particles within the enabled attributes and emitters built by their
    constructor every operation sequence does return. *)
Theorem pool_size_is_invariant options rng s rng1 :
  System.new options rng = Ok (s, rng1) ->
  System.maxParticlesCount s = System.particleCount (s_options s)
  /\ (forall ops rng2 s' rng3,
        System.run ops s rng2 = Ok (s', rng3) ->
        s_options s' = s_options s
        /\ System.maxParticlesCount s' = System.particleCount (s_options s))
  /\ (Spec.hookAdmissible (p_options s) (o_onSpawn (p_options s)) ->
      Spec.hookAdmissible (p_options s) (o_onUpdate (p_options s)) ->
      Forall (fun e => Spec.emitterOk e = true) (_emitters s) ->
      forall ops rng2,
        Forall (fun op => Spec.opOk op = true) ops ->
        exists s' rng3, System.run ops s rng2 = Ok (s', rng3)).
Proof.
  intros Hnew.
  pose proof (new_spec _ _ _ _ Hnew) as (_ & _ & _ & _ & H5 & H6 & _).
  assert (Hc : System.maxParticlesCount s = System.particleCount (s_options s)).
  { unfold System.maxParticlesCount. by rewrite H5, H6. }
  split; [done|]. split.
  - intros ops rng2 s' rng3 Hrun.
    apply run_frame in Hrun as (_ & -> & ->). done.
  - intros Hs Hu He ops rng2 Hops.
    destruct (run_ok ops s rng2 Hs Hu Hops (new_invariant _ _ _ _ Hnew He))
      as (s' & rng3 & Hrun & _).
    eauto.
Qed.

(** C7. In any state of a constructed system, asking for more particles
    than the dead pool holds raises nothing, empties the dead pool and
    appends to the alive list as many particles as the pool held, each the
    result of [reset]. *)
Theorem spawn_saturates options rng0 s0 rng1 ops rng2 s rng3 N rng :
  System.new options rng0 = Ok (s0, rng1) ->
  System.run ops s0 rng2 = Ok (s, rng3) ->
  inject_Z (Z.of_nat (length (_deadParticles s))) < N ->
  exists s' rng' news,
    System.spawnParticles N s rng = Ok (s', rng')
    /\ _deadParticles s' = []
    /\ _aliveParticles s' = _aliveParticles s ++ news
    /\ length news = length (_deadParticles s)
    /\ Forall (fun p => exists r r', ParticleM.reset (p_options s) r = Ok (p, r')) news.
Proof.
  intros Hnew Hrun HN.
  apply new_spec in Hnew as (_ & _ & _ & Hres & _).
  apply run_frame in Hrun as (Ho & _). rewrite <- Ho in Hres.
  destruct (spawnLoop_spec (S (length (_deadParticles s))) 0 N s rng Hres ltac:(lia))
    as (s' & rng' & news & Hsp & Hs' & _ & Hall & Hfull & _).
  specialize (Hfull ltac:(lra)).
  exists s', rng', news. split; [done|].
  rewrite Hs'. simpl. rewrite Hfull, Nat.sub_diag. done.
Qed.

Lemma pool_size_is_invariant_witness :
  let s := Examples.systemOf (mkOptions None None) in
  System.new (mkOptions None None) Examples.draws = Ok (s, Examples.draws)
  /\ System.maxParticlesCount s = 10%nat
  /\ System.maxParticlesCount
       (Examples.after [System.SpawnParticles 3; System.Update (1 # 2)] s) = 10%nat
  /\ exists s' rng3,
       System.run [System.SpawnParticles 3; System.Update (1 # 2);
                   System.SpawnParticles 20; System.Update 3; System.GracefulStop]
         s Examples.draws = Ok (s', rng3).
Proof.
  intros s.
  assert (Hnew : System.new (mkOptions None None) Examples.draws = Ok (s, Examples.draws))
    by (vm_compute; reflexivity).
  destruct (pool_size_is_invariant (mkOptions None None) Examples.draws s
              Examples.draws Hnew) as (H1 & H2 & H3).
  split; [exact Hnew|]. split; [exact H1|]. split.
  - apply (H2 [System.SpawnParticles 3; System.Update (1 # 2)] Examples.draws
             (Examples.after [System.SpawnParticles 3; System.Update (1 # 2)] s)
             (fun n => Examples.draws n)).
    vm_compute. reflexivity.
  - apply H3.
    + intros f Hf. discriminate.
    + intros f Hf. discriminate.
    + constructor.
    + repeat constructor.
Defined.

Lemma spawn_saturates_witness :
  let s0 := Examples.systemOf (mkOptions None None) in
  let s := Examples.after [System.SpawnParticles 7] s0 in
  length (_deadParticles s) = 3%nat
  /\ exists s' rng' news,
       System.spawnParticles 5 s Examples.draws = Ok (s', rng')
       /\ _deadParticles s' = []
       /\ _aliveParticles s' = _aliveParticles s ++ news
       /\ length news = 3%nat.
Proof.
  intros s0 s.
  assert (Hnew : System.new (mkOptions None None) Examples.draws = Ok (s0, Examples.draws))
    by (vm_compute; reflexivity).
  assert (Hrun : System.run [System.SpawnParticles 7] s0 Examples.draws
                 = Ok (s, Examples.draws)) by (vm_compute; reflexivity).
  assert (HN : inject_Z (Z.of_nat (length (_deadParticles s))) < 5)
    by (vm_compute; reflexivity).
  split; [vm_compute; reflexivity|].
  destruct (spawn_saturates (mkOptions None None) Examples.draws s0 Examples.draws
              [System.SpawnParticles 7] Examples.draws s Examples.draws 5
              Examples.draws Hnew Hrun HN)
    as (s' & rng' & news & E1 & E2 & E3 & E4 & _).
  exists s', rng', news. split; [exact E1|]. split; [exact E2|].
  split; [exact E3|]. rewrite E4. vm_compute. reflexivity.
Defined.

(** * Further properties of the code *)

(** ** More on the constructor *)

Lemma replaceSize_fields o :
  let o' := System.replaceSize o in
  o_alpha o' = o_alpha o /\ o_startAlpha o' = o_startAlpha o
  /\ o_endAlpha o' = o_endAlpha o /\ o_color o' = o_color o
  /\ o_startColor o' = o_startColor o /\ o_endColor o' = o_endColor o
  /\ o_startSize o' = o_startSize o /\ o_endSize o' = o_endSize o
  /\ defined (o_size o') = Spec.randomized (o_size o).
Proof.
  unfold System.replaceSize. destruct (o_size o) eqn:E; cbn; rewrite ?E; done.
Qed.

Lemma replaceColor_fields o :
  let o' := System.replaceColor o in
  o_alpha o' = o_alpha o /\ o_startAlpha o' = o_startAlpha o
  /\ o_endAlpha o' = o_endAlpha o /\ o_size o' = o_size o
  /\ o_startColor o' = o_startColor o /\ o_endColor o' = o_endColor o
  /\ o_startSize o' = o_startSize o /\ o_endSize o' = o_endSize o
  /\ defined (o_color o') = Spec.randomized (o_color o).
Proof.
  unfold System.replaceColor. destruct (o_color o) eqn:E; cbn; rewrite ?E; done.
Qed.

(** The rewriting of plain constants leaves the alpha options and every
    start and end value alone, and keeps a randomizer given as constant. *)
Lemma normalize_fields o :
  o_alpha (System.normalize o) = o_alpha o
  /\ o_startAlpha (System.normalize o) = o_startAlpha o
  /\ o_endAlpha (System.normalize o) = o_endAlpha o
  /\ o_startColor (System.normalize o) = o_startColor o
  /\ o_endColor (System.normalize o) = o_endColor o
  /\ o_startSize (System.normalize o) = o_startSize o
  /\ o_endSize (System.normalize o) = o_endSize o
  /\ defined (o_color (System.normalize o)) = Spec.randomized (o_color o)
  /\ defined (o_size (System.normalize o)) = Spec.randomized (o_size o).
Proof.
  destruct (replaceSize_fields o) as (S1 & S2 & S3 & S4 & S5 & S6 & S7 & S8 & S9).
  destruct (replaceColor_fields (System.replaceSize o))
    as (C1 & C2 & C3 & C4 & C5 & C6 & C7 & C8 & C9).
  unfold System.normalize.
  change (o_alpha (System.setFlags ?x)) with (o_alpha x).
  change (o_startAlpha (System.setFlags ?x)) with (o_startAlpha x).
  change (o_endAlpha (System.setFlags ?x)) with (o_endAlpha x).
  change (o_startColor (System.setFlags ?x)) with (o_startColor x).
  change (o_endColor (System.setFlags ?x)) with (o_endColor x).
  change (o_startSize (System.setFlags ?x)) with (o_startSize x).
  change (o_endSize (System.setFlags ?x)) with (o_endSize x).
  change (o_color (System.setFlags ?x)) with (o_color x).
  change (o_size (System.setFlags ?x)) with (o_size x).
  rewrite C4, C9, S4.
  repeat split; congruence.
Qed.

(** No validation error means none of the six tests fired. *)
Lemma validate_None o :
  System.validate o = None ->
  defined (o_startAlpha o) && negb (defined (o_endAlpha o)) = false
  /\ defined (o_startAlpha o) && defined (o_alpha o) = false
  /\ defined (o_startColor o) && negb (defined (o_endColor o)) = false
  /\ defined (o_startColor o) && defined (o_color o) = false
  /\ defined (o_startSize o) && negb (defined (o_endSize o)) = false
  /\ defined (o_startSize o) && defined (o_size o) = false.
Proof.
  unfold System.validate.
  destruct (defined (o_startAlpha o) && negb (defined (o_endAlpha o))); [done|].
  destruct (defined (o_startAlpha o) && defined (o_alpha o)); [done|].
  destruct (defined (o_startColor o) && negb (defined (o_endColor o))); [done|].
  destruct (defined (o_startColor o) && defined (o_color o)); [done|].
  destruct (defined (o_startSize o) && negb (defined (o_endSize o))); [done|].
  destruct (defined (o_startSize o) && defined (o_size o)); done.
Qed.

Lemma new_rejects options rng :
  System.validate
    (System.normalize (default System.defaultParticleOptions (particles options)))
  <> None ->
  exists msg,
    System.new options rng = Throw msg
    /\ System.validate
         (System.normalize (default System.defaultParticleOptions (particles options)))
       = Some msg.
Proof.
  intros H. unfold System.new.
  destruct (System.validate _) as [msg|]; [|done]. exists msg. done.
Qed.

(** X1. Options that give a start value of alpha, colour or size without
    its end value are rejected by the constructor with one of its
    validation errors, whatever else they hold. *)
Theorem start_without_end_is_rejected options po rng :
  particles options = Some po ->
  Spec.startWithoutEnd po = true ->
  exists msg,
    System.new options rng = Throw msg
    /\ System.validate (System.normalize po) = Some msg.
Proof.
  intros Hpo H.
  destruct (new_rejects options rng) as (msg & H1 & H2).
  - rewrite Hpo. simpl.
    intros Hv. apply validate_None in Hv as (V1 & _ & V3 & _ & V5 & _).
    destruct (normalize_fields po) as (_ & E2 & E3 & E4 & E5 & E6 & E7 & _).
    rewrite E2, E3 in V1. rewrite E4, E5 in V3. rewrite E6, E7 in V5.
    unfold Spec.startWithoutEnd in H. rewrite V1, V3, V5 in H. done.
  - exists msg. rewrite Hpo in H2. done.
Qed.

Lemma start_without_end_is_rejected_witness :
  exists msg,
    System.new
      (mkOptions (Some (mkParticleOptions None None Undefined (Const 0) Undefined None
         Undefined Undefined Undefined None Undefined Undefined Undefined None
         Undefined None None None None Undefined Undefined Undefined None
         Undefined false None None None None false false false false)) None)
      Examples.draws = Throw msg
    /\ msg = "When providing 'startAlpha' you must also provide 'endAlpha'!"%string.
Proof.
  destruct (start_without_end_is_rejected
              (mkOptions (Some (mkParticleOptions None None Undefined (Const 0) Undefined None
                 Undefined Undefined Undefined None Undefined Undefined Undefined None
                 Undefined None None None None Undefined Undefined Undefined None
                 Undefined false None None None None false false false false)) None)
              _ Examples.draws eq_refl eq_refl) as (msg & H1 & H2).
  exists msg. split; [exact H1|]. vm_compute in H2. congruence.
Defined.

(** X2. Options that give alpha both as a constant and as a start value, or
    a randomizer as constant size or colour together with a start value, are
    rejected by the constructor with one of its validation errors. *)
Theorem constant_and_start_is_rejected options po rng :
  particles options = Some po ->
  Spec.randomizedConstantAndStart po = true ->
  exists msg,
    System.new options rng = Throw msg
    /\ System.validate (System.normalize po) = Some msg.
Proof.
  intros Hpo H.
  destruct (new_rejects options rng) as (msg & H1 & H2).
  - rewrite Hpo. simpl.
    intros Hv. apply validate_None in Hv as (_ & V2 & _ & V4 & _ & V6).
    destruct (normalize_fields po) as (E1 & E2 & _ & E4 & _ & E6 & _ & E8 & E9).
    rewrite E1, E2 in V2. rewrite E4, E8 in V4. rewrite E6, E9 in V6.
    unfold Spec.randomizedConstantAndStart in H.
    rewrite (andb_comm (defined (o_alpha po))), V2 in H.
    rewrite (andb_comm (Spec.randomized (o_color po))), V4 in H.
    rewrite (andb_comm (Spec.randomized (o_size po))), V6 in H. done.
  - exists msg. rewrite Hpo in H2. done.
Qed.

Lemma constant_and_start_is_rejected_witness :
  exists msg,
    System.new (mkOptions (Some Examples.alphaAndStartAlpha) None) Examples.draws
    = Throw msg
    /\ msg = "When providing 'alpha' you can't also provide 'startAlpha'!"%string.
Proof.
  destruct (constant_and_start_is_rejected
              (mkOptions (Some Examples.alphaAndStartAlpha) None)
              _ Examples.draws eq_refl eq_refl) as (msg & H1 & H2).
  exists msg. split; [exact H1|]. vm_compute in H2. congruence.
Defined.

Lemma resetTriple_oneMode enabled c s e r t r' :
  ParticleM.resetTriple enabled c s e r = Ok (t, r') ->
  Spec.oneMode t.1.1 t.1.2 t.2 /\ (enabled = false -> t = (None, None, None)).
Proof.
  intros H. apply resetTriple_inv in H as (_ & [[-> ->]|[[-> [x ->]]|[-> (x & y & ->)]]]);
    unfold Spec.oneMode; simpl; split; try done; auto.
Qed.

(** X3. Without an [onSpawn] hook, [reset] leaves a particle of age 0, not
    finished, with no world anchor and a time to live that is not 0, and
    puts each of alpha, colour and size in exactly one of three modes:
    unset, constant, or animated from a start to an end value; an attribute
    whose flag is off is unset. *)
Theorem reset_resolves_one_mode options rng p rng' :
  o_onSpawn options = None ->
  ParticleM.reset options rng = Ok (p, rng') ->
  age p = 0 /\ finished p = false /\ startWorldPosition p = None
  /\ ~ ttl p == 0
  /\ Spec.oneMode (alpha p) (startAlpha p) (endAlpha p)
  /\ Spec.oneMode (color p) (startColor p) (endColor p)
  /\ Spec.oneMode (size p) (startSize p) (endSize p)
  /\ (o_fade options = false -> alpha p = None /\ startAlpha p = None)
  /\ (o_colorize options = false -> color p = None /\ startColor p = None)
  /\ (o_scaling options = false -> size p = None /\ startSize p = None).
Proof.
  intros Hs. unfold ParticleM.reset. rewrite Hs. intros H.
  apply bind_ok in H as (v & r1 & Hv & H).
  apply bind_ok in H as (a & r2 & Ha & H).
  apply bind_ok in H as (pos & r3 & Hpos & H).
  apply bind_ok in H as (t & r4 & Ht & H).
  apply bind_ok in H as (alphas & r5 & Halphas & H).
  apply bind_ok in H as (colors & r6 & Hcolors & H).
  apply bind_ok in H as (sizes & r7 & Hsizes & H).
  apply bind_ok in H as (rot & r8 & Hrot & H).
  apply ret_ok in H as [<- _]. simpl.
  apply resetTriple_oneMode in Halphas as [A1 A2].
  apply resetTriple_oneMode in Hsizes as [S1 S2].
  assert (C : Spec.oneMode colors.1.1 colors.1.2 colors.2
              /\ (o_colorize options = false -> colors = (None, None, None))).
  { revert Hcolors. unfold Spec.oneMode. destruct (o_colorize options).
    - destruct (truthy (o_color options)).
      + intros H. apply bind_ok in H as (c & rc & _ & H).
        apply ret_ok in H as [<- _]. simpl. split; [|done]. right. left. done.
      + intros H. apply bind_ok in H as (c & rc & _ & H).
        apply bind_ok in H as (c' & rc' & _ & H).
        apply ret_ok in H as [<- _]. simpl. split; [|done]. right. right. done.
    - intros H. apply ret_ok in H as [<- _]. simpl. split; [|done]. left. done. }
  destruct C as [C1 C2].
  split; [done|]. split; [done|]. split; [done|].
  split.
  { unfold or. destruct (truthy t) eqn:E; [by apply truthy_num_true|]. done. }
  split; [done|]. split; [done|]. split; [done|].
  split; [intros Hf; by rewrite (A2 Hf)|].
  split; [intros Hf; by rewrite (C2 Hf)|].
  intros Hf. by rewrite (S2 Hf).
Qed.

Lemma reset_resolves_one_mode_witness :
  exists p rng',
    ParticleM.reset (Examples.constantAlpha (7 # 10)) Examples.draws = Ok (p, rng')
    /\ ~ ttl p == 0
    /\ Spec.oneMode (alpha p) (startAlpha p) (endAlpha p)
    /\ (size p = None /\ startSize p = None).
Proof.
  set (p := (default (Examples.resting, []) (Examples.firstUpdate (Examples.constantAlpha (7 # 10)))).1).
  assert (Hr : ParticleM.reset (Examples.constantAlpha (7 # 10)) Examples.draws
               = Ok (p, Examples.draws)) by (vm_compute; reflexivity).
  destruct (reset_resolves_one_mode (Examples.constantAlpha (7 # 10)) Examples.draws p
              Examples.draws eq_refl Hr)
    as (_ & _ & _ & H4 & H5 & _ & _ & _ & _ & H10).
  exists p, Examples.draws. split; [exact Hr|]. split; [exact H4|].
  split; [exact H5|]. exact (H10 eq_refl).
Defined.

(** ** The constructed system *)

Lemma newParticles_all_reset o n : forall dead rng dead' rng',
  System.newParticles o n dead rng = Ok (dead', rng') ->
  Forall (fun p => exists r r', ParticleM.reset o r = Ok (p, r')) dead ->
  Forall (fun p => exists r r', ParticleM.reset o r = Ok (p, r')) dead'.
Proof.
  induction n as [|n IH]; intros dead rng dead' rng'; simpl.
  - by intros [= <- _].
  - intros H Hd. apply bind_ok in H as (p & r1 & Hp & H).
    apply IH in H; [done|]. apply Forall_app. split; [done|].
    repeat constructor. eauto.
Qed.

(** X4. A system the constructor returns has no alive particle and a dead
    pool of [particlesCount] particles, 10 when the count is missing or 0,
    every one of them a result of [reset]; its position array has three
    slots per particle, its draw range is empty, its lifetime is that of
    the options, and its speed is that of the options, or 1 when the
    options give no speed or the speed 0. *)
Theorem constructed_system_is_all_dead options rng s rng' :
  System.new options rng = Ok (s, rng') ->
  let so := default System.defaultSystemOptions (system options) in
  let n := match particlesCount so with
           | None | Some O => 10%nat
           | Some k => k
           end in
  s_options s = so
  /\ _aliveParticles s = []
  /\ length (_deadParticles s) = n
  /\ Forall (fun p => exists r r', ParticleM.reset (p_options s) r = Ok (p, r'))
       (_deadParticles s)
  /\ length (position_array (geometry s)) = (n * 3)%nat
  /\ drawRange (geometry s) = 0%nat
  /\ s_ttl s = so_ttl so
  /\ ~ speed s == 0
  /\ (so_speed so = None -> speed s = 1)
  /\ (forall v, so_speed so = Some v -> v == 0 -> speed s = 1)
  /\ (forall v, so_speed so = Some v -> ~ v == 0 -> speed s = v).
Proof.
  unfold System.new.
  destruct (System.validate _) eqn:Ev; [done|].
  intros H. apply bind_ok in H as (dead & r1 & Hd & H).
  apply ret_ok in H as [<- _]. simpl.
  pose proof (newParticles_spec _ _ _ _ _ _ Hd) as [Hlen _].
  pose proof (newParticles_all_reset _ _ _ _ _ _ Hd (Forall_nil_2 _)) as Hall.
  assert (Hn : System.particleCount (default System.defaultSystemOptions (system options))
               = match particlesCount (default System.defaultSystemOptions (system options)) with
                 | None | Some O => 10%nat
                 | Some k => k
                 end).
  { unfold System.particleCount. by repeat case_match. }
  rewrite <- Hn.
  split; [done|]. split; [done|]. split; [done|]. split; [done|].
  split; [by rewrite length_replicate|]. split; [done|]. split; [done|].
  unfold or. split; [|split; [|split]].
  - destruct (truthy _) eqn:E; [by apply truthy_num_true|]. done.
  - intros ->. reflexivity.
  - intros v -> Hv. simpl. by rewrite (proj2 (truthy_num_false v) Hv).
  - intros v -> Hv. simpl. by rewrite (proj2 (truthy_num_true v) Hv).
Qed.

Lemma constructed_system_is_all_dead_witness :
  let s := Examples.systemOf (mkOptions None None) in
  _aliveParticles s = [] /\ length (_deadParticles s) = 10%nat
  /\ length (position_array (geometry s)) = 30%nat
  /\ speed s = 1.
Proof.
  intros s.
  assert (Hnew : System.new (mkOptions None None) Examples.draws = Ok (s, Examples.draws))
    by (vm_compute; reflexivity).
  destruct (constructed_system_is_all_dead _ _ _ _ Hnew)
    as (_ & H2 & H3 & _ & H5 & _ & _ & _ & H9 & _).
  split; [exact H2|]. split; [exact H3|]. split; [exact H5|].
  apply H9. reflexivity.
Defined.

(** ** Updates after the first *)

(** The alpha and the size an update after the first writes. *)
Lemma later_update_pushes options w index dt p p' cs :
  finished p = false -> ~ age p == 0 ->
  ParticleM.update options w index dt p = Ok (p', cs) ->
  Spec.pushedAlphas cs
  = match ParticleM.animated (startAlpha p) (endAlpha p) (startAlphaChangeAt p) (age p) with
    | Some a => [Some a]
    | None => []
    end
  /\ Spec.pushedSizes cs
     = match ParticleM.animated (startSize p) (endSize p) (startSizeChangeAt p) (age p) with
       | Some a => [Some a]
       | None => []
       end.
Proof.
  intros Hf Ha. unfold ParticleM.update. rewrite Hf.
  rewrite (anchor_later _ _ _ Ha).
  apply Qeq_bool_false in Ha. rewrite Ha.
  destruct (ParticleM.animatedCalls index p) as [c1|] eqn:E1; [|done].
  destruct (ParticleM.rotate _ _ _) as [p2 c2] eqn:E2. simpl.
  intros [= _ <-].
  assert (Hc2 : Spec.pushedAlphas c2 = [] /\ Spec.pushedSizes c2 = []).
  { revert E2. unfold ParticleM.rotate. repeat case_match; by intros [= <- <-]. }
  destruct Hc2 as [Hc2 Hc2'].
  unfold Spec.pushedAlphas, Spec.pushedSizes in *.
  rewrite !omap_app, Hc2, Hc2'. simpl. rewrite !app_nil_r.
  revert E1. unfold ParticleM.animatedCalls.
  destruct (ParticleM.animated (startAlpha p) _ _ _),
    (ParticleM.animated (startSize p) _ _ _);
    (destruct (startColor p) as [sc|];
     [destruct (Qle_bool (startColorChangeAt p) (age p));
      [destruct (endColor p) as [ec|]; [|done]|]|]);
    intros [= <-]; done.
Qed.

(** X9. An animated alpha with a threshold other than 1: nothing is
    written before the age reaches the threshold; from then on the value
    written is the [lerp] of the start and end values at the factor
    [(age - threshold) / (1 - threshold)], which is the age itself for the
    threshold 0; it is the start value at the threshold and the end value
    at age 1. *)
Theorem animated_alpha_is_linear options w index dt p p' cs s e :
  finished p = false -> ~ age p == 0 ->
  startAlpha p = Some s -> endAlpha p = Some e ->
  ~ startAlphaChangeAt p == 1 ->
  ParticleM.update options w index dt p = Ok (p', cs) ->
  let c := startAlphaChangeAt p in
  (age p < c -> Spec.pushedAlphas cs = [])
  /\ (c <= age p ->
      exists v, Spec.pushedAlphas cs = [Some v]
        /\ v == Utils.lerp s e ((age p - c) / (1 - c))
        /\ (c == 0 -> v == Utils.lerp s e (age p))
        /\ (age p == c -> v == s)
        /\ (age p == 1 -> v == e)).
Proof.
  intros Hf Ha Hs He Hc1 Hu c.
  destruct (later_update_pushes _ _ _ _ _ _ _ Hf Ha Hu) as [H _].
  rewrite H. unfold ParticleM.animated. rewrite Hs, He. fold c. simpl.
  split.
  - intros Hlt. by rewrite (proj2 (Qle_bool_false c (age p)) Hlt).
  - intros Hle. rewrite (proj2 (Qle_bool_iff c (age p)) Hle).
    eexists. split; [reflexivity|].
    assert (Hd : ~ 1 - c == 0) by (fold c in Hc1; lra).
    unfold Utils.lerp, ParticleM.factor.
    destruct (truthy c) eqn:Ec.
    + apply truthy_num_true in Ec.
      split; [reflexivity|].
      split; [done|].
      split; [intros Hac; rewrite Hac; field; exact Hd|].
      intros H1. rewrite H1. field. exact Hd.
    + apply truthy_num_false in Ec.
      split; [rewrite Ec; field; lra|].
      split; [intros _; reflexivity|].
      split; [intros Hac; rewrite Hac, Ec; ring|].
      intros H1. rewrite H1. ring.
Qed.

Lemma animated_alpha_is_linear_witness :
  let p := Examples.fading in
  exists v,
    Spec.pushedAlphas (Examples.updated (Examples.withTtl 2) Vec.zero (1 # 2) p).2
    = [Some v]
    /\ v == 1 # 4.
Proof.
  intros p.
  assert (Ha : ~ age p == 0) by discriminate.
  assert (Hc : ~ startAlphaChangeAt p == 1) by discriminate.
  assert (Hu : ParticleM.update (Examples.withTtl 2) Vec.zero 0 (1 # 2) p
               = Ok ((Examples.updated (Examples.withTtl 2) Vec.zero (1 # 2) p).1,
                     (Examples.updated (Examples.withTtl 2) Vec.zero (1 # 2) p).2))
    by (vm_compute; reflexivity).
  destruct (animated_alpha_is_linear (Examples.withTtl 2) Vec.zero 0 (1 # 2) p _ _ 0 1
              eq_refl Ha eq_refl eq_refl Hc Hu) as [_ H].
  destruct (H ltac:(discriminate)) as (v & Hv & _ & H0 & _).
  exists v. split; [exact Hv|]. rewrite (H0 ltac:(reflexivity)).
  vm_compute. reflexivity.
Defined.

(** X10. An attribute in constant mode is written by the first update only:
    every later update writes no alpha (respectively size), and without a
    hook leaves the constant in place. *)
Theorem constant_mode_is_never_animated options w index dt p p' cs :
  finished p = false -> ~ age p == 0 ->
  ParticleM.update options w index dt p = Ok (p', cs) ->
  (startAlpha p = None ->
     Spec.pushedAlphas cs = []
     /\ (o_onUpdate options = None ->
         alpha p' = alpha p /\ startAlpha p' = None))
  /\ (startSize p = None ->
      Spec.pushedSizes cs = []
      /\ (o_onUpdate options = None ->
          size p' = size p /\ startSize p' = None)).
Proof.
  intros Hf Ha Hu.
  destruct (later_update_pushes _ _ _ _ _ _ _ Hf Ha Hu) as [H1 H2].
  pose proof (update_inv _ _ _ _ _ _ _ Hf Hu) as Hp'.
  destruct (advanced_modes options w index dt p) as [Hm _].
  assert (Hmodes : o_onUpdate options = None -> Spec.modes p' = Spec.modes p).
  { intros Hh. rewrite Hp'. unfold ParticleM.callOnUpdate. rewrite Hh.
    cbv zeta in Hm. rewrite <- Hm. unfold ParticleM.finish.
    destruct (ltb _ _); reflexivity. }
  split; intros Hs.
  - rewrite H1. unfold ParticleM.animated. rewrite Hs. split; [done|].
    intros Hh. specialize (Hmodes Hh). unfold Spec.modes in Hmodes.
    injection Hmodes as -> -> _ _ _ _ _ _. done.
  - rewrite H2. unfold ParticleM.animated. rewrite Hs. split; [done|].
    intros Hh. specialize (Hmodes Hh). unfold Spec.modes in Hmodes.
    injection Hmodes as _ _ _ _ _ -> -> _. done.
Qed.

Lemma constant_mode_is_never_animated_witness :
  let p := Examples.opaque in
  let r := Examples.updated (Examples.constantAlpha (7 # 10)) Vec.zero (1 # 2) p in
  Spec.pushedAlphas r.2 = [] /\ alpha r.1 = Some (7 # 10).
Proof.
  intros p r.
  assert (Ha : ~ age p == 0) by discriminate.
  assert (Hu : ParticleM.update (Examples.constantAlpha (7 # 10)) Vec.zero 0 (1 # 2) p
               = Ok (r.1, r.2)) by (vm_compute; reflexivity).
  destruct (constant_mode_is_never_animated (Examples.constantAlpha (7 # 10)) Vec.zero 0
              (1 # 2) p r.1 r.2 eq_refl Ha Hu) as [H _].
  destruct (H eq_refl) as [H1 H2]. destruct (H2 eq_refl) as [H3 _].
  split; [exact H1|exact H3].
Defined.

(** ** Rotation *)

Lemma pushedRotations_app cs cs' :
  Spec.pushedRotations (cs ++ cs') = Spec.pushedRotations cs ++ Spec.pushedRotations cs'.
Proof. unfold Spec.pushedRotations. apply omap_app. Qed.

(** X11. A particle with a rotation speed other than 0 turns by the speed times
    the delta time at every update, at any age, and the new angle is the
    last rotation the update writes; with no speed, or a speed of 0, an
    update after the first writes no rotation. *)
Theorem rotation_advances_every_update options w index dt p p' cs :
  finished p = false ->
  ParticleM.update options w index dt p = Ok (p', cs) ->
  (forall sp, rotationSpeed p = Some sp -> ~ sp == 0 ->
     last (Spec.pushedRotations cs) = Some (to_number (rotation p) + sp * dt)
     /\ (o_onUpdate options = None ->
         rotation p' = Some (to_number (rotation p) + sp * dt)))
  /\ (truthy (rotationSpeed p) = false -> ~ age p == 0 ->
      Spec.pushedRotations cs = []).
Proof.
  intros Hf Hu.
  pose proof (update_inv _ _ _ _ _ _ _ Hf Hu) as Hp'.
  revert Hu. unfold ParticleM.update. rewrite Hf.
  destruct (if Qeq_bool (age p) 0 then _ else _) as [c1|] eqn:E1; [|done].
  destruct (ParticleM.rotate index dt (ParticleM.anchor options w p)) as [p2 c2] eqn:E2.
  intros [= _ <-].
  destruct (anchor_modes options w p) as [Hm Hr].
  assert (Hs : rotationSpeed (ParticleM.anchor options w p) = rotationSpeed p).
  { unfold Spec.modes in Hm. congruence. }
  rewrite !pushedRotations_app. simpl.
  split.
  - intros sp Hsp Hnz.
    assert (Ht : truthy sp = true) by (by apply truthy_num_true).
    revert E2. unfold ParticleM.rotate. rewrite Hs, Hsp, Ht, Hr. intros [= <- <-].
    split.
    + rewrite app_nil_r.
      change (Spec.pushedRotations [SetRotation index (to_number (rotation p) + sp * dt)])
        with [to_number (rotation p) + sp * dt].
      apply last_snoc.
    + intros Hh. rewrite Hp'. unfold ParticleM.callOnUpdate. rewrite Hh.
      simpl.
      unfold ParticleM.finish, ParticleM.advanceAge, ParticleM.accelerate,
        ParticleM.integrate. simpl.
      repeat case_match; reflexivity.
  - intros Ht Ha.
    assert (Hc2 : c2 = []).
    { revert E2. unfold ParticleM.rotate. rewrite Hs.
      destruct (rotationSpeed p) as [sp|]; [|by intros [= _ <-]].
      change (truthy (Some sp)) with (truthy sp) in Ht. rewrite Ht.
      by intros [= _ <-]. }
    rewrite Hc2. simpl. rewrite app_nil_r.
    apply Qeq_bool_false in Ha. rewrite Ha in E1.
    revert E1. unfold ParticleM.animatedCalls.
    repeat case_match; intros; simplify_eq; done.
Qed.

Lemma rotation_advances_every_update_witness :
  let r := Examples.updated (Examples.withTtl 2) Vec.zero (1 # 2) Examples.spinning in
  last (Spec.pushedRotations r.2) = Some (1 + 2 * (1 # 2))
  /\ rotation r.1 = Some (1 + 2 * (1 # 2)).
Proof.
  intros r.
  assert (Hu : ParticleM.update (Examples.withTtl 2) Vec.zero 0 (1 # 2) Examples.spinning
               = Ok (r.1, r.2)) by (vm_compute; reflexivity).
  destruct (rotation_advances_every_update (Examples.withTtl 2) Vec.zero 0 (1 # 2)
              Examples.spinning r.1 r.2 eq_refl Hu) as [H _].
  assert (Hnz : ~ 2 == 0) by discriminate.
  destruct (H 2 eq_refl Hnz) as [H1 H2].
  split; [exact H1|exact (H2 eq_refl)].
Defined.

(** ** What the loops of the system touch *)

(** [spawnParticles] changes the two pools only, and only appends to the
    alive list. *)
Lemma spawnLoop_pools fuel : forall i quantity s rng s' rng',
  System.spawnLoop fuel i quantity s rng = Ok (s', rng') ->
  s' = with_pools (_aliveParticles s') (_deadParticles s') s
  /\ exists news, _aliveParticles s' = _aliveParticles s ++ news.
Proof.
  induction fuel as [|fuel IH]; intros i quantity s rng s' rng'; simpl.
  - intros [= <- <-]. split; [by destruct s|]. exists []. by rewrite app_nil_r.
  - destruct (ltb i quantity).
    2:{ intros [= <- <-]. split; [by destruct s|]. exists []. by rewrite app_nil_r. }
    destruct (pop (_deadParticles s)) as [[x dead']|] eqn:Hpop.
    2:{ intros [= <- <-]. split; [by destruct s|]. exists []. by rewrite app_nil_r. }
    intros H. apply bind_ok in H as (p & r1 & _ & H).
    apply IH in H as (Hs' & news & Hnews). simpl in *.
    split; [rewrite Hs' at 1; done|].
    exists (p :: news). rewrite Hnews, <- app_assoc. done.
Qed.

Lemma emit_pools dt es : forall s rng es' s' rng',
  System.emit dt es s rng = Ok ((es', s'), rng') ->
  s' = with_pools (_aliveParticles s') (_deadParticles s') s
  /\ length es' = length es.
Proof.
  induction es as [|e es IH]; intros s rng es' s' rng'; simpl.
  - intros [= <- <- _]. split; [by destruct s|done].
  - intros H. apply bind_ok in H as (r & r1 & _ & H).
    apply bind_ok in H as (s1 & r2 & Hs1 & H).
    apply bind_ok in H as ([es2 s2] & r3 & Hrest & H).
    apply ret_ok in H as [H _]. injection H as <- <-. simpl in *.
    apply IH in Hrest as (Hs2 & Hlen).
    assert (H1 : s1 = with_pools (_aliveParticles s1) (_deadParticles s1) s).
    { destruct (truthy r.1).
      - apply spawnLoop_pools in Hs1 as [Hs1 _]. exact Hs1.
      - apply ret_ok in Hs1 as [<- _]. by destruct s. }
    split; [|by rewrite Hlen].
    rewrite Hs2 at 1. rewrite H1. done.
Qed.

Lemma applyCalls_drawRange cs : forall s s',
  System.applyCalls cs s = Ok s' ->
  drawRange (geometry s') = drawRange (geometry s).
Proof.
  induction cs as [|c cs IH]; intros s s'; simpl.
  - by intros [= <-].
  - destruct (System.applyCall c s) as [s1|] eqn:E; [|done].
    intros H. apply IH in H. rewrite H. clear H. revert E.
    destruct c; simpl; unfold System.setAlpha, System.setColor, System.setSize,
      System.setRotation, System.setPosition; repeat case_match; try done;
      by intros [= <-].
Qed.

(** The loop over the alive particles: it keeps everything but the pools,
    the attribute arrays and the dirty flags, never lengthens the alive
    list, and leaves no finished particle at an index it went through. *)
Lemma updateParticles_shape n : forall dt s s',
  (n <= length (_aliveParticles s))%nat ->
  System.updateParticles n dt s = Ok s' ->
  s' = with_pools (_aliveParticles s') (_deadParticles s')
         (with_geometry (geometry s') (dirty s') s)
  /\ drawRange (geometry s') = drawRange (geometry s)
  /\ (length (_aliveParticles s') <= length (_aliveParticles s))%nat
  /\ (Forall (fun p => finished p = false) (drop n (_aliveParticles s)) ->
      Forall (fun p => finished p = false) (_aliveParticles s')).
Proof.
  induction n as [|i IH]; intros dt s s' Hn; simpl.
  - intros [= <-]. split; [by destruct s|]. split; [done|]. split; [done|].
    by rewrite drop_0.
  - destruct (_aliveParticles s !! i) as [p|] eqn:Hp; [|done].
    destruct (ParticleM.update _ _ _ _ _) as [[p' cs]|]; [|done].
    destruct (System.applyCalls cs s) as [s1|] eqn:Hs1; [|done].
    pose proof (applyCalls_drawRange _ _ _ Hs1) as Hdr.
    apply applyCalls_frame in Hs1.
    assert (Ha : _aliveParticles s1 = _aliveParticles s) by (by rewrite Hs1).
    intros H. apply IH in H.
    + destruct H as (Hs' & Hd & Hl & Hf).
      split.
      { rewrite Hs' at 1. rewrite Hs1. by destruct (finished p'). }
      split.
      { rewrite Hd. by destruct (finished p'). }
      split.
      { etrans; [exact Hl|]. destruct (finished p'); simpl; rewrite Ha.
        - rewrite length_delete by (by rewrite Hp). lia.
        - by rewrite length_insert. }
      intros Hdrop. apply Hf. apply Forall_lookup. intros j x.
      rewrite lookup_drop.
      destruct (finished p') eqn:Hfp; simpl; rewrite Ha.
      * rewrite list_lookup_delete_ge by lia. intros Hx.
        apply (proj1 (Forall_lookup _ _) Hdrop j x).
        rewrite lookup_drop. rewrite <- Hx. f_equal; lia.
      * destruct j as [|j].
        -- rewrite Nat.add_0_r, list_lookup_insert_eq by (by apply lookup_lt_Some in Hp).
           by intros [= <-].
        -- rewrite list_lookup_insert_ne by lia. intros Hx.
           apply (proj1 (Forall_lookup _ _) Hdrop j x).
           rewrite lookup_drop. rewrite <- Hx. f_equal; lia.
    + destruct (finished p'); simpl; rewrite Ha.
      * rewrite length_delete by (by rewrite Hp). lia.
      * rewrite length_insert. lia.
Qed.

(** One frame of the system, field by field. *)
Lemma system_update_shape dt s rng s' rng' :
  System.update dt s rng = Ok (s', rng') ->
  ~ dt == 0 ->
  s_ttl s' = match s_ttl s with
             | Some t => if ltb 0 t then Some (t - dt) else Some t
             | None => None
             end
  /\ s_age s' == s_age s + dt * speed s
  /\ speed s' = speed s
  /\ s_dt s' = Some (dt * speed s)
  /\ Forall (fun p => finished p = false) (_aliveParticles s')
  /\ drawRange (geometry s')
     = (if (length (_aliveParticles s) =? length (_aliveParticles s'))%nat
        then drawRange (geometry s) else length (_aliveParticles s'))
  /\ length (_emitters s') = length (_emitters s)
  /\ (System.ttlExpired s' = true ->
      (length (_aliveParticles s') <= length (_aliveParticles s))%nat
      /\ _emitters s' = _emitters s).
Proof.
  unfold System.update. intros H Hdt.
  rewrite (proj2 (Qeq_bool_false _ _) Hdt) in H.
  set (ttl' := match s_ttl s with
               | Some t => if ltb 0 t then Some (t - dt) else Some t
               | None => None
               end) in *.
  apply bind_ok in H as (s1 & r1 & Hs1 & H).
  destruct (System.updateParticles _ _ s1) as [s2|] eqn:Hs2; [|done].
  apply ret_ok in H as [<- _].
  apply updateParticles_shape in Hs2 as (Hshape & Hdr & Hlen & Hfin); [|lia].
  specialize (Hfin ltac:(rewrite drop_all; constructor)).
  set (s0 := mkSystem _ _ _ _ _ _ _ _ _ _ _ _ _ _ _ _) in Hs1.
  assert (H1 : s_ttl s1 = ttl' /\ s_age s1 = s_age s + dt * speed s
               /\ speed s1 = speed s /\ s_dt s1 = Some (dt * speed s)
               /\ geometry s1 = geometry s
               /\ length (_emitters s1) = length (_emitters s)
               /\ (System.ttlExpired s0 = true -> s1 = s0)).
  { destruct (System.ttlExpired s0) eqn:Hexp; simpl in Hs1.
    - apply ret_ok in Hs1 as [<- _]. done.
    - apply bind_ok in Hs1 as ([es' s1'] & r2 & Hemit & Hs1).
      apply ret_ok in Hs1 as [<- _]. simpl.
      apply emit_pools in Hemit as [-> Hl]. done. }
  destruct H1 as (Ht & Ha & Hsp & Hd & Hg & He & Hex).
  assert (Hf : forall X (f : ParticlesSystem -> X),
             (forall a d g y t, f (with_pools a d (with_geometry g y t)) = f t) ->
             f s2 = f s1).
  { intros X f Hf. rewrite Hshape. apply Hf. }
  split; [simpl; rewrite (Hf _ s_ttl); done|].
  split; [simpl; rewrite (Hf _ s_age), ?Ha; done|].
  split; [simpl; rewrite (Hf _ speed); done|].
  split; [simpl; rewrite (Hf _ s_dt); done|].
  split; [exact Hfin|].
  split; [simpl; rewrite Hdr, Hg; done|].
  split; [simpl; rewrite (Hf _ (fun x => length (_emitters x))); done|].
  unfold System.ttlExpired. simpl. rewrite (Hf _ s_ttl) by done. rewrite Ht.
  intros Hexp. specialize (Hex Hexp). subst s1.
  split; [exact Hlen|]. rewrite (Hf _ _emitters) by done. done.
Qed.


(** X14. The lifetime of the system counts down by the frame time as the
    caller gave it, not by the time scaled with [speed], and it stops
    counting once it is 0 or below.  The age advances by the scaled
    time. *)
Theorem system_ttl_counts_down_unscaled dt s rng s' rng' :
  System.update dt s rng = Ok (s', rng') ->
  ~ dt == 0 ->
  (forall t, s_ttl s = Some t -> 0 < t -> s_ttl s' = Some (t - dt))
  /\ (forall t, s_ttl s = Some t -> t <= 0 -> s_ttl s' = Some t)
  /\ s_age s' == s_age s + dt * speed s.
Proof.
  intros H Hdt. apply system_update_shape in H as (Ht & Ha & _); [|done].
  split.
  { intros t Hs Hpos. rewrite Hs in Ht. by rewrite (proj2 (ltb_true _ _) Hpos) in Ht. }
  split; [|done].
  intros t Hs Hle. rewrite Hs in Ht.
  destruct (ltb 0 t) eqn:E; [|done]. apply ltb_true in E. lra.
Qed.

(** X15. Once the lifetime has run out, and already on the frame during
    which it runs out, the emitters are not consulted: they keep their
    state and the number of alive particles does not grow. *)
Theorem expired_system_spawns_nothing dt s rng s' rng' t :
  System.update dt s rng = Ok (s', rng') ->
  ~ dt == 0 ->
  s_ttl s = Some t ->
  t <= 0 \/ t <= dt ->
  System.ttlExpired s' = true
  /\ _emitters s' = _emitters s
  /\ (length (_aliveParticles s') <= length (_aliveParticles s))%nat.
Proof.
  intros H Hdt Ht Hle.
  apply system_update_shape in H as (Ht' & _ & _ & _ & _ & _ & _ & Hexp); [|done].
  rewrite Ht in Ht'.
  assert (E : System.ttlExpired s' = true).
  { unfold System.ttlExpired. rewrite Ht'.
    destruct (ltb 0 t) eqn:E; apply Qle_bool_iff.
    - apply ltb_true in E. lra.
    - apply ltb_false in E. lra. }
  split; [exact E|]. destruct (Hexp E). done.
Qed.

Lemma update_drawRange dt s rng s' rng' :
  System.update dt s rng = Ok (s', rng') ->
  drawRange (geometry s) = length (_aliveParticles s) ->
  drawRange (geometry s') = length (_aliveParticles s').
Proof.
  intros H Hd. destruct (Qeq_bool dt 0) eqn:Hdt.
  - unfold System.update in H. rewrite Hdt in H. apply ret_ok in H as [<- _]. done.
  - apply Qeq_bool_false in Hdt.
    apply system_update_shape in H as (_ & _ & _ & _ & _ & Hr & _); [|done].
    rewrite Hr. destruct (_ =? _)%nat eqn:E; [|done].
    apply Nat.eqb_eq in E. by rewrite Hd.
Qed.

(** X16. As long as a constructed system is only driven by [update], the
    draw range of its geometry is the number of alive particles. *)
Theorem draw_range_follows_frames options rng0 s0 rng1 ops rng s rng' :
  System.new options rng0 = Ok (s0, rng1) ->
  Forall (fun op => Spec.isUpdate op = true) ops ->
  System.run ops s0 rng = Ok (s, rng') ->
  drawRange (geometry s) = length (_aliveParticles s).
Proof.
  intros Hnew Hops.
  assert (H0 : drawRange (geometry s0) = length (_aliveParticles s0)).
  { apply new_spec in Hnew as (_ & _ & _ & _ & Ha & _ & Hg & _).
    by rewrite Hg, Ha. }
  clear Hnew. revert s0 rng H0.
  induction Hops as [|op ops Hop _ IH]; intros s0 rng H0; simpl.
  - intros H. apply ret_ok in H as [<- _]. done.
  - intros H. apply bind_ok in H as (s1 & r1 & Hstep & H).
    apply IH in H; [done|].
    destruct op; try done. simpl in Hstep.
    by apply update_drawRange in Hstep.
Qed.

(** X17. A frame touches the draw range only when the number of alive
    particles at its end differs from the number at its start: particles
    spawned by hand between two frames stay outside the draw range until
    some later frame changes the count. *)
Theorem frame_with_same_count_keeps_draw_range dt s rng s' rng' :
  System.update dt s rng = Ok (s', rng') ->
  length (_aliveParticles s') = length (_aliveParticles s) ->
  drawRange (geometry s') = drawRange (geometry s).
Proof.
  intros H Hl. destruct (Qeq_bool dt 0) eqn:Hdt.
  - unfold System.update in H. rewrite Hdt in H. apply ret_ok in H as [<- _]. done.
  - apply Qeq_bool_false in Hdt.
    apply system_update_shape in H as (_ & _ & _ & _ & _ & Hr & _); [|done].
    rewrite Hr, Hl, Nat.eqb_refl. done.
Qed.

(** ** A system without lifetime *)

Lemma step_keeps_undefined_ttl op s rng s' rng' :
  System.step op s rng = Ok (s', rng') ->
  op <> System.GracefulStop ->
  s_ttl s = None -> so_ttl (s_options s) = None ->
  s_ttl s' = None.
Proof.
  destruct op; simpl; intros H Hop Ht Ho; try done.
  - destruct (Qeq_bool deltaTime 0) eqn:E.
    + unfold System.update in H. rewrite E in H. apply ret_ok in H as [<- _]. done.
    + apply Qeq_bool_false in E.
      apply system_update_shape in H as (H & _); [|done]. by rewrite Ht in H.
  - apply spawnLoop_pools in H as [-> _]. done.
  - apply ret_ok in H as [<- _]. done.
  - apply ret_ok in H as [<- _]. done.
  - apply ret_ok in H as [<- _]. done.
  - apply ret_ok in H as [<- _]. done.
Qed.

(** X27. A system constructed with an undefined lifetime never expires:
    after any operations other than [gracefulStop] its lifetime is still
    undefined, it is not expired and it does not report finished, also
    when no particle is alive. *)
Theorem system_without_ttl_never_finishes options rng0 s0 rng1 ops rng s rng' :
  System.new options rng0 = Ok (s0, rng1) ->
  so_ttl (default System.defaultSystemOptions (system options)) = None ->
  Forall (fun op => op <> System.GracefulStop) ops ->
  System.run ops s0 rng = Ok (s, rng') ->
  s_ttl s = None /\ System.ttlExpired s = false /\ System.finished s = false.
Proof.
  intros Hnew Hso Hops Hrun.
  apply new_spec in Hnew as (_ & Hs & _ & _ & _ & _ & _ & _ & Ht).
  rewrite <- Hs in Hso. rewrite Hso in Ht. clear Hs.
  assert (H : s_ttl s = None).
  { revert s0 rng Hso Ht Hrun.
    induction Hops as [|op ops Hop _ IH]; intros s0 rng Hso Ht; simpl.
    - intros H. apply ret_ok in H as [<- _]. done.
    - intros H. apply bind_ok in H as (s1 & r1 & Hstep & H).
      pose proof (step_keeps_undefined_ttl _ _ _ _ _ Hstep Hop Ht Hso) as Ht1.
      apply step_frame in Hstep as (_ & Ho & _).
      apply (IH s1 r1); [by rewrite Ho|done|done]. }
  unfold System.finished, System.ttlExpired. by rewrite H.
Qed.

Lemma system_without_ttl_never_finishes_witness :
  let s0 := Examples.systemOf (mkOptions None None) in
  let ops := [System.SpawnParticles 2; System.Update 3; System.Reset; System.Update 1] in
  let s := Examples.after ops s0 in
  System.run ops s0 Examples.draws = Ok (s, Examples.draws)
  /\ _aliveParticles s = []
  /\ s_ttl s = None /\ System.ttlExpired s = false /\ System.finished s = false.
Proof.
  intros s0 ops s.
  assert (Hnew : System.new (mkOptions None None) Examples.draws = Ok (s0, Examples.draws))
    by (vm_compute; reflexivity).
  assert (Hrun : System.run ops s0 Examples.draws = Ok (s, Examples.draws))
    by (vm_compute; reflexivity).
  split; [exact Hrun|]. split; [vm_compute; reflexivity|].
  apply (system_without_ttl_never_finishes (mkOptions None None) Examples.draws s0
           Examples.draws ops Examples.draws s Examples.draws Hnew);
    [reflexivity| |exact Hrun].
  repeat constructor; discriminate.
Defined.

(** ** The number of particles a call of [spawnParticles] activates *)

Lemma lt_ceiling (m : nat) (q : Q) :
  inject_Z (Z.of_nat m) < q <-> (m < Z.to_nat (Qceiling q))%nat.
Proof.
  split.
  - intros H.
    assert (Z.of_nat m < Qceiling q)%Z; [|lia].
    rewrite Zlt_Qlt. eapply Qlt_le_trans; [exact H|apply Qle_ceiling].
  - intros H.
    assert (Hz : (Z.of_nat m <= Qceiling q - 1)%Z) by lia.
    rewrite Zle_Qle in Hz.
    eapply Qle_lt_trans; [exact Hz|apply Qceiling_lt].
Qed.

Lemma spawnLoop_count fuel : forall i m quantity s rng s' rng',
  i == inject_Z (Z.of_nat m) ->
  (length (_deadParticles s) < fuel)%nat ->
  System.spawnLoop fuel i quantity s rng = Ok (s', rng') ->
  length (_aliveParticles s')
  = (length (_aliveParticles s)
     + Nat.min (length (_deadParticles s)) (Z.to_nat (Qceiling quantity) - m))%nat.
Proof.
  induction fuel as [|fuel IH]; intros i m quantity s rng s' rng' Hi Hfuel; [lia|].
  simpl. destruct (ltb i quantity) eqn:Hlt.
  - apply ltb_true in Hlt. rewrite Hi in Hlt. apply lt_ceiling in Hlt.
    destruct (pop (_deadParticles s)) as [[x dead']|] eqn:Hpop.
    + apply pop_Some in Hpop. intros H.
      apply bind_ok in H as (p & r1 & _ & H).
      apply (IH _ (S m)) in H; simpl.
      * rewrite H. simpl. rewrite Hpop, !length_app. simpl. lia.
      * rewrite inject_S, Hi. reflexivity.
      * rewrite Hpop, length_app in Hfuel. simpl in Hfuel. lia.
    + apply pop_nil in Hpop. intros H. apply ret_ok in H as [<- _].
      rewrite Hpop. simpl. lia.
  - apply ltb_false in Hlt. rewrite Hi in Hlt.
    assert (Hm : ~ (m < Z.to_nat (Qceiling quantity))%nat).
    { intros Hm. apply lt_ceiling in Hm. lra. }
    intros H. apply ret_ok in H as [<- _]. lia.
Qed.

(** X18. [spawnParticles(q)] activates the count rounded up to the next
    integer, none for a count of 0 or below, and never more than the dead
    pool holds; the particles leave the dead pool. *)
Theorem spawn_count_is_rounded_up quantity s rng :
  Spec.resettable (p_options s) = true ->
  exists s' rng',
    System.spawnParticles quantity s rng = Ok (s', rng')
    /\ length (_aliveParticles s')
       = (length (_aliveParticles s)
          + Nat.min (length (_deadParticles s)) (Z.to_nat (Qceiling quantity)))%nat
    /\ length (_deadParticles s')
       = (length (_deadParticles s)
          - Nat.min (length (_deadParticles s)) (Z.to_nat (Qceiling quantity)))%nat.
Proof.
  intros Hres. unfold System.spawnParticles.
  destruct (spawnLoop_spec (S (length (_deadParticles s))) 0 quantity s rng Hres ltac:(lia))
    as (s' & rng' & news & Hrun & Hs' & Hle & _).
  exists s', rng'. split; [exact Hrun|].
  pose proof (spawnLoop_count (S (length (_deadParticles s))) 0 0%nat quantity s rng
                s' rng' ltac:(reflexivity) ltac:(lia) Hrun) as Hc.
  rewrite Nat.sub_0_r in Hc. split; [exact Hc|].
  rewrite Hs' in Hc |- *. simpl in *. rewrite length_app in Hc.
  rewrite length_take. lia.
Qed.


Lemma system_ttl_counts_down_unscaled_witness :
  let s := Examples.systemOf
             (mkOptions None (Some (mkSystemOptions None (Some 1) (Some 2) NoEmitters))) in
  let s' := Examples.after [System.Update (1 # 4)] s in
  System.update (1 # 4) s Examples.draws = Ok (s', Examples.draws)
  /\ speed s = 2
  /\ s_ttl s' = Some (1 - (1 # 4))
  /\ s_age s' == s_age s + (1 # 4) * speed s.
Proof.
  intros s s'.
  assert (H : System.update (1 # 4) s Examples.draws = Ok (s', Examples.draws))
    by (vm_compute; reflexivity).
  destruct (system_ttl_counts_down_unscaled (1 # 4) s Examples.draws s' Examples.draws H
              ltac:(discriminate)) as (H1 & _ & H2).
  split; [exact H|]. split; [vm_compute; reflexivity|].
  split; [|exact H2].
  apply (H1 1); [vm_compute; reflexivity|reflexivity].
Defined.

Lemma expired_system_spawns_nothing_witness :
  let s := Examples.systemOf
             (mkOptions None (Some (mkSystemOptions None (Some 1) None
                                      (OneEmitter Examples.intervalOnly)))) in
  let s' := Examples.after [System.Update 2] s in
  System.update 2 s Examples.draws = Ok (s', Examples.draws)
  /\ _emitters s = [Examples.intervalOnly]
  /\ System.ttlExpired s' = true
  /\ _emitters s' = _emitters s
  /\ (length (_aliveParticles s') <= length (_aliveParticles s))%nat.
Proof.
  intros s s'.
  assert (H : System.update 2 s Examples.draws = Ok (s', Examples.draws))
    by (vm_compute; reflexivity).
  split; [exact H|]. split; [vm_compute; reflexivity|].
  apply (expired_system_spawns_nothing 2 s Examples.draws s' Examples.draws 1 H).
  - discriminate.
  - vm_compute; reflexivity.
  - right. discriminate.
Defined.

Lemma draw_range_follows_frames_witness :
  let options := mkOptions None (Some (mkSystemOptions None None None
                                         (OneEmitter Examples.intervalOnly))) in
  let s0 := Examples.systemOf options in
  let ops := [System.Update (1 # 2); System.Update (1 # 4)] in
  let s := Examples.after ops s0 in
  System.new options Examples.draws = Ok (s0, Examples.draws)
  /\ System.run ops s0 Examples.draws = Ok (s, Examples.draws)
  /\ length (_aliveParticles s) = 10%nat
  /\ drawRange (geometry s) = length (_aliveParticles s).
Proof.
  intros options s0 ops s.
  assert (Hnew : System.new options Examples.draws = Ok (s0, Examples.draws))
    by (vm_compute; reflexivity).
  assert (Hrun : System.run ops s0 Examples.draws = Ok (s, Examples.draws))
    by (vm_compute; reflexivity).
  split; [exact Hnew|]. split; [exact Hrun|]. split; [vm_compute; reflexivity|].
  apply (draw_range_follows_frames options Examples.draws s0 Examples.draws ops
           Examples.draws s Examples.draws Hnew); [|exact Hrun].
  repeat constructor.
Defined.

Lemma frame_with_same_count_keeps_draw_range_witness :
  let s := Examples.after [System.SpawnParticles 2]
             (Examples.systemOf (mkOptions None None)) in
  let s' := Examples.after [System.Update (1 # 2)] s in
  System.update (1 # 2) s Examples.draws = Ok (s', Examples.draws)
  /\ length (_aliveParticles s') = 2%nat
  /\ drawRange (geometry s) = 0%nat
  /\ drawRange (geometry s') = drawRange (geometry s).
Proof.
  intros s s'.
  assert (H : System.update (1 # 2) s Examples.draws = Ok (s', Examples.draws))
    by (vm_compute; reflexivity).
  split; [exact H|]. split; [vm_compute; reflexivity|].
  split; [vm_compute; reflexivity|].
  apply (frame_with_same_count_keeps_draw_range (1 # 2) s Examples.draws s'
           Examples.draws H).
  vm_compute; reflexivity.
Defined.

Lemma spawn_count_is_rounded_up_witness :
  let s := Examples.systemOf (mkOptions None None) in
  exists s' rng',
    System.spawnParticles (5 # 2) s Examples.draws = Ok (s', rng')
    /\ length (_aliveParticles s') = 3%nat
    /\ length (_deadParticles s') = 7%nat.
Proof.
  intros s.
  destruct (spawn_count_is_rounded_up (5 # 2) s Examples.draws
              ltac:(vm_compute; reflexivity)) as (s' & rng' & H & Ha & Hd).
  exists s', rng'. split; [exact H|].
  split; [rewrite Ha|rewrite Hd]; vm_compute; reflexivity.
Defined.

(** ** sort.js *)

Ltac lookups :=
  repeat first
    [ rewrite list_lookup_insert_ne by lia
    | rewrite list_lookup_insert_eq by (rewrite ?length_insert; lia) ].

(** X19. [swapArray] exchanges the two slots, leaves every other slot and
    the length alone, and undoes itself when applied again. *)
Theorem swapArray_exchanges (array : list Q) l r :
  (l < length array)%nat -> (r < length array)%nat ->
  exists array',
    Sort.swapArray array l r = Some array'
    /\ array' !! l = array !! r
    /\ array' !! r = array !! l
    /\ (forall j, j <> l -> j <> r -> array' !! j = array !! j)
    /\ length array' = length array
    /\ Sort.swapArray array' l r = Some array.
Proof.
  intros Hl Hr. unfold Sort.swapArray.
  destruct (array !! l) as [x|] eqn:El; [|by apply lookup_ge_None in El; lia].
  destruct (array !! r) as [y|] eqn:Er; [|by apply lookup_ge_None in Er; lia].
  eexists. split; [reflexivity|].
  assert (H1 : <[r:=x]> (<[l:=y]> array) !! l = Some y).
  { destruct (decide (l = r)) as [->|Hne].
    - rewrite list_lookup_insert_eq by (rewrite length_insert; lia). congruence.
    - lookups. done. }
  assert (H2 : <[r:=x]> (<[l:=y]> array) !! r = Some x) by (by lookups).
  split; [done|]. split; [done|].
  split; [intros j ? ?; by lookups|].
  split; [by rewrite !length_insert|].
  rewrite H1, H2. f_equal.
  apply list_eq. intros j.
  destruct (decide (j = r)) as [->|Hr'].
  { rewrite list_lookup_insert_eq by (rewrite !length_insert; lia). done. }
  rewrite list_lookup_insert_ne by done.
  destruct (decide (j = l)) as [->|Hl'].
  { rewrite list_lookup_insert_eq by (rewrite !length_insert; lia). done. }
  by lookups.
Qed.

Lemma swapArray_exchanges_witness :
  exists array',
    Sort.swapArray [5; 3; 7; 6] 1 3 = Some array'
    /\ array' = [5; 6; 7; 3]
    /\ Sort.swapArray array' 1 3 = Some [5; 3; 7; 6].
Proof.
  destruct (swapArray_exchanges [5; 3; 7; 6] 1 3) as (a & H & _ & _ & _ & _ & Hback);
    [simpl; lia|simpl; lia|].
  exists a. split; [exact H|]. split; [|exact Hback].
  vm_compute in H. by injection H as <-.
Defined.

(** X20. [swapVectorArray] on a left triple that comes before the right
    one: the left triple receives the right one, but the right triple
    receives the first left component, keeps its own second component and
    gets the second left component as its third; the third left component
    goes to the slot after the right triple, when there is one.  The
    second and third components of the right vector are lost. *)
Theorem swapVectorArray_misplaces_components (array : list Q) l r :
  (l < r)%nat -> (r * 3 + 2 < length array)%nat ->
  exists array',
    Sort.swapVectorArray array l r = Some array'
    /\ length array' = length array
    /\ array' !! (l * 3)%nat = array !! (r * 3)%nat
    /\ array' !! (l * 3 + 1)%nat = array !! (r * 3 + 1)%nat
    /\ array' !! (l * 3 + 2)%nat = array !! (r * 3 + 2)%nat
    /\ array' !! (r * 3)%nat = array !! (l * 3)%nat
    /\ array' !! (r * 3 + 1)%nat = array !! (r * 3 + 1)%nat
    /\ array' !! (r * 3 + 2)%nat = array !! (l * 3 + 1)%nat
    /\ ((r * 3 + 3 < length array)%nat ->
        array' !! (r * 3 + 3)%nat = array !! (l * 3 + 2)%nat)
    /\ (forall j, (j < l * 3 \/ l * 3 + 2 < j < r * 3 \/ r * 3 + 3 < j)%nat ->
        array' !! j = array !! j).
Proof.
  intros Hlr Hr. unfold Sort.swapVectorArray.
  destruct (array !! (l * 3)%nat) as [t1|] eqn:E1; [|by apply lookup_ge_None in E1; lia].
  destruct (array !! (l * 3 + 1)%nat) as [t2|] eqn:E2; [|by apply lookup_ge_None in E2; lia].
  destruct (array !! (l * 3 + 2)%nat) as [t3|] eqn:E3; [|by apply lookup_ge_None in E3; lia].
  destruct (array !! (r * 3)%nat) as [r0|] eqn:F0; [|by apply lookup_ge_None in F0; lia].
  rewrite list_lookup_insert_ne by lia.
  destruct (array !! (r * 3 + 1)%nat) as [r1|] eqn:F1; [|by apply lookup_ge_None in F1; lia].
  rewrite !list_lookup_insert_ne by lia.
  destruct (array !! (r * 3 + 2)%nat) as [r2|] eqn:F2; [|by apply lookup_ge_None in F2; lia].
  eexists. split; [reflexivity|].
  split; [by rewrite !length_insert|].
  split; [by lookups|]. split; [by lookups|]. split; [by lookups|].
  split; [by lookups|]. split; [by lookups|]. split; [by lookups|].
  split; [intros ?; by lookups|].
  intros j Hj. by lookups.
Qed.

Lemma swapVectorArray_misplaces_components_witness :
  exists array',
    Sort.swapVectorArray [1; 2; 3; 4; 5; 6; 7; 8; 9] 0 1 = Some array'
    /\ array' = [4; 5; 6; 1; 5; 2; 3; 8; 9].
Proof.
  destruct (swapVectorArray_misplaces_components [1; 2; 3; 4; 5; 6; 7; 8; 9] 0 1)
    as (a & H & _); [lia|simpl; lia|].
  exists a. split; [exact H|].
  vm_compute in H. by injection H as <-.
Defined.

(** ** The attribute arrays *)

Lemma applyCall_sizes c s s' :
  System.applyCall c s = Ok s' ->
  Spec.arraySizes (geometry s') = Spec.arraySizes (geometry s).
Proof.
  destruct c; simpl; unfold System.setAlpha, System.setColor, System.setSize,
    System.setRotation, System.setPosition;
    [destruct (alpha_array (geometry s)) eqn:E
    |destruct (color_array (geometry s)) eqn:E
    |destruct (size_array (geometry s)) eqn:E
    |destruct (rotation_array (geometry s)) eqn:E
    |]; try done; intros [= <-]; unfold Spec.arraySizes; simpl;
    rewrite ?E; simpl; by rewrite !length_insert.
Qed.

Lemma applyCalls_sizes cs : forall s s',
  System.applyCalls cs s = Ok s' ->
  Spec.arraySizes (geometry s') = Spec.arraySizes (geometry s).
Proof.
  induction cs as [|c cs IH]; intros s s'; simpl.
  - by intros [= <-].
  - destruct (System.applyCall c s) as [s1|] eqn:E; [|done].
    intros H. apply IH in H. apply applyCall_sizes in E. congruence.
Qed.

Lemma updateParticles_sizes n : forall dt s s',
  System.updateParticles n dt s = Ok s' ->
  Spec.arraySizes (geometry s') = Spec.arraySizes (geometry s).
Proof.
  induction n as [|i IH]; intros dt s s'; simpl.
  - by intros [= <-].
  - destruct (_aliveParticles s !! i) as [p|]; [|done].
    destruct (ParticleM.update _ _ _ _ _) as [[p' cs]|]; [|done].
    destruct (System.applyCalls cs s) as [s1|] eqn:Hs1; [|done].
    apply applyCalls_sizes in Hs1.
    intros H. apply IH in H. rewrite H, <- Hs1. by destruct (finished p').
Qed.

Lemma step_sizes op s rng s' rng' :
  System.step op s rng = Ok (s', rng') ->
  Spec.arraySizes (geometry s') = Spec.arraySizes (geometry s).
Proof.
  destruct op; simpl; try (by intros [= <- _]).
  - unfold System.update. destruct (Qeq_bool deltaTime 0); [by intros [= <- _]|].
    intros H. apply bind_ok in H as (s1 & r1 & Hs1 & H).
    destruct (System.updateParticles _ _ s1) as [s2|] eqn:Hs2; [|done].
    apply ret_ok in H as [<- _].
    apply updateParticles_sizes in Hs2.
    change (Spec.arraySizes (geometry (System.endOfFrame _ _ s2)))
      with (Spec.arraySizes (geometry s2)).
    rewrite Hs2. clear Hs2.
    destruct (negb _); simpl in Hs1.
    + apply bind_ok in Hs1 as ([es' s1'] & r2 & Hemit & Hs1).
      apply ret_ok in Hs1 as [<- _]. simpl.
      apply emit_pools in Hemit as [-> _]. done.
    + apply ret_ok in Hs1 as [<- _]. done.
  - intros H. apply spawnLoop_pools in H as [-> _]. done.
Qed.

(** X21. Whatever a client does with a constructed system, the attribute
    arrays keep the size the constructor gave them: three slots per
    particle of the pool for positions and colors, one for alpha, size and
    rotation, and the optional arrays exist exactly for the attributes the
    options enable. *)
Theorem attribute_arrays_keep_their_size options rng0 s0 rng1 ops rng s rng' :
  System.new options rng0 = Ok (s0, rng1) ->
  System.run ops s0 rng = Ok (s, rng') ->
  let n := System.maxParticlesCount s in
  let o := p_options s in
  Spec.arraySizes (geometry s)
  = ((n * 3)%nat,
     if o_colorize o then Some (n * 3)%nat else None,
     if o_fade o then Some n else None,
     if o_scaling o then Some n else None,
     if o_rotating o then Some n else None).
Proof.
  intros Hnew Hrun.
  destruct (run_frame _ _ _ _ _ Hrun) as (-> & _ & ->).
  apply new_spec in Hnew as (_ & _ & _ & _ & Ha & Hd & Hg & _).
  assert (H0 : Spec.arraySizes (geometry s0)
               = Spec.arraySizes
                   (System.newGeometry (p_options s0) (System.maxParticlesCount s0))).
  { unfold System.maxParticlesCount. rewrite Ha, Hd, Hg. done. }
  assert (Hs : Spec.arraySizes (geometry s) = Spec.arraySizes (geometry s0)).
  { clear H0 Ha Hd Hg. revert s0 rng Hrun.
    induction ops as [|op ops IH]; intros s0 rng; simpl.
    - intros H. apply ret_ok in H as [<- _]. done.
    - intros H. apply bind_ok in H as (s1 & r1 & Hstep & H).
      apply IH in H. apply step_sizes in Hstep. congruence. }
  simpl. rewrite Hs, H0. unfold Spec.arraySizes, System.newGeometry. simpl.
  rewrite length_replicate.
  by destruct (o_colorize _), (o_fade _), (o_scaling _), (o_rotating _); simpl;
    rewrite ?length_replicate.
Qed.

Lemma attribute_arrays_keep_their_size_witness :
  let options := mkOptions (Some (Examples.constantAlpha (1 # 2))) None in
  let s0 := Examples.systemOf options in
  let ops := [System.SpawnParticles 4; System.Update (1 # 2); System.Reset;
              System.Update 3] in
  let s := Examples.after ops s0 in
  System.run ops s0 Examples.draws = Ok (s, Examples.draws)
  /\ Spec.arraySizes (geometry s) = (30%nat, None, Some 10%nat, None, None).
Proof.
  intros options s0 ops s.
  assert (Hnew : System.new options Examples.draws = Ok (s0, Examples.draws))
    by (vm_compute; reflexivity).
  assert (Hrun : System.run ops s0 Examples.draws = Ok (s, Examples.draws))
    by (vm_compute; reflexivity).
  split; [exact Hrun|].
  rewrite (attribute_arrays_keep_their_size options Examples.draws s0 Examples.draws
             ops Examples.draws s Examples.draws Hnew Hrun).
  vm_compute. reflexivity.
Defined.

(** X22. [setPosition] touches the three slots of the particle's own
    triple only: it never raises, sets the position dirty flag, and leaves
    every other slot of the position array, the length of the array, the
    other attribute arrays and the two pools alone. *)
Theorem setPosition_touches_one_triple index v s :
  exists s',
    System.setPosition index v s = Ok s'
    /\ (forall j, (j < index * 3 \/ index * 3 + 2 < j)%nat ->
        position_array (geometry s') !! j = position_array (geometry s) !! j)
    /\ length (position_array (geometry s')) = length (position_array (geometry s))
    /\ _positionDirty (dirty s') = true
    /\ color_array (geometry s') = color_array (geometry s)
    /\ alpha_array (geometry s') = alpha_array (geometry s)
    /\ size_array (geometry s') = size_array (geometry s)
    /\ rotation_array (geometry s') = rotation_array (geometry s)
    /\ _aliveParticles s' = _aliveParticles s
    /\ _deadParticles s' = _deadParticles s.
Proof.
  eexists. split; [reflexivity|]. simpl.
  split; [intros j Hj; by lookups|].
  split; [by rewrite !length_insert|]. done.
Qed.

Lemma setPosition_touches_one_triple_witness :
  let s := Examples.systemOf (mkOptions None None) in
  exists s',
    System.setPosition 9 (vec3 1 2 3) s = Ok s'
    /\ position_array (geometry s') !! 26%nat = position_array (geometry s) !! 26%nat
    /\ length (position_array (geometry s')) = 30%nat.
Proof.
  intros s.
  destruct (setPosition_touches_one_triple 9 (vec3 1 2 3) s)
    as (s' & H & Hj & Hl & _).
  exists s'. split; [exact H|]. split; [apply Hj; lia|].
  rewrite Hl. vm_compute. reflexivity.
Defined.

(** ** A particle without world-position locking *)

Lemma update_unanchored options w index dt p p' cs :
  o_worldPosition options = false -> o_onUpdate options = None ->
  startWorldPosition p = None ->
  ParticleM.update options w index dt p = Ok (p', cs) ->
  startWorldPosition p' = None.
Proof.
  intros Hw Hh Hs. unfold ParticleM.update.
  destruct (finished p); [by intros [= <- _]|].
  unfold ParticleM.anchor. rewrite Hw, andb_false_r.
  destruct (if Qeq_bool (age p) 0 then _ else _); [|done].
  destruct (ParticleM.rotate index dt p) as [p2 c2] eqn:E2. intros [= <- _].
  assert (H2 : startWorldPosition p2 = None).
  { unfold ParticleM.rotate in E2.
    destruct (rotationSpeed p) as [sp|]; [destruct (truthy sp)|];
      injection E2 as <- _; done. }
  unfold ParticleM.callOnUpdate. rewrite Hh.
  destruct (finish_kinematics
              (ParticleM.advanceAge dt (ParticleM.accelerate dt (ParticleM.integrate dt p2))))
    as (_ & _ & _ & _ & ->).
  change (startWorldPosition (ParticleM.accelerate dt (ParticleM.integrate dt p2)) = None).
  assert (H3 : startWorldPosition (ParticleM.integrate dt p2) = None).
  { unfold ParticleM.integrate. by destruct (velocity p2). }
  unfold ParticleM.accelerate.
  by destruct (acceleration _), (velocity (ParticleM.integrate dt p2)).
Qed.

Lemma update_unlocked options w1 w2 index dt p :
  o_worldPosition options = false ->
  startWorldPosition p = None ->
  ParticleM.update options w1 index dt p = ParticleM.update options w2 index dt p.
Proof.
  intros Hw Hs. unfold ParticleM.update.
  destruct (finished p); [done|].
  unfold ParticleM.anchor. rewrite Hw, andb_false_r.
  destruct (if Qeq_bool (age p) 0 then _ else _); [|done].
  destruct (ParticleM.rotate index dt p) as [p2 c2] eqn:E2.
  assert (H2 : startWorldPosition p2 = None).
  { unfold ParticleM.rotate in E2.
    destruct (rotationSpeed p) as [sp|]; [destruct (truthy sp)|];
      injection E2 as <- _; done. }
  assert (H3 : startWorldPosition (ParticleM.integrate dt p2) = None).
  { unfold ParticleM.integrate. by destruct (velocity p2). }
  unfold ParticleM.positionToSet. rewrite H3. done.
Qed.

(** X23. Without the [worldPosition] option the movement of the system
    never enters a particle: two runs over frames with the same delta
    times give the same particles and the same writes, whatever the world
    positions of the system were. *)
Theorem unlocked_particle_ignores_world_position options index :
  forall frames1 frames2 p,
  o_worldPosition options = false -> o_onUpdate options = None ->
  startWorldPosition p = None ->
  frames1.*2 = frames2.*2 ->
  ParticleM.run options index frames1 p = ParticleM.run options index frames2 p.
Proof.
  induction frames1 as [|[w1 dt1] frames1 IH]; intros [|[w2 dt2] frames2] p Hw Hh Hs;
    simpl; try done.
  intros [= <- Hrest].
  rewrite (update_unlocked options w1 w2 index dt1 p Hw Hs).
  destruct (ParticleM.update options w2 index dt1 p) as [[p' cs]|] eqn:E; [|done].
  apply update_unanchored in E; [|done..].
  by rewrite (IH frames2 p' Hw Hh E Hrest).
Qed.

Lemma unlocked_particle_ignores_world_position_witness :
  ParticleM.run (Examples.withTtl 10) 0
    [(vec3 0 0 0, 1 # 2); (vec3 5 (-7) 2, 1 # 4)] Examples.moving
  = ParticleM.run (Examples.withTtl 10) 0
      [(vec3 1 1 1, 1 # 2); (vec3 0 3 0, 1 # 4)] Examples.moving.
Proof.
  apply (unlocked_particle_ignores_world_position (Examples.withTtl 10) 0
           [(vec3 0 0 0, 1 # 2); (vec3 5 (-7) 2, 1 # 4)]
           [(vec3 1 1 1, 1 # 2); (vec3 0 3 0, 1 # 4)] Examples.moving);
    reflexivity.
Defined.

(** ** The emitter *)

Lemma burst_only_run frames : forall e rng,
  truthy (onInterval (e_options e)) = false ->
  0 < e_age e ->
  Forall (fun f => 0 <= f.1) frames ->
  exists e',
    EmitterM.run frames e rng = Ok ((replicate (length frames) 0, e'), rng)
    /\ e_options e' = e_options e
    /\ timeToSpawn e' = timeToSpawn e.
Proof.
  induction frames as [|[dt t] frames IH]; intros e rng Hi Hage Hfr.
  - exists e. done.
  - apply Forall_cons in Hfr as [Hdt Hfr]. simpl in Hdt.
    assert (Hne : Qeq_bool (e_age e) 0 = false) by (apply Qeq_bool_false; lra).
    assert (Hu : EmitterM.update dt t e rng
                 = Ok ((0, mkEmitter (e_options e) (e_age e + dt) (timeToSpawn e)), rng)).
    { unfold EmitterM.update. rewrite Hne, Hi. reflexivity. }
    destruct (IH (mkEmitter (e_options e) (e_age e + dt) (timeToSpawn e)) rng Hi
                ltac:(simpl; lra) Hfr) as (e' & Hrun & Ho & Ht).
    exists e'. split; [|done].
    simpl. rewrite (bind_ok_intro _ _ _ _ _ Hu). simpl.
    rewrite (bind_ok_intro _ _ _ _ _ Hrun). reflexivity.
Qed.

(** X24. An emitter without interval policy emits once: after an update
    that advanced time from an age that is not negative, every later
    update with a delta time that is not negative returns 0 and draws no
    random number, and the options and the countdown of the emitter stay
    as they were. *)
Theorem burst_is_emitted_once dt t e rng r e1 rng1 frames rng2 :
  truthy (onInterval (e_options e)) = false ->
  0 <= e_age e -> 0 < dt ->
  EmitterM.update dt t e rng = Ok ((r, e1), rng1) ->
  Forall (fun f => 0 <= f.1) frames ->
  exists e2,
    EmitterM.run frames e1 rng2 = Ok ((replicate (length frames) 0, e2), rng2)
    /\ e_options e2 = e_options e
    /\ timeToSpawn e2 = timeToSpawn e.
Proof.
  intros Hi Hage Hdt H Hfr. unfold EmitterM.update in H.
  apply bind_ok in H as (ret0 & r1 & _ & H).
  rewrite Hi in H. simpl in H. apply ret_ok in H as [H _].
  injection H as _ <-.
  destruct (burst_only_run frames
              (mkEmitter (e_options e) (e_age e + dt) (timeToSpawn e)) rng2 Hi
              ltac:(simpl; lra) Hfr) as (e2 & Hrun & Ho & Ht).
  exists e2. done.
Qed.

Lemma burst_is_emitted_once_witness :
  let e1 := mkEmitter (e_options Examples.burstOnly) (0 + (1 # 10)) (1 # 2) in
  EmitterM.update (1 # 10) (Some 2) Examples.burstOnly Examples.draws
  = Ok ((0 + 10, e1), Examples.draws)
  /\ exists e2,
       EmitterM.run [(1 # 10, Some 2); (0, None); (3, Some 1)] e1 Examples.draws
       = Ok (([0; 0; 0], e2), Examples.draws)
       /\ e_options e2 = e_options Examples.burstOnly.
Proof.
  intros e1.
  assert (H : EmitterM.update (1 # 10) (Some 2) Examples.burstOnly Examples.draws
              = Ok ((0 + 10, e1), Examples.draws)) by reflexivity.
  split; [exact H|].
  destruct (burst_is_emitted_once (1 # 10) (Some 2) Examples.burstOnly Examples.draws
              (0 + 10) e1 Examples.draws [(1 # 10, Some 2); (0, None); (3, Some 1)]
              Examples.draws) as (e2 & Hrun & Ho & _);
    [reflexivity|discriminate|reflexivity|exact H| |].
  - repeat constructor; discriminate.
  - exists e2. split; [exact Hrun|exact Ho].
Defined.

(** X25. [new Emitter(options)] with a constant interval, or with none,
    which stands for 1: the emitter starts at age 0 and its first interval
    firing is due after a random part of one interval. *)
Theorem new_emitter_waits_less_than_an_interval options rng i :
  Spec.unitDraws rng ->
  or (interval options) (Const 1) = Const i ->
  0 < i ->
  exists e rng',
    EmitterM.new options rng = Ok (e, rng')
    /\ e_age e = 0
    /\ interval (e_options e) = Const i
    /\ onSpawnBurst (e_options e) = onSpawnBurst options
    /\ onInterval (e_options e) = onInterval options
    /\ 0 <= timeToSpawn e /\ timeToSpawn e < i
    /\ Spec.emitterOk e = true.
Proof.
  intros Hu Hi Hpos. unfold EmitterM.new. simpl. rewrite Hi.
  unfold bind, random, Utils.randomizerOrValue, ret. simpl.
  assert (Ht : truthy i = true) by (apply truthy_num_true; lra).
  unfold or at 1. rewrite Ht.
  eexists _, _. split; [reflexivity|]. simpl.
  destruct (Hu 0%nat) as [H0 H1].
  repeat split; try done; nra.
Qed.

Lemma new_emitter_waits_less_than_an_interval_witness :
  exists e rng',
    EmitterM.new (mkEmitterOptions Undefined (Const 10) Undefined None) Examples.draws
    = Ok (e, rng')
    /\ interval (e_options e) = Const 1
    /\ 0 <= timeToSpawn e /\ timeToSpawn e < 1.
Proof.
  destruct (new_emitter_waits_less_than_an_interval
              (mkEmitterOptions Undefined (Const 10) Undefined None) Examples.draws 1)
    as (e & rng' & H & _ & Hi & _ & _ & H0 & H1 & _).
  - intros n. unfold Examples.draws. lra.
  - reflexivity.
  - reflexivity.
  - exists e, rng'. done.
Defined.

(** X26. An interval emitter fires at most once per update, however long
    the frame: with constant settings, no burst pending and no decay, the
    count is the interval quantity when the countdown has run out and 0
    otherwise, and after firing the countdown restarts from the full
    interval, the overshoot being dropped. *)
Theorem interval_fires_once_per_update dt e rng q i :
  onInterval (e_options e) = Const q -> ~ q == 0 ->
  interval (e_options e) = Const i ->
  ~ e_age e == 0 ->
  exists r e',
    EmitterM.update dt None e rng = Ok ((r, e'), rng)
    /\ e_age e' = e_age e + dt
    /\ (timeToSpawn e - dt <= 0 ->
        r == q /\ timeToSpawn e' = or i 0)
    /\ (0 < timeToSpawn e - dt ->
        r == 0 /\ timeToSpawn e' = timeToSpawn e - dt).
Proof.
  intros Hq Hq0 Hi Hage. unfold EmitterM.update.
  apply Qeq_bool_false in Hage. rewrite Hage, Hq, Hi.
  assert (Ht : truthy q = true) by (by apply truthy_num_true).
  change (truthy (Const q)) with (truthy q). rewrite Ht.
  cbn [andb negb].
  assert (Hd : forall x, EmitterM.detorate (e_options e) None x = x).
  { intros x. unfold EmitterM.detorate. by destruct (detoretingMinTtl _). }
  unfold bind, ret, Utils.randomizerOrValue.
  destruct (Qle_bool (timeToSpawn e - dt) 0) eqn:E; unfold ret; cbn [fst snd]; rewrite Hd.
  - apply Qle_bool_iff in E. eexists _, _. split; [reflexivity|]. simpl.
    split; [done|]. split; [|lra]. intros _. split; [|done].
    unfold or. rewrite Ht. lra.
  - apply Qle_bool_false in E. eexists _, _. split; [reflexivity|]. simpl.
    split; [done|]. split; [lra|]. intros _. split; [lra|done].
Qed.

Lemma interval_fires_once_per_update_witness :
  let e := mkEmitter (mkEmitterOptions Undefined (Const 10) (Const 1) None) 3 (1 # 4) in
  exists r e',
    EmitterM.update 7 None e Examples.draws = Ok ((r, e'), Examples.draws)
    /\ r == 10 /\ timeToSpawn e' = 1.
Proof.
  intros e.
  destruct (interval_fires_once_per_update 7 e Examples.draws 10 1)
    as (r & e' & H & _ & Hfire & _); [reflexivity|discriminate|reflexivity|discriminate|].
  destruct Hfire as [Hr Ht]; [vm_compute; discriminate|].
  exists r, e'. split; [exact H|]. split; [exact Hr|]. rewrite Ht. reflexivity.
Defined.
